(** * Random forest (randomforest.py): a shallow embedding and its properties

    The Python module builds randomized decision trees over a dataset held in
    a dictionary [label -> list of feature vectors].  The embedding keeps the
    shape of the code:

    - a dictionary is an association list in insertion order (Python dicts
      iterate in insertion order, and that order decides ties in [classify]
      and the flat positions used by [sampleDict]);
    - Python exceptions are the [Raise] results of an error monad;
    - the process-wide generator of module [random] is an explicit stream of
      raw draws threaded through every function that samples;
    - feature values and thresholds are rationals (every finite float is
      one), so [<] and [<=] on them are the comparisons of the code;
    - the floats that the code computes, the impurity and the gain, are
      modelled twice: as exact rationals over [Q] ([gini], [infoGain],
      [bestCut], [decisionTree]), for what holds of the exact values, and as
      IEEE 754 binary64 numbers, the primitive floats of Rocq ([gini_float],
      [infoGain_float], [bestCut_float], [decisionTree_float]), for what
      depends on how gains compare with each other and with 0. *)

From Stdlib Require Import List ZArith QArith Lia Lqa Bool Permutation Arith.
From Stdlib Require Import Floats.
Import ListNotations.

Set Implicit Arguments.

(** ** Exceptions and results *)

Inductive exn : Type :=
| IndexError
| ValueError
| ZeroDivisionError
| AttributeError
| TypeError
| RecursionError.

Inductive result (A : Type) : Type :=
| Ok (a : A)
| Raise (e : exn).

Arguments Ok {A} a.
Arguments Raise {A} e.

Definition rbind {A B} (x : result A) (f : A -> result B) : result B :=
  match x with
  | Ok a => f a
  | Raise e => Raise e
  end.

Declare Scope res_scope.
Delimit Scope res_scope with res.
Notation "x <- e ;; k" := (rbind e (fun x => k))
  (at level 61, e at next level, right associativity) : res_scope.
Notation "' p <- e ;; k" := (rbind e (fun x => match x with p => k end))
  (at level 61, p pattern, e at next level, right associativity) : res_scope.

Fixpoint mapM {A B} (f : A -> result B) (l : list A) : result (list B) :=
  match l with
  | [] => Ok []
  | a :: l' =>
      match f a with
      | Raise e => Raise e
      | Ok b =>
          match mapM f l' with
          | Raise e => Raise e
          | Ok bs => Ok (b :: bs)
          end
      end
  end.

(** [seq[i]] for a list and a non-negative index. *)
Definition getitem {A} (l : list A) (i : nat) : result A :=
  match nth_error l i with
  | Some a => Ok a
  | None => Raise IndexError
  end.

(** ** Numbers *)

Definition Qnat (n : nat) : Q := inject_Z (Z.of_nat n).

(** [a / b] on two Python ints (true division). *)
Definition py_div (a b : nat) : result Q :=
  if Nat.eqb b 0 then Raise ZeroDivisionError else Ok (Qnat a / Qnat b).

(** The builtin [sum]: a left fold that starts from 0. *)
Definition py_sum (l : list nat) : nat := fold_left Nat.add l 0%nat.
Definition py_fsum (l : list Q) : Q := fold_left Qplus l 0.

Definition Qltb (a b : Q) : bool := negb (Qle_bool b a).

(** ** The dataset: a dictionary from labels to lists of vectors *)

Definition label := Z.
Definition vector := list Q.
Definition dict := list (label * list vector).

Definition keys (d : dict) : list label := map fst d.
Definition values (d : dict) : list (list vector) := map snd d.

(** [d[key].append(v)] on a [defaultdict(list)]: a missing key is created at
    the end of the dictionary. *)
Fixpoint dd_append (key : label) (v : vector) (d : dict) : dict :=
  match d with
  | [] => [(key, [v])]
  | (k, l) :: d' =>
      if Z.eqb key k then (k, l ++ [v]) :: d'
      else (k, l) :: dd_append key v d'
  end.

(** ** Decision tree: impurity and information gain *)

Definition gini (data : dict) : result Q :=
  let probs := map (@length vector) (values data) in
  match mapM (fun prob => py_div prob (py_sum probs)) probs with
  | Raise e => Raise e
  | Ok probs' => Ok (1 - py_fsum (map (fun i => i ^ 2) probs'))
  end.

Definition lenDictValues (dic : dict) : nat :=
  let s := map (@length vector) (values dic) in
  py_sum s.

Definition infoGain (c c1 c2 : dict) : result Q :=
  (p <- py_div (lenDictValues c1) (lenDictValues c) ;;
   g <- gini c ;;
   g1 <- gini c1 ;;
   g2 <- gini c2 ;;
   Ok (g - (p * g1 + (1 - p) * g2)))%res.

(** ** The same computations in binary64

    A Python float is an IEEE 754 binary64 number, here a primitive float.
    [a / b] on two ints is the quotient rounded to nearest, which for ints
    below 2^53 is the float quotient of the two ints converted; [i ** 2] is
    taken as the rounded product [i * i]; the builtin [sum] adds from the
    left, starting from the int 0 (so an empty sum stays the int 0, and
    [1 - 0] the int 1, which enters the float operations as 1.0).  The
    conversion of a count is exact below [2^53]. *)

Definition float_of_int (n : nat) : float :=
  PrimFloat.of_uint63 (Uint63.of_Z (Z.of_nat n)).

Definition py_div_float (a b : nat) : result float :=
  if Nat.eqb b 0 then Raise ZeroDivisionError
  else Ok (PrimFloat.div (float_of_int a) (float_of_int b)).

Definition py_fsum_float (l : list float) : float :=
  fold_left PrimFloat.add l PrimFloat.zero.

Definition gini_float (data : dict) : result float :=
  let probs := map (@length vector) (values data) in
  match mapM (fun prob => py_div_float prob (py_sum probs)) probs with
  | Raise e => Raise e
  | Ok probs' =>
      Ok (PrimFloat.sub PrimFloat.one
            (py_fsum_float (map (fun i => PrimFloat.mul i i) probs')))
  end.

Definition infoGain_float (c c1 c2 : dict) : result float :=
  (p <- py_div_float (lenDictValues c1) (lenDictValues c) ;;
   g <- gini_float c ;;
   g1 <- gini_float c1 ;;
   g2 <- gini_float c2 ;;
   Ok (PrimFloat.sub g
         (PrimFloat.add (PrimFloat.mul p g1)
                        (PrimFloat.mul (PrimFloat.sub PrimFloat.one p) g2))))%res.

(** [a > b] on two floats. *)
Definition gt_float (a b : float) : bool := PrimFloat.ltb b a.

(** ** Accuracy *)

Fixpoint score_loop (range : list nat) (guessed_labels true_labels : list Z)
         (score : nat) : result nat :=
  match range with
  | [] => Ok score
  | i :: range' =>
      (g <- getitem guessed_labels i ;;
       t <- getitem true_labels i ;;
       score_loop range' guessed_labels true_labels
                  (score + (if Z.eqb g t then 1 else 0)))%res
  end.

Definition score (guessed_labels true_labels : list Z) : result Q :=
  let n := length guessed_labels in
  (s <- score_loop (seq 0 n) guessed_labels true_labels 0%nat ;;
   py_div s n)%res.

(** Number of positions at which two sequences agree. *)
Fixpoint agreements (predicted trueLabels : list Z) : nat :=
  match predicted, trueLabels with
  | p :: ps, t :: ts => (if Z.eqb p t then 1 else 0) + agreements ps ts
  | _, _ => 0
  end.

(** ** The random source

    Module [random] keeps one hidden generator.  Here it is a stream of raw
    draws; each primitive consumes one draw and returns the rest.  Every
    sequence of outcomes of [rd.choice] and [rd.sample] is produced by some
    stream, so a statement for all streams covers every run. *)

Definition rng := nat -> nat.
Definition M (A : Type) : Type := rng -> result (A * rng).

Definition ret {A} (a : A) : M A := fun r => Ok (a, r).
Definition mbind {A B} (m : M A) (f : A -> M B) : M B :=
  fun r =>
    match m r with
    | Ok (a, r') => f a r'
    | Raise e => Raise e
    end.
Definition lift {A} (x : result A) : M A :=
  fun r =>
    match x with
    | Ok a => Ok (a, r)
    | Raise e => Raise e
    end.

Declare Scope rnd_scope.
Delimit Scope rnd_scope with rnd.
Notation "x <- e ;; k" := (mbind e (fun x => k))
  (at level 61, e at next level, right associativity) : rnd_scope.
Notation "' p <- e ;; k" := (mbind e (fun x => match x with p => k end))
  (at level 61, p pattern, e at next level, right associativity) : rnd_scope.

Definition randbelow (n : nat) : M nat :=
  fun r => Ok (Nat.modulo (r 0%nat) n, fun i => r (S i)).

(** [rd.choice(seq)] *)
Definition rd_choice {A} (seq : list A) : M A :=
  match seq with
  | [] => lift (Raise IndexError)
  | _ => (j <- randbelow (length seq) ;; lift (getitem seq j))%rnd
  end.

Definition remove_at {A} (j : nat) (pool : list A) : list A :=
  firstn j pool ++ skipn (S j) pool.

Fixpoint sample_loop {A} (k : nat) (pool : list A) : M (list A) :=
  match k with
  | O => ret []
  | S k' =>
      (j <- randbelow (length pool) ;;
       x <- lift (getitem pool j) ;;
       xs <- sample_loop k' (remove_at j pool) ;;
       ret (x :: xs))%rnd
  end.

(** [rd.sample(population, k)]: [k] elements at distinct positions. *)
Definition rd_sample {A} (population : list A) (k : nat) : M (list A) :=
  if Nat.ltb (length population) k then lift (Raise ValueError)
  else sample_loop k population.

(** ** Nodes *)

#[warnings="-register-all"]
Inductive Node : Type :=
  mkNode {
    data : dict;
    question : option (nat * Q);
    left_son : option Node;
    right_son : option Node
  }.

(** [Node(data)]; the back reference [father] is never read by the functions
    below and is left out. *)
Definition newNode (d : dict) : Node := mkNode d None None None.

Fixpoint depth (n : Node) : nat :=
  match n with
  | mkNode _ _ l r =>
      match l, r with
      | None, None => 0%nat
      | _, _ =>
          let max_left :=
            match l with
            | Some ls => let depth_left := depth ls in
                         if Nat.ltb 0 depth_left then depth_left else 0%nat
            | None => 0%nat
            end in
          let max_right :=
            match r with
            | Some rs => let depth_right := depth rs in
                         if Nat.ltb 0 depth_right then depth_right else 0%nat
            | None => 0%nat
            end in
          let m := if Nat.leb max_right max_left then max_left else max_right in
          (m + 1)%nat
      end
  end.

(** ** Split search *)

(** [v[random_feature]]: numpy indexing of a vector by a list of positions. *)
Definition take (v : vector) (idx : list nat) : result (list Q) :=
  mapM (getitem v) idx.

(** A one-element array used as a scalar: in [float(a)], and in the truth
    value of [a < x]. *)
Definition to_float (a : list Q) : result Q :=
  match a with
  | [x] => Ok x
  | _ => Raise TypeError
  end.

Definition item (a : list Q) : result Q :=
  match a with
  | [x] => Ok x
  | _ => Raise ValueError
  end.

Definition cut : Type := (dict * dict * list nat * Q)%type.

Fixpoint split_line (key : label) (l : list vector) (random_feature : list nat)
         (decisional_value : Q) (c : dict * dict) : result (dict * dict) :=
  match l with
  | [] => Ok c
  | v :: l' =>
      (a <- take v random_feature ;;
       x <- item a ;;
       split_line key l' random_feature decisional_value
         (if Qltb x decisional_value
          then (dd_append key v (fst c), snd c)
          else (fst c, dd_append key v (snd c))))%res
  end.

Fixpoint split_items (items : dict) (random_feature : list nat)
         (decisional_value : Q) (c : dict * dict) : result (dict * dict) :=
  match items with
  | [] => Ok c
  | (key, l) :: items' =>
      (c' <- split_line key l random_feature decisional_value c ;;
       split_items items' random_feature decisional_value c')%res
  end.

Definition generateCut (node : Node) (features : list nat) : M cut :=
  (random_feature <- rd_sample features 1 ;;
   let values := values (data node) in
   if negb (Nat.eqb (length values) 0) then
     let points := concat values in
     arrs <- lift (mapM (fun v => take v random_feature) points) ;;
     a <- rd_choice arrs ;;
     decisional_value <- lift (to_float a) ;;
     c <- lift (split_items (data node) random_feature decisional_value ([], [])) ;;
     ret (fst c, snd c, random_feature, decisional_value)
   else
     ret ([], [], random_feature, 0))%rnd.

Definition best : Type := (Q * dict * dict * list nat * Q)%type.

Fixpoint bestCut_loop (n : nat) (node : Node) (features : list nat) (b : best)
  : M best :=
  match n with
  | O => ret b
  | S n' =>
      ('(c1, c2, random_feature, decisional_value) <- generateCut node features ;;
       if Nat.eqb (length c1) 0 || Nat.eqb (length c2) 0 then
         bestCut_loop n' node features b
       else
         info <- lift (infoGain (data node) c1 c2) ;;
         let '(best_info, _, _, _, _) := b in
         if Qltb best_info info then
           bestCut_loop n' node features
                        (info, c1, c2, random_feature, decisional_value)
         else
           bestCut_loop n' node features b)%rnd
  end.

Definition bestCut (node : Node) (nb_cut : nat) (features : list nat)
  : M (Q * dict * dict * (nat * Q)) :=
  ('(best_c1, best_c2, best_feature, best_decisional_value)
     <- generateCut node features ;;
   best_info <- lift (infoGain (data node) best_c1 best_c2) ;;
   '(best_info, best_c1, best_c2, best_feature, best_decisional_value)
     <- bestCut_loop (nb_cut - 1) node features
          (best_info, best_c1, best_c2, best_feature, best_decisional_value) ;;
   f <- lift (getitem best_feature 0) ;;
   let best_question := (f, best_decisional_value) in
   ret (best_info, best_c1, best_c2, best_question))%rnd.

(** [bestCut] again, with the function that computes the gain and the test
    [info > best_info] as parameters: [bestCut] above is the instance with
    the exact gain, [bestCut_float] the one with the binary64 gain that the
    interpreter computes and compares. *)
Fixpoint bestCut_loop_with {F : Type} (gain : dict -> dict -> dict -> result F)
         (gt : F -> F -> bool) (n : nat) (node : Node) (features : list nat)
         (b : F * dict * dict * list nat * Q)
  : M (F * dict * dict * list nat * Q) :=
  match n with
  | O => ret b
  | S n' =>
      ('(c1, c2, random_feature, decisional_value) <- generateCut node features ;;
       if Nat.eqb (length c1) 0 || Nat.eqb (length c2) 0 then
         bestCut_loop_with gain gt n' node features b
       else
         info <- lift (gain (data node) c1 c2) ;;
         let '(best_info, _, _, _, _) := b in
         if gt info best_info then
           bestCut_loop_with gain gt n' node features
                             (info, c1, c2, random_feature, decisional_value)
         else
           bestCut_loop_with gain gt n' node features b)%rnd
  end.

Definition bestCut_with {F : Type} (gain : dict -> dict -> dict -> result F)
           (gt : F -> F -> bool) (node : Node) (nb_cut : nat) (features : list nat)
  : M (F * dict * dict * (nat * Q)) :=
  ('(best_c1, best_c2, best_feature, best_decisional_value)
     <- generateCut node features ;;
   best_info <- lift (gain (data node) best_c1 best_c2) ;;
   '(best_info, best_c1, best_c2, best_feature, best_decisional_value)
     <- bestCut_loop_with gain gt (nb_cut - 1) node features
          (best_info, best_c1, best_c2, best_feature, best_decisional_value) ;;
   f <- lift (getitem best_feature 0) ;;
   let best_question := (f, best_decisional_value) in
   ret (best_info, best_c1, best_c2, best_question))%rnd.

Definition bestCut_float (node : Node) (nb_cut : nat) (features : list nat)
  : M (float * dict * dict * (nat * Q)) :=
  bestCut_with infoGain_float gt_float node nb_cut features.

(** ** Tree construction *)

Definition partition (node : Node) (c1 c2 : dict) (question : nat * Q) : Node :=
  mkNode (data node) (Some question) (Some (newNode c1)) (Some (newNode c2)).

(** The recursion of [decisionTree] is bounded here by [fuel]; running out of
    it is [RecursionError].  [decisionTree] starts with as much fuel as the
    node has vectors, which is shown below to be enough. *)
Fixpoint decisionTree_rec (fuel : nat) (node : Node) (nb_cut_to_find_best : nat)
         (features : list nat) (max_depth : Z) : M Node :=
  ('(gain, c1, c2, q) <- bestCut node nb_cut_to_find_best features ;;
   g <- lift (gini (data node)) ;;
   if Qeq_bool g 0 || Qeq_bool gain 0 || Z.eqb (Z.of_nat (depth node)) max_depth
   then ret node
   else
     match fuel with
     | O => lift (Raise RecursionError)
     | S fuel' =>
         let node := partition node c1 c2 q in
         match left_son node, right_son node with
         | Some ls, Some rs =>
             ls' <- decisionTree_rec fuel' ls nb_cut_to_find_best features
                                     (max_depth - 1) ;;
             rs' <- decisionTree_rec fuel' rs nb_cut_to_find_best features
                                     (max_depth - 1) ;;
             ret (mkNode (data node) (question node) (Some ls') (Some rs'))
         | _, _ => lift (Raise AttributeError)
         end
     end)%rnd.

Definition decisionTree (node : Node) (nb_cut_to_find_best : nat)
           (features : list nat) (max_depth : Z) : M Node :=
  decisionTree_rec (lenDictValues (data node)) node nb_cut_to_find_best
                   features max_depth.

(** The builder again, with the gains and the two tests [gini(...) == 0] and
    [gain == 0] in binary64, as the interpreter evaluates them, and with the
    interpreter's bound on nested calls: [recursion_limit] is the number of
    calls of [decisionTree] that may still be nested in the current one; one
    more raises RecursionError. *)
Fixpoint decisionTree_float (recursion_limit : nat) (node : Node)
         (nb_cut_to_find_best : nat) (features : list nat) (max_depth : Z) : M Node :=
  ('(gain, c1, c2, q) <- bestCut_float node nb_cut_to_find_best features ;;
   g <- lift (gini_float (data node)) ;;
   if PrimFloat.eqb g PrimFloat.zero || PrimFloat.eqb gain PrimFloat.zero
      || Z.eqb (Z.of_nat (depth node)) max_depth
   then ret node
   else
     let node := partition node c1 c2 q in
     match recursion_limit with
     | O => lift (Raise RecursionError)
     | S limit =>
         match left_son node, right_son node with
         | Some ls, Some rs =>
             ls' <- decisionTree_float limit ls nb_cut_to_find_best features
                                       (max_depth - 1) ;;
             rs' <- decisionTree_float limit rs nb_cut_to_find_best features
                                       (max_depth - 1) ;;
             ret (mkNode (data node) (question node) (Some ls') (Some rs'))
         | _, _ => lift (Raise AttributeError)
         end
     end)%rnd.

(** ** Classification *)

Fixpoint argmax_from (best_i best i : nat) (l : list nat) : nat :=
  match l with
  | [] => best_i
  | x :: l' =>
      if Nat.ltb best x then argmax_from i x (S i) l'
      else argmax_from best_i best (S i) l'
  end.

(** [np.argmax]: the first position of the maximum. *)
Definition np_argmax (l : list nat) : result nat :=
  match l with
  | [] => Raise ValueError
  | x :: l' => Ok (argmax_from 0 x 1 l')
  end.

Definition is_None {A} (o : option A) : bool :=
  match o with
  | None => true
  | Some _ => false
  end.

(** The [while] loop of [classify]: the node at which it stops. *)
Fixpoint classify_walk (node : Node) (element : vector) : result Node :=
  match node with
  | mkNode _ q l r =>
      match q with
      | None => Ok node
      | Some (f, t) =>
          match getitem element f with
          | Raise e => Raise e
          | Ok x =>
              match (if Qle_bool x t then l else r) with
              | None => Raise AttributeError
              | Some son =>
                  if is_None (left_son son) && is_None (right_son son)
                  then Ok son
                  else classify_walk son element
              end
          end
      end
  end.

Definition classify (root : Node) (element : vector) : result Z :=
  (node <- classify_walk root element ;;
   majoritary_index <- np_argmax (map (@length vector) (values (data node))) ;;
   key <- getitem (keys (data node)) majoritary_index ;;
   Ok key)%res.

(** ** Random forest: sampling *)

Fixpoint sampleDict_find (i : nat) (items : dict) (d : dict) : result dict :=
  match items with
  | [] => Ok d
  | (k, v) :: items' =>
      if Nat.ltb i (length v) then
        (x <- getitem v i ;; Ok (dd_append k x d))%res
      else sampleDict_find (i - length v) items' d
  end.

Fixpoint sampleDict_loop (idx : list nat) (dic : dict) (d : dict) : result dict :=
  match idx with
  | [] => Ok d
  | i :: idx' =>
      (d' <- sampleDict_find i dic d ;; sampleDict_loop idx' dic d')%res
  end.

Definition sampleDict (dic : dict) (sample_size : nat) : M dict :=
  (idx <- rd_sample (seq 0 (lenDictValues dic)) sample_size ;;
   lift (sampleDict_loop idx dic []))%rnd.

(** ** Notions used to state the properties *)

(** Labels that hold at least one vector. *)
Definition labels_present (d : dict) : nat :=
  length (filter (fun c => Nat.ltb 0 c) (map (@length vector) (values d))).

Definition counts (d : dict) : list nat := map (@length vector) (values d).

Definition sumsq (cs : list nat) : nat := list_sum (map (fun c => c * c)%nat cs).

Definition positives (cs : list nat) : nat :=
  length (filter (fun c => Nat.ltb 0 c) cs).

(** The value [gini] computes from the numbers of vectors per label. *)
Definition gini_val (cs : list nat) : Q :=
  1 - py_fsum (map (fun i => i ^ 2) (map (fun c => Qnat c / Qnat (py_sum cs)) cs)).

(** The flattened dataset: every vector with its label, labels in dictionary
    order.  The flat position of a vector is its index in this list. *)
Definition flatten (d : dict) : list (label * vector) :=
  flat_map (fun kl => map (pair (fst kl)) (snd kl)) d.

(** A well-formed dataset: the keys of a dictionary are pairwise distinct,
    and every vector has a value at every feature index in use. *)
Fixpoint distinct (l : list label) : bool :=
  match l with
  | [] => true
  | x :: l' => negb (existsb (Z.eqb x) l') && distinct l'
  end.

Definition in_range (features : list nat) (d : dict) : bool :=
  forallb (fun v => forallb (fun f => Nat.ltb f (length v)) features)
          (concat (values d)).

(** The two sides of the question "is the value of feature [f] below [t]?". *)
Definition below (f : nat) (t : Q) (v : vector) : bool :=
  match nth_error v f with
  | Some x => Qltb x t
  | None => false
  end.

Definition at_least (f : nat) (t : Q) (v : vector) : bool :=
  match nth_error v f with
  | Some x => Qle_bool t x
  | None => false
  end.

(** The vectors of [d] that satisfy [P], label by label; a label left without
    a vector does not appear. *)
Definition opt_entry (key : label) (l : list vector) : dict :=
  match l with
  | [] => []
  | _ => [(key, l)]
  end.

Definition side (P : vector -> bool) (d : dict) : dict :=
  flat_map (fun kl => opt_entry (fst kl) (filter P (snd kl))) d.

(** The candidate cuts drawn one after the other from the random source. *)
Fixpoint draw_cuts (n : nat) (node : Node) (features : list nat) : M (list cut) :=
  match n with
  | O => ret []
  | S n' =>
      (c <- generateCut node features ;;
       cs <- draw_cuts n' node features ;;
       ret (c :: cs))%rnd
  end.

(** A candidate one side of which is empty. *)
Definition degenerate (c : cut) : bool :=
  let '(c1, c2, _, _) := c in
  Nat.eqb (length c1) 0 || Nat.eqb (length c2) 0.

Definition gain_of (d : dict) (c : cut) : result Q :=
  let '(c1, c2, _, _) := c in infoGain d c1 c2.

(** The candidates that compete: the first one, and the later ones that are
    not discarded. *)
Definition eligible (i : nat) (c : cut) : bool :=
  Nat.eqb i 0 || negb (degenerate c).

(** Candidate [c], at position [i] of [cands], wins with gain [g]: no
    competing candidate gains more, and every earlier one gains less. *)
Definition wins (d : dict) (cands : list cut) (i : nat) (c : cut) (g : Q) : Prop :=
  nth_error cands i = Some c /\
  eligible i c = true /\
  gain_of d c = Ok g /\
  forall j cj,
    nth_error cands j = Some cj -> eligible j cj = true ->
    exists gj, gain_of d cj = Ok gj /\ gj <= g /\ ((j < i)%nat -> gj < g).

(** The same notions for gains that are floats.  [gain] is the function that
    computes them.  Candidate [c], at position [i] of [cands], wins with
    gain [g]: no competing candidate has a gain [> g], and every earlier
    competing candidate has a gain [< g] (a gain that is not a number
    compares with nothing, and is left out of this). *)
Definition gain_of_with {F : Type} (gain : dict -> dict -> dict -> result F)
           (d : dict) (c : cut) : result F :=
  let '(c1, c2, _, _) := c in gain d c1 c2.

Definition wins_float (gain : dict -> dict -> dict -> result float) (d : dict)
           (cands : list cut) (i : nat) (c : cut) (g : float) : Prop :=
  nth_error cands i = Some c /\
  eligible i c = true /\
  gain_of_with gain d c = Ok g /\
  forall j cj,
    nth_error cands j = Some cj -> eligible j cj = true ->
    exists gj, gain_of_with gain d cj = Ok gj /\
               gt_float gj g = false /\
               ((j < i)%nat -> PrimFloat.is_nan gj = false -> gt_float g gj = true).

(** Notions for the binary64 computations.  A shift of a mantissa is
    inexact when a bit that is not zero was shifted out. *)
Definition inexact (mrs : shr_record) : bool := shr_r mrs || shr_s mrs.

Definition loc_inexact (l : location) : bool :=
  match l with loc_Exact => false | _ => true end.

(** What a rounding returns when the exact result is at most [N] in
    magnitude, for an integer [N < 2^53]: zero or a finite number of the
    sign asked for, itself at most [N]. *)
Definition within (N : Z) (sx : bool) (x : spec_float) : Prop :=
  match x with
  | S754_zero s => s = sx
  | S754_finite s m e => s = sx /\ (e <= 0)%Z /\ (Zpos m <= N * 2 ^ (- e))%Z
  | _ => False
  end.

(** The float that [gini] returns, from the numbers of vectors per label. *)
Definition gini_float_terms (n : nat) (cs : list nat) : list float :=
  map (fun i => PrimFloat.mul i i)
      (map (fun c => PrimFloat.div (float_of_int c) (float_of_int n)) cs).

Definition gini_float_val (cs : list nat) : float :=
  PrimFloat.sub PrimFloat.one (py_fsum_float (gini_float_terms (py_sum cs) cs)).

(** A dataset small enough for its counts to be floats: fewer than [2^53]
    vectors and fewer than [2^50] labels. *)
Definition small (d : dict) : Prop :=
  (Z.of_nat (lenDictValues d) < 2 ^ 53)%Z /\ (Z.of_nat (length d) < 2 ^ 50)%Z.

(** A cut of dataset [d] on one of the allowed features. *)
Definition is_cut_of (d : dict) (features : list nat) (c : cut) : Prop :=
  exists f t,
    c = (side (below f t) d, side (at_least f t) d, [f], t) /\ In f features.

(** All the nodes of a tree, the root first. *)
Fixpoint nodes (n : Node) : list Node :=
  match n with
  | mkNode _ _ l r =>
      n :: (match l with Some x => nodes x | None => [] end)
        ++ (match r with Some x => nodes x | None => [] end)
  end.

(** A node is internal (a question and two sons) or a leaf (neither). *)
Definition shape_ok (n : Node) : Prop :=
  (question n <> None <-> left_son n <> None /\ right_son n <> None) /\
  (left_son n = None <-> right_son n = None) /\
  (question n = None -> left_son n = None /\ right_son n = None).

(** A dataset on which trees are built: distinct keys, vectors long enough
    for the allowed features, at least one vector. *)
Definition well_formed (features : list nat) (d : dict) : Prop :=
  NoDup (keys d) /\
  (forall v, In v (concat (values d)) ->
             forall f, In f features -> (f < length v)%nat) /\
  (0 < lenDictValues d)%nat.

(** What the builder establishes at every node: the shape, a well-formed
    dataset, and sons that hold the two sides of the question. *)
Definition node_ok (features : list nat) (n : Node) : Prop :=
  shape_ok n /\ well_formed features (data n) /\
  (forall f t, question n = Some (f, t) ->
     In f features /\
     (exists l, left_son n = Some l /\ data l = side (below f t) (data n) /\
                (0 < lenDictValues (data l))%nat) /\
     (exists r, right_son n = Some r /\ data r = side (at_least f t) (data n) /\
                (0 < lenDictValues (data r))%nat)).

(** The leaf that a vector reaches: while the current node has a question,
    go to the left son if the value of the feature is [<=] the threshold,
    to the right son otherwise. *)
Fixpoint route (n : Node) (v : vector) : Node :=
  match n with
  | mkNode _ q l r =>
      match q with
      | None => n
      | Some (f, t) =>
          match nth_error v f with
          | None => n
          | Some x =>
              match (if Qle_bool x t then l else r) with
              | Some son => route son v
              | None => n
              end
          end
      end
  end.

(** The vector has a value at every feature index that the tree asks for. *)
Definition has_values (tree : Node) (v : vector) : bool :=
  forallb (fun n => match question n with
                    | Some (f, _) => Nat.ltb f (length v)
                    | None => true
                    end) (nodes tree).

(** Label [k] holds the most vectors in [d], and is the first to do so. *)
Definition majority (d : dict) (k : label) : Prop :=
  exists i l,
    nth_error d i = Some (k, l) /\
    forall j kj lj,
      nth_error d j = Some (kj, lj) ->
      (length lj <= length l)%nat /\ ((j < i)%nat -> (length lj < length l)%nat).

(** Structural induction on trees (the sons sit under [option]). *)
Fixpoint Node_induction (P : Node -> Prop)
         (H : forall d q l r,
             match l with Some x => P x | None => True end ->
             match r with Some x => P x | None => True end ->
             P (mkNode d q l r))
         (n : Node) {struct n} : P n :=
  match n with
  | mkNode d q l r =>
      H d q l r
        (match l as o return match o with Some x => P x | None => True end with
         | Some x => Node_induction P H x
         | None => I
         end)
        (match r as o return match o with Some x => P x | None => True end with
         | Some x => Node_induction P H x
         | None => I
         end)
  end.

(** The number of vectors under label [k] in a flattened dataset. *)
Definition lcount (k : label) (fl : list (label * vector)) : nat :=
  length (filter (fun kv => Z.eqb (fst kv) k) fl).

(** No label of the dictionary has an empty list (what a [defaultdict] filled
    by [append] looks like). *)
Definition no_empty_label (d : dict) : bool :=
  forallb (fun kl => negb (Nat.eqb (length (snd kl)) 0)) d.

(** ** Random forest: training and voting *)

(** [int(sqrt(n))] for a number of features: the integer square root (the
    float square root of a count of this size truncates to it). *)
Definition int_sqrt (n : nat) : nat := Nat.sqrt n.

(** [list(data.values())[0][0]]: the first vector of the first label. *)
Definition first_vector (data : dict) : result vector :=
  (first <- getitem (values data) 0 ;; getitem first 0)%res.

(** The loop of [randomForest] ([verbose] left at [False]: printing does not
    change what is returned). *)
Fixpoint randomForest_loop (n : nat) (data : dict) (sample_size nb_cut_to_find_best : nat)
         (max_depth : Z) (list_trees : list Node) : M (list Node) :=
  match n with
  | O => ret list_trees
  | S n' =>
      (d <- sampleDict data sample_size ;;
       let root := newNode d in
       v0 <- lift (first_vector data) ;;
       let nb_features := length v0 in
       tFeatures <- rd_sample (seq 0 nb_features) (int_sqrt nb_features + 1) ;;
       tree <- decisionTree root nb_cut_to_find_best tFeatures max_depth ;;
       randomForest_loop n' data sample_size nb_cut_to_find_best max_depth
                         (list_trees ++ [tree]))%rnd
  end.

Definition randomForest (data : dict) (nb_trees sample_size nb_cut_to_find_best : nat)
           (max_depth : Z) : M (list Node) :=
  randomForest_loop nb_trees data sample_size nb_cut_to_find_best max_depth [].

(** The position that [occ[key]] denotes in a list of length [len]: Python
    counts a negative index from the end. *)
Definition list_index (len : nat) (key : Z) : result nat :=
  if (0 <=? key)%Z && (key <? Z.of_nat len)%Z then Ok (Z.to_nat key)
  else if (- Z.of_nat len <=? key)%Z && (key <? 0)%Z
       then Ok (Z.to_nat (Z.of_nat len + key))
       else Raise IndexError.

(** [occ[i] += 1] *)
Fixpoint incr_at (i : nat) (occ : list nat) {struct occ} : list nat :=
  match occ with
  | [] => []
  | x :: occ' =>
      match i with
      | O => (x + 1)%nat :: occ'
      | S i' => x :: incr_at i' occ'
      end
  end.

Fixpoint forestClassify_loop (list_trees : list Node) (element : vector)
         (occ : list nat) : result (list nat) :=
  match list_trees with
  | [] => Ok occ
  | tree :: rest =>
      (key <- classify tree element ;;
       i <- list_index (length occ) key ;;
       forestClassify_loop rest element (incr_at i occ))%res
  end.

Definition forestClassify (list_trees : list Node) (element : vector)
           (nb_labels : Z) : result nat :=
  let occ := repeat 0%nat (Z.to_nat (nb_labels + 1)) in
  (occ' <- forestClassify_loop list_trees element occ ;;
   np_argmax occ')%res.

(** The leaves of a tree, from left to right. *)
Fixpoint leaves (n : Node) : list Node :=
  match n with
  | mkNode _ _ l r =>
      match l, r with
      | None, None => [n]
      | _, _ =>
          (match l with Some x => leaves x | None => [] end)
            ++ (match r with Some x => leaves x | None => [] end)
      end
  end.

(** The depth of an optional son; an absent son counts for 0. *)
Definition son_depth (o : option Node) : nat :=
  match o with
  | Some x => depth x
  | None => 0%nat
  end.

(** The votes for position [j] among the labels [ks] that the trees predict,
    for a tally of [m] counters. *)
Definition votes (m : Z) (ks : list Z) (j : nat) : nat :=
  length (filter (fun k => Z.eqb (k mod m) (Z.of_nat j)) ks).


(** ** A small dataset and a fixed random source, for worked examples *)

Definition tape (l : list nat) : rng := fun i => nth i l 0%nat.

Definition example_data : dict :=
  [(1%Z, [[1; 5]; [2; 6]]); (2%Z, [[3; 7]; [4; 8]; [0; 9]])].

Definition example_features : list nat := [0%nat; 1%nat].

Definition example_draws : rng :=
  tape [0; 4; 0; 2; 0; 3; 0; 1; 0; 1; 1; 1; 1]%nat.




(** Three vectors on which two cuts, on feature 0 at 5 and on feature 1 at 9,
    have the same exact gain 1/9 and two different binary64 gains; and nine
    vectors on which the cut at 3 has exact gain 0 and a negative binary64
    gain. *)
Definition tie_data : dict := [(0%Z, [[1; 9]; [5; 3]]); (1%Z, [[7; 4]])].

Definition tie_draws : rng := tape [0; 1; 0; 0; 1; 0]%nat.

Definition noise_data : dict :=
  [(0%Z, [[0]; [3]; [4]]); (1%Z, [[1]; [2]; [5]; [6]; [7]; [8]])].

Definition noise_draws : rng := tape [0; 1; 0; 0]%nat.

(** * Properties *)

(** ** Sums *)

Lemma fold_add_shift (l : list nat) (a : nat) :
  fold_left Nat.add l a = (a + fold_left Nat.add l 0)%nat.
Proof.
  revert a; induction l as [|x l IH]; intros a; simpl.
  - lia.
  - rewrite (IH (a + x)%nat), (IH x). lia.
Qed.

Lemma py_sum_cons (x : nat) (l : list nat) : py_sum (x :: l) = (x + py_sum l)%nat.
Proof. unfold py_sum; simpl. apply fold_add_shift. Qed.

Lemma fold_Qplus_shift (l : list Q) (a : Q) :
  fold_left Qplus l a == a + fold_left Qplus l 0.
Proof.
  revert a; induction l as [|x l IH]; intros a; simpl.
  - ring.
  - rewrite (IH (a + x)), (IH (0 + x)). ring.
Qed.

Lemma py_fsum_cons (x : Q) (l : list Q) : py_fsum (x :: l) == x + py_fsum l.
Proof. unfold py_fsum; simpl. rewrite fold_Qplus_shift. ring. Qed.

Lemma Qnat_plus (a b : nat) : Qnat (a + b) == Qnat a + Qnat b.
Proof. unfold Qnat. rewrite Nat2Z.inj_add, inject_Z_plus. reflexivity. Qed.

Lemma Qnat_mult (a b : nat) : Qnat (a * b) == Qnat a * Qnat b.
Proof. unfold Qnat. rewrite Nat2Z.inj_mul, inject_Z_mult. reflexivity. Qed.

Lemma Qnat_le (a b : nat) : (a <= b)%nat -> Qnat a <= Qnat b.
Proof. intros H. unfold Qnat. rewrite <- Zle_Qle. lia. Qed.

Lemma Qnat_pos (a : nat) : (0 < a)%nat -> 0 < Qnat a.
Proof. intros H. unfold Qnat. change 0 with (inject_Z 0). rewrite <- Zlt_Qlt. lia. Qed.

(** ** score *)

Lemma skipn_nth_error {A} (l : list A) (s : nat) (a : A) :
  nth_error l s = Some a -> skipn s l = a :: skipn (S s) l.
Proof.
  revert l; induction s as [|s IH]; intros [|x l] H; simpl in *; try discriminate.
  - now inversion H.
  - now apply IH.
Qed.

Lemma score_loop_seq (guessed truth : list Z) (k s acc : nat) :
  length guessed = (s + k)%nat -> length truth = (s + k)%nat ->
  score_loop (seq s k) guessed truth acc
  = Ok (acc + agreements (skipn s guessed) (skipn s truth))%nat.
Proof.
  revert s acc; induction k as [|k IH]; intros s acc Hg Ht; simpl.
  - rewrite (skipn_all2 guessed) by lia. simpl. f_equal. lia.
  - destruct (nth_error guessed s) as [g|] eqn:Eg.
    2:{ apply nth_error_None in Eg. lia. }
    destruct (nth_error truth s) as [t|] eqn:Et.
    2:{ apply nth_error_None in Et. lia. }
    unfold getitem. rewrite Eg, Et. simpl.
    rewrite IH by lia.
    rewrite (skipn_nth_error _ _ Eg), (skipn_nth_error _ _ Et). simpl.
    f_equal. lia.
Qed.

(** C3, as the claim states it, fails: on an empty predicted sequence [score]
    divides 0 by 0 and raises; it returns no number, and so not 0. *)
Lemma score_empty_raises :
  score [] [] = Raise ZeroDivisionError /\
  ~ (exists q, score [] [] = Ok q /\ q == 0).
Proof.
  split.
  - reflexivity.
  - intros [q [H _]]. discriminate H.
Qed.

(** C3 (amended): [score] applied to an empty predicted sequence, with any
    true labels, raises ZeroDivisionError; for non-empty sequences of equal
    length it returns the number of positions [i] with
    [predicted[i] == trueLabels[i]] divided by the length. *)
Theorem score_fraction :
  (forall trueLabels, score [] trueLabels = Raise ZeroDivisionError) /\
  (forall predicted trueLabels,
      predicted <> [] ->
      length predicted = length trueLabels ->
      score predicted trueLabels
      = Ok (Qnat (agreements predicted trueLabels) / Qnat (length predicted))).
Proof.
  split.
  - intros t. reflexivity.
  - intros p t Hne Hlen. unfold score.
    rewrite (@score_loop_seq p t (length p) 0 0) by (simpl; lia).
    simpl. unfold py_div.
    destruct p as [|x p]; [congruence|]. reflexivity.
Qed.

Lemma score_fraction_witness :
  score [1; 0; 1; 1]%Z [1; 1; 1; 0]%Z = Ok (Qnat 2 / Qnat 4).
Proof.
  apply (proj2 score_fraction [1; 0; 1; 1]%Z [1; 1; 1; 0]%Z).
  - discriminate.
  - reflexivity.
Defined.

(** ** gini *)

Lemma py_sum_list_sum (l : list nat) : py_sum l = list_sum l.
Proof.
  induction l as [|x l IH]; [reflexivity|].
  rewrite py_sum_cons, IH. reflexivity.
Qed.

Lemma mapM_py_div (n : nat) (cs : list nat) :
  n <> 0%nat ->
  mapM (fun c => py_div c n) cs = Ok (map (fun c => Qnat c / Qnat n) cs).
Proof.
  intros Hn. induction cs as [|c cs IH]; simpl; [reflexivity|].
  unfold py_div at 1. destruct (Nat.eqb_spec n 0); [contradiction|].
  rewrite IH. reflexivity.
Qed.

Lemma gini_counts (d : dict) :
  (0 < lenDictValues d)%nat -> gini d = Ok (gini_val (counts d)).
Proof.
  intros H. unfold gini, gini_val, lenDictValues, counts in *.
  rewrite mapM_py_div by lia. reflexivity.
Qed.

Lemma gini_empty : gini [] = Ok 1.
Proof. reflexivity. Qed.

Lemma fsum_squares (N : Q) (cs : list nat) :
  ~ N == 0 ->
  py_fsum (map (fun i => i ^ 2) (map (fun c => Qnat c / N) cs))
  == Qnat (sumsq cs) / (N * N).
Proof.
  intros HN. induction cs as [|c cs IH].
  - unfold py_fsum, sumsq; simpl. unfold Qnat; simpl. field. exact HN.
  - simpl map. rewrite py_fsum_cons, IH.
    unfold sumsq; simpl. rewrite Qnat_plus, Qnat_mult.
    fold (sumsq cs). simpl. field. exact HN.
Qed.

Lemma sumsq_cons (c : nat) (cs : list nat) : sumsq (c :: cs) = (c * c + sumsq cs)%nat.
Proof. reflexivity. Qed.

Lemma sumsq_le_square (cs : list nat) :
  (sumsq cs <= list_sum cs * list_sum cs)%nat.
Proof.
  induction cs as [|c cs IH]; [cbv; lia|].
  rewrite sumsq_cons. change (list_sum (c :: cs)) with (c + list_sum cs)%nat.
  generalize dependent (list_sum cs). generalize (sumsq cs). intros q s IH. nia.
Qed.

Lemma positives_zero (cs : list nat) :
  positives cs = 0%nat -> list_sum cs = 0%nat.
Proof.
  unfold positives. induction cs as [|c cs IH]; simpl; [reflexivity|].
  destruct (Nat.ltb_spec 0 c); simpl; [discriminate|].
  intros H'. rewrite (IH H'). lia.
Qed.

(** Cauchy-Schwarz over the labels that are present. *)
Lemma square_le_positives_sumsq (cs : list nat) :
  (list_sum cs * list_sum cs <= positives cs * sumsq cs)%nat.
Proof.
  induction cs as [|c cs IH]; [cbv; lia|].
  rewrite sumsq_cons. unfold positives in *. simpl.
  destruct (Nat.ltb_spec 0 c) as [Hc|Hc]; simpl.
  - fold (positives cs) in *. 
    destruct (positives cs) as [|k] eqn:Ek.
    + fold (positives cs) in Ek. rewrite (positives_zero _ Ek). nia.
    + set (S' := list_sum cs) in *. set (Q' := sumsq cs) in *.
      assert (H2 : (2 * S' * c <= Q' + S k * (c * c))%nat).
      { assert (H3 : (2 * S' * (S k * c) <= S' * S' + (S k * c) * (S k * c))%nat).
        { assert (Hsq : forall a b : nat, (2 * a * b <= a * a + b * b)%nat).
          { intros a b. destruct (Nat.le_ge_cases a b) as [Hab|Hab].
            - replace b with (a + (b - a))%nat by lia. nia.
            - replace a with (b + (a - b))%nat by lia. nia. }
          apply Hsq. }
        nia. }
      nia.
  - assert (c = 0)%nat by lia. subst c. simpl. exact IH.
Qed.

Lemma positives_pos (cs : list nat) :
  (0 < list_sum cs)%nat -> (1 <= positives cs)%nat.
Proof.
  intros H. destruct (positives cs) eqn:E; [|lia].
  apply positives_zero in E. lia.
Qed.

Lemma gini_val_closed (cs : list nat) :
  (0 < py_sum cs)%nat ->
  gini_val cs == 1 - Qnat (sumsq cs) / (Qnat (py_sum cs) * Qnat (py_sum cs)).
Proof.
  intros H. unfold gini_val. rewrite fsum_squares; [reflexivity|].
  intros E. pose proof (Qnat_pos H) as P. rewrite E in P. apply (Qlt_irrefl 0 P).
Qed.

Lemma one_minus_bounds (x y : Q) :
  x <= 1 -> y <= x -> 0 <= 1 - x /\ 1 - x <= 1 - y.
Proof. intros H1 H2. split; lra. Qed.

(** C8: with exact arithmetic, the Gini impurity of a partition that holds at
    least one vector is returned (no division by zero) and lies between 0 and
    [1 - 1/k], where [k >= 1] counts the labels that hold at least one
    vector; with one such label it is 0. *)
Theorem gini_bounds (d : dict) :
  (0 < lenDictValues d)%nat ->
  exists g,
    gini d = Ok g /\
    (1 <= labels_present d)%nat /\
    0 <= g /\
    g <= 1 - 1 / Qnat (labels_present d) /\
    (labels_present d = 1%nat -> g == 0).
Proof.
  intros Hn. exists (gini_val (counts d)).
  split; [apply gini_counts; exact Hn|].
  unfold lenDictValues in Hn. fold (counts d) in Hn.
  change (labels_present d) with (positives (counts d)).
  set (cs := counts d) in *.
  assert (Hk : (1 <= positives cs)%nat).
  { apply positives_pos. rewrite <- py_sum_list_sum. exact Hn. }
  assert (HN : 0 < Qnat (py_sum cs)) by (apply Qnat_pos; exact Hn).
  assert (HNN : 0 < Qnat (py_sum cs) * Qnat (py_sum cs)).
  { apply Qmult_lt_0_compat; exact HN. }
  assert (HK : 0 < Qnat (positives cs)) by (apply Qnat_pos; lia).
  assert (Hup : Qnat (sumsq cs) <= Qnat (py_sum cs) * Qnat (py_sum cs)).
  { rewrite <- Qnat_mult. apply Qnat_le. rewrite py_sum_list_sum.
    apply sumsq_le_square. }
  assert (Hlow : Qnat (py_sum cs) * Qnat (py_sum cs)
                 <= Qnat (sumsq cs) * Qnat (positives cs)).
  { rewrite <- !Qnat_mult. apply Qnat_le. rewrite py_sum_list_sum.
    rewrite (Nat.mul_comm (sumsq cs)). apply square_le_positives_sumsq. }
  assert (Hfrac1 : Qnat (sumsq cs) / (Qnat (py_sum cs) * Qnat (py_sum cs)) <= 1).
  { apply Qle_shift_div_r; [exact HNN|]. rewrite Qmult_1_l. exact Hup. }
  assert (Hfrac2 : 1 / Qnat (positives cs)
                   <= Qnat (sumsq cs) / (Qnat (py_sum cs) * Qnat (py_sum cs))).
  { apply Qle_shift_div_l; [exact HNN|].
    apply Qle_shift_div_r with (c := Qnat (sumsq cs)) in Hlow; [|exact HK].
    assert (E : 1 / Qnat (positives cs) * (Qnat (py_sum cs) * Qnat (py_sum cs))
                == Qnat (py_sum cs) * Qnat (py_sum cs) / Qnat (positives cs)).
    { field. intros E. rewrite E in HK. apply (Qlt_irrefl 0 HK). }
    rewrite E. exact Hlow. }
  pose proof (one_minus_bounds Hfrac1 Hfrac2) as [Hlo Hhi].
  rewrite <- gini_val_closed in Hlo, Hhi by exact Hn.
  repeat split; try assumption.
  intros E1. rewrite E1 in Hhi.
  assert (E0 : 1 - 1 / Qnat 1 == 0) by reflexivity.
  rewrite E0 in Hhi. apply Qle_antisym; assumption.
Qed.

(** ** The random source *)

Lemma remove_at_perm {A} (j : nat) (pool : list A) (x : A) :
  nth_error pool j = Some x -> Permutation pool (x :: remove_at j pool).
Proof.
  revert pool; induction j as [|j IH]; intros [|y p] H; simpl in H; try discriminate.
  - inversion H; subst. reflexivity.
  - change (remove_at (S j) (y :: p)) with (y :: remove_at j p).
    rewrite (IH p H) at 1. apply perm_swap.
Qed.

Lemma randbelow_lt (n : nat) (r : rng) :
  (0 < n)%nat -> exists j, randbelow n r = Ok (j, fun i => r (S i)) /\ (j < n)%nat.
Proof.
  intros H. eexists; split; [reflexivity|]. apply Nat.mod_upper_bound. lia.
Qed.

Lemma rd_choice_in {A} (l : list A) (r : rng) :
  l <> [] -> exists x, rd_choice l r = Ok (x, fun i => r (S i)) /\ In x l.
Proof.
  intros Hne. destruct l as [|a l]; [congruence|].
  unfold rd_choice, mbind.
  destruct (@randbelow_lt (length (a :: l)) r) as [j [Ej Hj]]; [simpl; lia|].
  rewrite Ej. unfold lift, getitem.
  destruct (nth_error (a :: l) j) as [x|] eqn:E.
  - exists x. split; [reflexivity|]. eapply nth_error_In; eauto.
  - apply nth_error_None in E. lia.
Qed.

Lemma sample_loop_spec {A} (k : nat) (pool : list A) (r : rng) :
  (k <= length pool)%nat ->
  exists xs rest r',
    sample_loop k pool r = Ok (xs, r') /\
    length xs = k /\
    Permutation pool (xs ++ rest).
Proof.
  revert pool r; induction k as [|k IH]; intros pool r Hk.
  - exists [], pool, r. repeat split; reflexivity.
  - simpl. unfold mbind.
    destruct (@randbelow_lt (length pool) r) as [j [Ej Hj]]; [lia|].
    rewrite Ej. unfold lift at 1, getitem.
    destruct (nth_error pool j) as [x|] eqn:E.
    2:{ apply nth_error_None in E. lia. }
    pose proof (remove_at_perm _ _ E) as P.
    assert (Hlen : length (remove_at j pool) = (length pool - 1)%nat).
    { apply Permutation_length in P. simpl in P. lia. }
    destruct (IH (remove_at j pool) (fun i => r (S i))) as (xs & rest & r' & E' & L & P');
      [lia|].
    rewrite E'. exists (x :: xs), rest, r'. repeat split.
    + simpl. lia.
    + rewrite P, P'. reflexivity.
Qed.

Lemma rd_sample_spec {A} (population : list A) (k : nat) (r : rng) :
  (k <= length population)%nat ->
  exists xs rest r',
    rd_sample population k r = Ok (xs, r') /\
    length xs = k /\
    Permutation population (xs ++ rest).
Proof.
  intros Hk. unfold rd_sample.
  destruct (Nat.ltb_spec (length population) k); [lia|].
  apply sample_loop_spec. exact Hk.
Qed.

Lemma rd_sample_too_many {A} (population : list A) (k : nat) (r : rng) :
  (length population < k)%nat -> rd_sample population k r = Raise ValueError.
Proof.
  intros Hk. unfold rd_sample.
  destruct (Nat.ltb_spec (length population) k); [reflexivity|lia].
Qed.

Lemma rd_sample_one {A} (population : list A) (r : rng) :
  population <> [] ->
  exists x, rd_sample population 1 r = Ok ([x], fun i => r (S i)) /\ In x population.
Proof.
  intros Hne. destruct population as [|a l]; [congruence|].
  unfold rd_sample.
  destruct (Nat.ltb_spec (length (a :: l)) 1) as [H|_]; [simpl in H; lia|].
  cbn [sample_loop]. unfold mbind.
  destruct (@randbelow_lt (length (a :: l)) r) as [j [Ej Hj]]; [simpl; lia|].
  rewrite Ej. unfold lift, getitem.
  destruct (nth_error (a :: l) j) as [x|] eqn:E.
  - exists x. split; [reflexivity|]. eapply nth_error_In; eauto.
  - apply nth_error_None in E. lia.
Qed.

(** ** sampleDict *)

Lemma lenDictValues_cons (k : label) (v : list vector) (d : dict) :
  lenDictValues ((k, v) :: d) = (length v + lenDictValues d)%nat.
Proof. unfold lenDictValues. simpl. apply py_sum_cons. Qed.

Lemma lenDictValues_flatten (d : dict) : lenDictValues d = length (flatten d).
Proof.
  induction d as [|[k v] d IH]; [reflexivity|].
  rewrite lenDictValues_cons, IH. unfold flatten; simpl.
  rewrite length_app, length_map. reflexivity.
Qed.

Lemma flatten_dd_append (k : label) (x : vector) (d : dict) :
  Permutation (flatten (dd_append k x d)) (flatten d ++ [(k, x)]).
Proof.
  induction d as [|[k' l] d IH]; simpl.
  - reflexivity.
  - destruct (Z.eqb_spec k k') as [->|Hne]; unfold flatten in *; simpl.
    + rewrite map_app. simpl. rewrite <- !app_assoc.
      apply Permutation_app_head. simpl.
      apply Permutation_cons_app. rewrite app_nil_r. reflexivity.
    + rewrite <- app_assoc. apply Permutation_app_head. exact IH.
Qed.

Lemma sampleDict_find_spec (i : nat) (items d : dict) (p : label * vector) :
  nth_error (flatten items) i = Some p ->
  sampleDict_find i items d = Ok (dd_append (fst p) (snd p) d).
Proof.
  revert i; induction items as [|[k v] items IH]; intros i H.
  - destruct i; discriminate H.
  - simpl. unfold flatten in H; simpl in H. fold (flatten items) in H.
    destruct (Nat.ltb_spec i (length v)) as [Hlt|Hge].
    + rewrite nth_error_app1 in H by (rewrite length_map; exact Hlt).
      rewrite nth_error_map in H. unfold getitem.
      destruct (nth_error v i) as [x|]; [|discriminate H].
      simpl in H. inversion H; subst. reflexivity.
    + rewrite nth_error_app2 in H by (rewrite length_map; exact Hge).
      rewrite length_map in H. apply IH. exact H.
Qed.

Lemma sampleDict_loop_spec (idx : list nat) (dic d : dict) :
  Forall (fun i => (i < lenDictValues dic)%nat) idx ->
  exists d' picked,
    sampleDict_loop idx dic d = Ok d' /\
    Forall2 (fun i p => nth_error (flatten dic) i = Some p) idx picked /\
    Permutation (flatten d') (flatten d ++ picked).
Proof.
  revert d; induction idx as [|i idx IH]; intros d H.
  - exists d, []. repeat split; [constructor| rewrite app_nil_r; reflexivity].
  - inversion H as [|? ? Hi Hrest]; subst.
    rewrite lenDictValues_flatten in Hi.
    destruct (nth_error (flatten dic) i) as [p|] eqn:E.
    2:{ apply nth_error_None in E. lia. }
    simpl. rewrite (sampleDict_find_spec _ _ d E). simpl.
    destruct (IH (dd_append (fst p) (snd p) d) Hrest) as (d' & picked & E' & F & P).
    exists d', (p :: picked). repeat split; [exact E'|constructor; assumption|].
    rewrite P, flatten_dd_append. destruct p; simpl.
    rewrite <- app_assoc. reflexivity.
Qed.

(** C9: when [sample_size] is at most the number [n] of vectors, [sampleDict]
    returns a partition rebuilt from [sample_size] pairwise distinct flat
    positions [idx] of the dataset: its labelled vectors are, up to order,
    the labelled vectors [picked] found at those positions, so it holds
    exactly [sample_size] vectors, each under the label it had; when
    [sample_size] exceeds [n] the call raises ValueError. *)
Theorem sampleDict_spec (dic : dict) (sample_size : nat) (r : rng) :
  ((sample_size <= lenDictValues dic)%nat ->
   exists d r' idx picked,
     sampleDict dic sample_size r = Ok (d, r') /\
     length idx = sample_size /\
     NoDup idx /\
     Forall2 (fun i p => nth_error (flatten dic) i = Some p) idx picked /\
     Permutation (flatten d) picked /\
     lenDictValues d = sample_size) /\
  ((lenDictValues dic < sample_size)%nat ->
   sampleDict dic sample_size r = Raise ValueError).
Proof.
  split.
  - intros Hk. unfold sampleDict, mbind.
    destruct (@rd_sample_spec _ (seq 0 (lenDictValues dic)) sample_size r)
      as (idx & rest & r' & E & L & P); [rewrite length_seq; exact Hk|].
    rewrite E.
    assert (Hnd : NoDup idx).
    { pose proof (seq_NoDup (lenDictValues dic) 0) as N.
      rewrite P in N. apply NoDup_app_remove_r in N. exact N. }
    assert (Hin : Forall (fun i => (i < lenDictValues dic)%nat) idx).
    { apply Forall_forall. intros i Hi.
      assert (In i (seq 0 (lenDictValues dic))).
      { eapply Permutation_in; [symmetry; exact P|]. apply in_or_app. now left. }
      apply in_seq in H. lia. }
    destruct (sampleDict_loop_spec dic [] Hin) as (d & picked & E' & F & P').
    unfold lift. rewrite E'. exists d, r', idx, picked.
    simpl in P'. repeat split; try assumption.
    rewrite lenDictValues_flatten, (Permutation_length P').
    rewrite <- (Forall2_length F). exact L.
  - intros Hk. unfold sampleDict, mbind.
    rewrite rd_sample_too_many; [reflexivity|]. rewrite length_seq. exact Hk.
Qed.

(** ** Well-formed datasets *)

Lemma distinct_NoDup (l : list label) : distinct l = true <-> NoDup l.
Proof.
  induction l as [|x l IH]; simpl.
  - split; [constructor|reflexivity].
  - rewrite andb_true_iff, negb_true_iff, IH. split.
    + intros [H1 H2]. constructor; [|exact H2].
      intros Hin. assert (existsb (Z.eqb x) l = true).
      { apply existsb_exists. exists x. split; [exact Hin|apply Z.eqb_refl]. }
      congruence.
    + intros H. inversion H as [|? ? Hn Hd]; subst. split; [|exact Hd].
      destruct (existsb (Z.eqb x) l) eqn:E; [|reflexivity].
      apply existsb_exists in E. destruct E as [y [Hy Exy]].
      apply Z.eqb_eq in Exy. subst y. contradiction.
Qed.

Lemma in_range_spec (features : list nat) (d : dict) :
  in_range features d = true <->
  (forall v, In v (concat (values d)) ->
             forall f, In f features -> (f < length v)%nat).
Proof.
  unfold in_range. rewrite forallb_forall. split.
  - intros H v Hv f Hf. specialize (H v Hv). rewrite forallb_forall in H.
    apply Nat.ltb_lt. apply H. exact Hf.
  - intros H v Hv. apply forallb_forall. intros f Hf. apply Nat.ltb_lt.
    apply (H v Hv f Hf).
Qed.

(** ** defaultdict updates *)

Lemma opt_entry_app_one (key : label) (x : list vector) (v : vector) :
  opt_entry key (x ++ [v]) = [(key, x ++ [v])].
Proof. destruct x; reflexivity. Qed.

Lemma dd_append_tail (key : label) (v : vector) (a : dict) (x : list vector) :
  ~ In key (keys a) ->
  dd_append key v (a ++ opt_entry key x) = a ++ opt_entry key (x ++ [v]).
Proof.
  intros Hn. rewrite opt_entry_app_one.
  induction a as [|[k l] a IH]; simpl.
  - destruct x as [|y x]; simpl; [reflexivity|].
    rewrite Z.eqb_refl. reflexivity.
  - simpl in Hn. destruct (Z.eqb_spec key k) as [->|Hne].
    + exfalso. apply Hn. now left.
    + f_equal. apply IH. intros H. apply Hn. now right.
Qed.

Lemma keys_app (a b : dict) : keys (a ++ b) = keys a ++ keys b.
Proof. unfold keys. apply map_app. Qed.

Lemma keys_opt_entry (key : label) (x : list vector) (k : label) :
  In k (keys (opt_entry key x)) -> k = key.
Proof. destruct x; simpl; intros H; [contradiction|]. destruct H; [auto|contradiction]. Qed.

(** ** generateCut *)

Lemma take_one (v : vector) (f : nat) (x : Q) :
  nth_error v f = Some x -> take v [f] = Ok [x].
Proof. intros H. unfold take, getitem; simpl. rewrite H. reflexivity. Qed.

Lemma below_at_least (f : nat) (t : Q) (v : vector) :
  (f < length v)%nat -> negb (below f t v) = at_least f t v.
Proof.
  intros H. unfold below, at_least, Qltb.
  destruct (nth_error v f) eqn:E.
  - apply negb_involutive.
  - apply nth_error_None in E. lia.
Qed.

Lemma split_line_closed (key : label) (f : nat) (t : Q) (l : list vector) :
  forall (x1 x2 : list vector) (a1 a2 : dict),
    ~ In key (keys a1) -> ~ In key (keys a2) ->
    (forall v, In v l -> (f < length v)%nat) ->
    split_line key l [f] t (a1 ++ opt_entry key x1, a2 ++ opt_entry key x2)
    = Ok (a1 ++ opt_entry key (x1 ++ filter (below f t) l),
          a2 ++ opt_entry key (x2 ++ filter (at_least f t) l)).
Proof.
  induction l as [|v l IH]; intros x1 x2 a1 a2 H1 H2 Hr.
  - simpl. rewrite !app_nil_r. reflexivity.
  - assert (Hv : (f < length v)%nat) by (apply Hr; now left).
    destruct (nth_error v f) as [x|] eqn:E.
    2:{ apply nth_error_None in E. lia. }
    cbn [split_line]. rewrite (take_one _ _ E). cbn [rbind item fst snd].
    cbn [filter]. rewrite <- (@below_at_least f t v Hv).
    assert (Hb : below f t v = Qltb x t) by (unfold below; rewrite E; reflexivity).
    rewrite Hb.
    destruct (Qltb x t); cbn [negb].
    + rewrite dd_append_tail by exact H1.
      rewrite IH; auto.
      * rewrite <- app_assoc. reflexivity.
      * intros w Hw. apply Hr. now right.
    + rewrite dd_append_tail by exact H2.
      rewrite IH; auto.
      * rewrite <- app_assoc. reflexivity.
      * intros w Hw. apply Hr. now right.
Qed.

Lemma split_items_closed (f : nat) (t : Q) (items : dict) :
  forall (a1 a2 : dict),
    NoDup (keys items) ->
    (forall k, In k (keys items) -> ~ In k (keys a1) /\ ~ In k (keys a2)) ->
    (forall v, In v (concat (values items)) -> (f < length v)%nat) ->
    split_items items [f] t (a1, a2)
    = Ok (a1 ++ side (below f t) items, a2 ++ side (at_least f t) items).
Proof.
  induction items as [|[key l] items IH]; intros a1 a2 Hnd Hfresh Hr.
  - simpl. rewrite !app_nil_r. reflexivity.
  - cbn [split_items].
    destruct (Hfresh key) as [F1 F2]; [now left|].
    assert (E : split_line key l [f] t (a1, a2)
                = Ok (a1 ++ opt_entry key (filter (below f t) l),
                      a2 ++ opt_entry key (filter (at_least f t) l))).
    { pose proof (@split_line_closed key f t l [] [] a1 a2 F1 F2) as E.
      cbn [opt_entry app] in E. rewrite !app_nil_r in E. apply E.
      intros v Hv. apply Hr. simpl. apply in_or_app. now left. }
    rewrite E. cbn [rbind]. inversion Hnd as [|? ? Hnk Hnd']; subst.
    rewrite IH.
    + unfold side. cbn [flat_map fst snd]. rewrite <- !app_assoc. reflexivity.
    + exact Hnd'.
    + intros k Hk. destruct (Hfresh k) as [G1 G2]; [now right|].
      rewrite !keys_app. split; intros Hin; apply in_app_or in Hin;
        destruct Hin as [Hin|Hin]; try contradiction;
        apply keys_opt_entry in Hin; subst k; contradiction.
    + intros v Hv. apply Hr. simpl. apply in_or_app. now right.
Qed.

Lemma mapM_take_one (f : nat) (points : list vector) :
  (forall v, In v points -> (f < length v)%nat) ->
  mapM (fun v => take v [f]) points = Ok (map (fun v => [nth f v 0]) points).
Proof.
  induction points as [|v points IH]; intros H; [reflexivity|].
  cbn [mapM map].
  rewrite (@take_one v f (nth f v 0)).
  - rewrite IH; [reflexivity|]. intros w Hw. apply H. now right.
  - apply nth_error_nth'. apply H. now left.
Qed.

Lemma values_nonempty (d : dict) :
  (0 < lenDictValues d)%nat -> Nat.eqb (length (values d)) 0 = false.
Proof.
  destruct d; [intros H; cbv in H; lia|reflexivity].
Qed.

Lemma concat_values_nonempty (d : dict) :
  (0 < lenDictValues d)%nat -> concat (values d) <> [].
Proof.
  intros H E. rewrite lenDictValues_flatten in H.
  assert (L : length (flatten d) = length (concat (values d))).
  { clear. induction d as [|[k l] d IH]; [reflexivity|].
    unfold flatten in *; simpl. rewrite !length_app, length_map, IH. reflexivity. }
  rewrite L, E in H. simpl in H. lia.
Qed.

(** What a candidate cut is, for a well-formed non-empty dataset: the two
    sides of one question, whose threshold is the value of the chosen feature
    in one vector of the dataset.  A cut consumes two raw draws. *)
Lemma generateCut_closed (node : Node) (features : list nat) (r : rng) :
  features <> [] ->
  NoDup (keys (data node)) ->
  (forall v, In v (concat (values (data node))) ->
             forall f, In f features -> (f < length v)%nat) ->
  (0 < lenDictValues (data node))%nat ->
  exists f t v,
    generateCut node features r
    = Ok ((side (below f t) (data node), side (at_least f t) (data node), [f], t),
          fun i => r (S (S i))) /\
    In f features /\ In v (concat (values (data node))) /\ nth_error v f = Some t.
Proof.
  intros Hf Hnd Hr Hn. unfold generateCut, mbind at 1.
  destruct (rd_sample_one r Hf) as [f [Ef Hin]]. rewrite Ef.
  rewrite (values_nonempty _ Hn). cbn [negb].
  assert (Hrf : forall v, In v (concat (values (data node))) -> (f < length v)%nat).
  { intros v Hv. apply (Hr v Hv f Hin). }
  unfold mbind at 1. unfold lift at 1. rewrite (mapM_take_one _ Hrf).
  unfold mbind at 1.
  destruct (@rd_choice_in _ (map (fun v => [nth f v 0]) (concat (values (data node))))
                          (fun i => r (S i))) as [a [Ea Ha]].
  { intros E. apply map_eq_nil in E. revert E. apply concat_values_nonempty. exact Hn. }
  rewrite Ea. apply in_map_iff in Ha. destruct Ha as [v [Eav Hv]]. subst a.
  unfold mbind at 1. unfold lift at 1. cbn [to_float].
  unfold mbind, lift.
  assert (E : split_items (data node) [f] (nth f v 0) ([], [])
              = Ok (side (below f (nth f v 0)) (data node),
                    side (at_least f (nth f v 0)) (data node))).
  { apply (@split_items_closed f (nth f v 0) (data node) [] [] Hnd).
    - intros k _. split; intros H; exact H.
    - exact Hrf. }
  rewrite E. cbn [fst snd]. unfold ret. exists f, (nth f v 0), v.
  repeat split; try assumption.
  apply nth_error_nth'. apply Hrf. exact Hv.
Qed.

Lemma generateCut_empty (node : Node) (features : list nat) (r : rng) :
  features <> [] ->
  data node = [] ->
  exists f,
    generateCut node features r = Ok (([], [], [f], 0), fun i => r (S i)) /\
    In f features.
Proof.
  intros Hf Hd. unfold generateCut, mbind.
  destruct (rd_sample_one r Hf) as [f [Ef Hin]]. rewrite Ef, Hd.
  exists f. split; [reflexivity|exact Hin].
Qed.

(** A dictionary that has labels but no vector is neither of the two cases
    above: there is nothing to choose a threshold from, and Gini divides by
    a zero total. *)
Lemma no_vector_points (d : dict) :
  lenDictValues d = 0%nat -> concat (values d) = [].
Proof.
  induction d as [|[k l] d IH]; intros H; [reflexivity|].
  rewrite lenDictValues_cons in H. simpl.
  destruct l; [|simpl in H; lia]. simpl. apply IH. simpl in H. exact H.
Qed.

Lemma generateCut_no_vector (node : Node) (features : list nat) (r : rng) :
  features <> [] ->
  data node <> [] ->
  lenDictValues (data node) = 0%nat ->
  generateCut node features r = Raise IndexError.
Proof.
  intros Hf Hd Hn. unfold generateCut, mbind at 1.
  destruct (rd_sample_one r Hf) as [f [Ef _]]. rewrite Ef.
  assert (E : Nat.eqb (length (values (data node))) 0 = false).
  { destruct (data node); [congruence|reflexivity]. }
  rewrite E. cbn [negb]. rewrite (no_vector_points _ Hn).
  reflexivity.
Qed.

Lemma gini_no_vector (d : dict) :
  d <> [] -> lenDictValues d = 0%nat -> gini d = Raise ZeroDivisionError.
Proof.
  intros Hd Hn. unfold gini. unfold lenDictValues in Hn. rewrite Hn.
  destruct d as [|kl d]; [congruence|]. reflexivity.
Qed.

(** ** The sides of a cut *)

Lemma flatten_cons (k : label) (l : list vector) (d : dict) :
  flatten ((k, l) :: d) = map (pair k) l ++ flatten d.
Proof. reflexivity. Qed.

Lemma flatten_app (a b : dict) : flatten (a ++ b) = flatten a ++ flatten b.
Proof. unfold flatten. apply flat_map_app. Qed.

Lemma flatten_opt_entry (k : label) (l : list vector) :
  flatten (opt_entry k l) = map (pair k) l.
Proof. destruct l; [reflexivity|]. unfold flatten; simpl. now rewrite app_nil_r. Qed.

Lemma side_cons (P : vector -> bool) (k : label) (l : list vector) (d : dict) :
  side P ((k, l) :: d) = opt_entry k (filter P l) ++ side P d.
Proof. reflexivity. Qed.

Lemma filter_map_pair (P : vector -> bool) (k : label) (l : list vector) :
  filter (fun kv : label * vector => P (snd kv)) (map (pair k) l)
  = map (pair k) (filter P l).
Proof.
  induction l as [|v l IH]; [reflexivity|]. simpl.
  destruct (P v); simpl; now rewrite IH.
Qed.

Lemma flatten_side (P : vector -> bool) (d : dict) :
  flatten (side P d) = filter (fun kv => P (snd kv)) (flatten d).
Proof.
  induction d as [|[k l] d IH]; [reflexivity|].
  rewrite side_cons, flatten_app, flatten_opt_entry, flatten_cons.
  rewrite filter_app, filter_map_pair, IH. reflexivity.
Qed.

Lemma keys_side_in (P : vector -> bool) (d : dict) (k : label) :
  In k (keys (side P d)) -> In k (keys d).
Proof.
  induction d as [|[k' l] d IH]; [auto|].
  rewrite side_cons, keys_app. intros H. apply in_app_or in H.
  destruct H as [H|H].
  - apply keys_opt_entry in H. subst. now left.
  - right. apply IH. exact H.
Qed.

Lemma side_NoDup (P : vector -> bool) (d : dict) :
  NoDup (keys d) -> NoDup (keys (side P d)).
Proof.
  induction d as [|[k l] d IH]; intros H; [constructor|].
  inversion H as [|? ? Hn Hd]; subst.
  rewrite side_cons. destruct (filter P l) as [|v l']; simpl.
  - apply IH. exact Hd.
  - constructor; [|apply IH; exact Hd].
    intros Hin. apply Hn. eapply keys_side_in. exact Hin.
Qed.

Lemma side_values_in (P : vector -> bool) (d : dict) (v : vector) :
  In v (concat (values (side P d))) -> In v (concat (values d)).
Proof.
  induction d as [|[k l] d IH]; [auto|].
  rewrite side_cons. unfold values in *. rewrite map_app, concat_app.
  intros H. apply in_app_or in H. simpl. apply in_or_app.
  destruct H as [H|H].
  - left. assert (E : concat (map snd (opt_entry k (filter P l))) = filter P l).
    { destruct (filter P l); [reflexivity|]. simpl. now rewrite app_nil_r. }
    cbn [fst snd] in H. rewrite E in H. apply filter_In in H. tauto.
  - right. apply IH. exact H.
Qed.

Lemma side_no_empty (P : vector -> bool) (d : dict) :
  Forall (fun kl => snd kl <> []) (side P d).
Proof.
  induction d as [|[k l] d IH]; [constructor|].
  rewrite side_cons. apply Forall_app. split; [|exact IH].
  destruct (filter P l); constructor; [simpl; discriminate|constructor].
Qed.

Lemma no_empty_len (d : dict) :
  Forall (fun kl => snd kl <> []) d ->
  Nat.eqb (length d) 0 = false -> (0 < lenDictValues d)%nat.
Proof.
  intros H E. destruct d as [|[k l] d]; [discriminate|].
  inversion H as [|? ? Hl _]; subst. rewrite lenDictValues_cons.
  destruct l; [simpl in Hl; congruence|simpl; lia].
Qed.

Lemma filter_split_length {A} (P Q' : A -> bool) (l : list A) :
  (forall x, In x l -> Q' x = negb (P x)) ->
  (length (filter P l) + length (filter Q' l) = length l)%nat.
Proof.
  induction l as [|x l IH]; intros H; [reflexivity|]. simpl.
  rewrite (H x) by now left.
  assert (IH' := IH (fun y Hy => H y (or_intror Hy))).
  destruct (P x); simpl; lia.
Qed.

Lemma side_sizes (f : nat) (t : Q) (d : dict) :
  (forall v, In v (concat (values d)) -> (f < length v)%nat) ->
  (lenDictValues (side (below f t) d) + lenDictValues (side (at_least f t) d)
   = lenDictValues d)%nat.
Proof.
  intros Hr. rewrite !lenDictValues_flatten, !flatten_side.
  apply filter_split_length. intros [k v] Hin. simpl.
  symmetry. apply below_at_least. apply Hr.
  clear - Hin. induction d as [|[k' l] d IH]; [contradiction|].
  rewrite flatten_cons in Hin. simpl. apply in_or_app.
  apply in_app_or in Hin. destruct Hin as [H|H].
  - left. apply in_map_iff in H. destruct H as [w [E Hw]]. now inversion E; subst.
  - right. apply IH. exact H.
Qed.


Lemma in_flatten_concat_values (d : dict) (v : vector) :
  In v (concat (values d)) -> exists k, In (k, v) (flatten d).
Proof.
  induction d as [|[k' l] d IH]; [contradiction|].
  rewrite flatten_cons. simpl. intros H. apply in_app_or in H.
  destruct H as [H|H].
  - exists k'. apply in_or_app. left. apply in_map. exact H.
  - destruct (IH H) as [k Hk]. exists k. apply in_or_app. now right.
Qed.

(** C4, as the claim states it, fails for one kind of empty partition: a
    dictionary that has a label but no vector.  The guard of [generateCut]
    counts labels ([len(values) != 0]), so the code goes on to
    [rd.choice] over an empty list of points, which raises IndexError;
    nothing is returned, and so not two empty dictionaries and threshold 0. *)
Lemma generateCut_empty_lists_raise :
  flatten [(3%Z, [])] = [] /\
  lenDictValues [(3%Z, [])] = 0%nat /\
  generateCut (newNode [(3%Z, [])]) example_features example_draws
  = Raise IndexError /\
  ~ (exists f r',
        generateCut (newNode [(3%Z, [])]) example_features example_draws
        = Ok (([], [], [f], 0), r')).
Proof.
  split; [reflexivity|]. split; [reflexivity|]. split.
  - reflexivity.
  - intros (f & r' & H). discriminate H.
Qed.

(** C4 (amended): on a dataset that holds at least one vector (distinct
    keys, every vector long enough for the allowed features) and a non-empty
    list of allowed features, [generateCut] returns a feature [f] of the list
    and a threshold [t] that is the value of feature [f] in one vector [s] of
    the dataset; the labelled vectors of the left part are exactly those of
    the dataset with value [< t], those of the right part exactly those with
    value [>= t], in the order and under the labels of the dataset, and [s]
    is in the right part.  On the dictionary without labels it returns two
    empty dictionaries and threshold 0.  On a dictionary that has labels but
    no vector it raises IndexError. *)
Theorem generateCut_spec (node : Node) (features : list nat) (r : rng) :
  features <> [] ->
  (distinct (keys (data node)) = true ->
   in_range features (data node) = true ->
   (0 < lenDictValues (data node))%nat ->
   exists f t s c1 c2 r',
     generateCut node features r = Ok ((c1, c2, [f], t), r') /\
     In f features /\
     In s (flatten (data node)) /\ nth_error (snd s) f = Some t /\
     flatten c1 = filter (fun kv => below f t (snd kv)) (flatten (data node)) /\
     flatten c2 = filter (fun kv => at_least f t (snd kv)) (flatten (data node)) /\
     In s (flatten c2)) /\
  (data node = [] ->
   exists f r',
     generateCut node features r = Ok (([], [], [f], 0), r') /\ In f features) /\
  (data node <> [] -> lenDictValues (data node) = 0%nat ->
   generateCut node features r = Raise IndexError).
Proof.
  intros Hf. split; [|split].
  - intros Hd Hr Hn. apply distinct_NoDup in Hd.
    rewrite in_range_spec in Hr.
    destruct (generateCut_closed node r Hf Hd Hr Hn) as (f & t & v & E & Hin & Hv & Et).
    destruct (in_flatten_concat_values _ _ Hv) as [k Hk].
    exists f, t, (k, v), (side (below f t) (data node)),
      (side (at_least f t) (data node)), (fun i => r (S (S i))).
    repeat split; try assumption.
    + apply flatten_side.
    + apply flatten_side.
    + rewrite flatten_side. apply filter_In. split; [exact Hk|].
      simpl. unfold at_least. rewrite Et.
      apply Qle_bool_iff. apply Qle_refl.
  - intros Hd. destruct (generateCut_empty node r Hf Hd) as [f [E Hin]].
    exists f, (fun i => r (S i)). split; assumption.
  - intros Hd Hn. apply generateCut_no_vector; assumption.
Qed.

(** ** infoGain *)

Lemma gini_ok (d : dict) :
  d = [] \/ (0 < lenDictValues d)%nat -> exists g, gini d = Ok g.
Proof.
  intros [->|H].
  - exists 1. reflexivity.
  - eexists. apply gini_counts. exact H.
Qed.

Lemma side_gini_ok (P : vector -> bool) (d : dict) :
  exists g, gini (side P d) = Ok g.
Proof.
  apply gini_ok. destruct (side P d) eqn:E; [now left|right].
  rewrite <- E. apply no_empty_len; [apply side_no_empty|]. now rewrite E.
Qed.

Lemma infoGain_ok (c c1 c2 : dict) :
  (0 < lenDictValues c)%nat ->
  (exists g1, gini c1 = Ok g1) -> (exists g2, gini c2 = Ok g2) ->
  exists g, infoGain c c1 c2 = Ok g.
Proof.
  intros Hn [g1 E1] [g2 E2]. unfold infoGain, py_div.
  destruct (Nat.eqb_spec (lenDictValues c) 0); [lia|].
  cbn [rbind]. rewrite (gini_counts _ Hn), E1, E2. cbn [rbind].
  eexists. reflexivity.
Qed.

Lemma infoGain_side_ok (d : dict) (P P' : vector -> bool) :
  (0 < lenDictValues d)%nat ->
  exists g, infoGain d (side P d) (side P' d) = Ok g.
Proof. intros H. apply infoGain_ok; [exact H| |]; apply side_gini_ok. Qed.

(** *** A cut with an empty side gains nothing *)

Lemma side_empty_false (P : vector -> bool) (d : dict) :
  side P d = [] -> forall v, In v (concat (values d)) -> P v = false.
Proof.
  induction d as [|[k l] d IH]; intros E v Hv; [contradiction|].
  rewrite side_cons in E. apply app_eq_nil in E. destruct E as [E1 E2].
  simpl in Hv. apply in_app_or in Hv. destruct Hv as [Hv|Hv].
  - assert (Hf : filter P l = []) by (destruct (filter P l); [reflexivity|discriminate]).
    destruct (P v) eqn:Pv; [|reflexivity].
    assert (In v (filter P l)) by (apply filter_In; split; assumption).
    rewrite Hf in H. contradiction.
  - apply IH; assumption.
Qed.

Lemma filter_all_true {A} (P : A -> bool) (l : list A) :
  (forall x, In x l -> P x = true) -> filter P l = l.
Proof.
  induction l as [|x l IH]; intros H; [reflexivity|]. simpl.
  rewrite (H x) by now left. f_equal. apply IH. intros y Hy. apply H. now right.
Qed.

Lemma counts_side_all (P : vector -> bool) (d : dict) :
  (forall v, In v (concat (values d)) -> P v = true) ->
  counts (side P d) = filter (fun c => Nat.ltb 0 c) (counts d).
Proof.
  induction d as [|[k l] d IH]; intros H; [reflexivity|].
  rewrite side_cons. unfold counts, values in *. rewrite !map_app.
  rewrite IH by (intros v Hv; apply H; simpl; apply in_or_app; now right).
  rewrite filter_all_true by (intros v Hv; apply H; simpl; apply in_or_app; now left).
  destruct l; reflexivity.
Qed.

Lemma py_sum_filter_pos (cs : list nat) :
  py_sum (filter (fun c => Nat.ltb 0 c) cs) = py_sum cs.
Proof.
  induction cs as [|c cs IH]; [reflexivity|]. simpl.
  destruct (Nat.ltb_spec 0 c).
  - rewrite !py_sum_cons, IH. reflexivity.
  - rewrite py_sum_cons, IH. lia.
Qed.

Lemma sumsq_filter_pos (cs : list nat) :
  sumsq (filter (fun c => Nat.ltb 0 c) cs) = sumsq cs.
Proof.
  induction cs as [|c cs IH]; [reflexivity|]. simpl.
  destruct (Nat.ltb_spec 0 c).
  - rewrite !sumsq_cons, IH. reflexivity.
  - rewrite sumsq_cons, IH. nia.
Qed.

Lemma gini_val_filter_pos (cs : list nat) :
  (0 < py_sum cs)%nat ->
  gini_val (filter (fun c => Nat.ltb 0 c) cs) == gini_val cs.
Proof.
  intros H. rewrite !gini_val_closed.
  - rewrite py_sum_filter_pos, sumsq_filter_pos. reflexivity.
  - exact H.
  - rewrite py_sum_filter_pos. exact H.
Qed.

Lemma Qnat_div_same (n : nat) : (0 < n)%nat -> Qnat n / Qnat n == 1.
Proof.
  intros H. field. intros E. pose proof (Qnat_pos H) as P.
  rewrite E in P. apply (Qlt_irrefl 0 P).
Qed.

Lemma Qnat_zero_div (n : nat) : Qnat 0 / Qnat n == 0.
Proof. unfold Qdiv. change (Qnat 0) with 0. ring. Qed.

(** The gain of a cut whose left side is empty, and of one whose right side
    is empty: the other side has the label counts of the whole dataset. *)
Lemma gain_empty_left (f : nat) (t : Q) (d : dict) :
  (0 < lenDictValues d)%nat ->
  (forall v, In v (concat (values d)) -> (f < length v)%nat) ->
  side (below f t) d = [] ->
  exists g, infoGain d (side (below f t) d) (side (at_least f t) d) = Ok g /\ g == 0.
Proof.
  intros Hn Hr E.
  assert (Hall : forall v, In v (concat (values d)) -> at_least f t v = true).
  { intros v Hv. rewrite <- below_at_least by (apply Hr; exact Hv).
    rewrite (side_empty_false _ _ E v Hv). reflexivity. }
  pose proof (side_sizes t d Hr) as Hs. rewrite E in Hs.
  change (lenDictValues []) with 0%nat in Hs. simpl in Hs.
  rewrite E. unfold infoGain, py_div.
  destruct (Nat.eqb_spec (lenDictValues d) 0); [lia|].
  cbn [rbind]. rewrite (gini_counts _ Hn), gini_empty. cbn [rbind].
  rewrite gini_counts by lia. cbn [rbind].
  eexists. split; [reflexivity|].
  rewrite (counts_side_all _ _ Hall).
  rewrite gini_val_filter_pos by exact Hn.
  change (lenDictValues []) with 0%nat. rewrite Qnat_zero_div. ring.
Qed.

Lemma gain_empty_right (f : nat) (t : Q) (d : dict) :
  (0 < lenDictValues d)%nat ->
  (forall v, In v (concat (values d)) -> (f < length v)%nat) ->
  side (at_least f t) d = [] ->
  exists g, infoGain d (side (below f t) d) (side (at_least f t) d) = Ok g /\ g == 0.
Proof.
  intros Hn Hr E.
  assert (Hall : forall v, In v (concat (values d)) -> below f t v = true).
  { intros v Hv. pose proof (side_empty_false _ _ E v Hv) as F.
    rewrite <- below_at_least in F by (apply Hr; exact Hv).
    destruct (below f t v); [reflexivity|discriminate]. }
  pose proof (side_sizes t d Hr) as Hs. rewrite E in Hs.
  change (lenDictValues []) with 0%nat in Hs. rewrite Nat.add_0_r in Hs.
  rewrite E. unfold infoGain, py_div.
  destruct (Nat.eqb_spec (lenDictValues d) 0); [lia|].
  cbn [rbind]. rewrite (gini_counts _ Hn). cbn [rbind].
  rewrite gini_counts by lia. cbn [rbind]. rewrite gini_empty. cbn [rbind].
  eexists. split; [reflexivity|].
  rewrite (counts_side_all _ _ Hall).
  rewrite gini_val_filter_pos by exact Hn.
  rewrite Hs, Qnat_div_same by exact Hn. ring.
Qed.

(** ** bestCut *)

Lemma Qltb_true (a b : Q) : Qltb a b = true -> a < b.
Proof.
  unfold Qltb. intros H. apply negb_true_iff in H.
  apply Qnot_le_lt. intros L. apply Qle_bool_iff in L. congruence.
Qed.

Lemma Qltb_false (a b : Q) : Qltb a b = false -> b <= a.
Proof.
  unfold Qltb. intros H. apply negb_false_iff in H. apply Qle_bool_iff. exact H.
Qed.

Section BestCut.

Variable node : Node.
Variable features : list nat.

Hypothesis features_nonempty : features <> [].
Hypothesis keys_distinct : NoDup (keys (data node)).
Hypothesis features_valid :
  forall v, In v (concat (values (data node))) ->
            forall f, In f features -> (f < length v)%nat.
Hypothesis data_nonempty : (0 < lenDictValues (data node))%nat.

Lemma generateCut_is_cut (r : rng) :
  exists c, generateCut node features r = Ok (c, fun i => r (S (S i))) /\
            is_cut_of (data node) features c.
Proof.
  destruct (generateCut_closed node r features_nonempty keys_distinct
                               features_valid data_nonempty)
    as (f & t & v & E & Hin & _).
  eexists. split; [exact E|]. exists f, t. split; [reflexivity|exact Hin].
Qed.

Lemma is_cut_gain (c : cut) :
  is_cut_of (data node) features c -> exists g, gain_of (data node) c = Ok g.
Proof.
  intros (f & t & -> & _). simpl. apply infoGain_side_ok. exact data_nonempty.
Qed.

Lemma bestCut_loop_spec (n : nat) :
  forall (seen : list cut) (i : nat) (c : cut) (info : Q) (r : rng),
    seen <> [] ->
    wins (data node) seen i c info ->
    exists more r' i' c' info',
      draw_cuts n node features r = Ok (more, r') /\
      length more = n /\
      Forall (is_cut_of (data node) features) more /\
      bestCut_loop n node features
                   (info, fst (fst (fst c)), snd (fst (fst c)), snd (fst c), snd c) r
      = Ok ((info', fst (fst (fst c')), snd (fst (fst c')), snd (fst c'), snd c'), r') /\
      wins (data node) (seen ++ more) i' c' info'.
Proof.
  induction n as [|n IH]; intros seen i c info r Hne W.
  - exists [], r, i, c, info. rewrite app_nil_r.
    repeat split; try reflexivity; try constructor; apply W.
  - destruct (generateCut_is_cut r) as [x [Ex Hx]].
    assert (Hlen : (0 < length seen)%nat) by (destruct seen; [congruence|simpl; lia]).
    destruct W as (Wn & We & Wg & Wall).
    assert (Hi : (i < length seen)%nat).
    { apply nth_error_Some. congruence. }
    cbn [draw_cuts bestCut_loop]. unfold mbind at 1 3. rewrite Ex.
    destruct x as [[[x1 x2] xf] xt].
    destruct (is_cut_gain Hx) as [gx Egx]. simpl in Egx.
    (* the state with which the loop goes on *)
    assert (Next : exists i' c' info',
               wins (data node) (seen ++ [(x1, x2, xf, xt)]) i' c' info' /\
               forall r1,
                 (if Nat.eqb (length x1) 0 || Nat.eqb (length x2) 0
                  then bestCut_loop n node features
                         (info, fst (fst (fst c)), snd (fst (fst c)), snd (fst c), snd c)
                  else
                    (info0 <- lift (infoGain (data node) x1 x2) ;;
                     (if Qltb info info0
                      then bestCut_loop n node features (info0, x1, x2, xf, xt)
                      else bestCut_loop n node features
                             (info, fst (fst (fst c)), snd (fst (fst c)),
                               snd (fst c), snd c)))%rnd) r1
                 = bestCut_loop n node features
                     (info', fst (fst (fst c')), snd (fst (fst c')), snd (fst c'), snd c')
                     r1).
    { destruct (Nat.eqb (length x1) 0 || Nat.eqb (length x2) 0) eqn:Edeg.
      - exists i, c, info. split; [|reflexivity].
        split; [rewrite nth_error_app1 by exact Hi; exact Wn|].
        split; [exact We|]. split; [exact Wg|].
        intros j cj Hj Hel.
        destruct (Nat.lt_ge_cases j (length seen)) as [Hlt|Hge].
        + rewrite nth_error_app1 in Hj by exact Hlt. apply (Wall j cj Hj Hel).
        + rewrite nth_error_app2 in Hj by exact Hge.
          destruct (j - length seen)%nat as [|m] eqn:Em; simpl in Hj.
          * inversion Hj; subst cj. unfold eligible, degenerate in Hel.
            rewrite Edeg in Hel.
            destruct (Nat.eqb_spec j 0); [lia|discriminate Hel].
          * destruct m; discriminate Hj.
      - unfold mbind, lift. rewrite Egx.
        destruct (Qltb info gx) eqn:Elt.
        + exists (length seen), (x1, x2, xf, xt), gx. split; [|reflexivity].
          apply Qltb_true in Elt.
          split; [rewrite nth_error_app2, Nat.sub_diag by lia; reflexivity|].
          split; [unfold eligible, degenerate; rewrite Edeg; apply orb_true_r|].
          split; [exact Egx|].
          intros j cj Hj Hel.
          destruct (Nat.lt_ge_cases j (length seen)) as [Hlt|Hge].
          * rewrite nth_error_app1 in Hj by exact Hlt.
            destruct (Wall j cj Hj Hel) as (gj & Eg & Hle & _).
            exists gj. split; [exact Eg|].
            assert (gj < gx) by (eapply Qle_lt_trans; eassumption).
            split; [apply Qlt_le_weak; assumption|intros _; assumption].
          * rewrite nth_error_app2 in Hj by exact Hge.
            destruct (j - length seen)%nat as [|m] eqn:Em; simpl in Hj.
            -- inversion Hj; subst cj. exists gx.
               split; [exact Egx|]. split; [apply Qle_refl|lia].
            -- destruct m; discriminate Hj.
        + exists i, c, info. split; [|reflexivity].
          apply Qltb_false in Elt.
          split; [rewrite nth_error_app1 by exact Hi; exact Wn|].
          split; [exact We|]. split; [exact Wg|].
          intros j cj Hj Hel.
          destruct (Nat.lt_ge_cases j (length seen)) as [Hlt|Hge].
          * rewrite nth_error_app1 in Hj by exact Hlt. apply (Wall j cj Hj Hel).
          * rewrite nth_error_app2 in Hj by exact Hge.
            destruct (j - length seen)%nat as [|m] eqn:Em; simpl in Hj.
            -- inversion Hj; subst cj. exists gx.
               split; [exact Egx|]. split; [exact Elt|lia].
            -- destruct m; discriminate Hj. }
    destruct Next as (i1 & c1 & info1 & W1 & Estep).
    rewrite Estep.
    destruct (IH (seen ++ [(x1, x2, xf, xt)]) i1 c1 info1 (fun k => r (S (S k))))
      as (more & r' & i' & c' & info' & Ed & Hl & Hall & Eb & W').
    { intros E. apply app_eq_nil in E. destruct E; discriminate. }
    { exact W1. }
    unfold mbind. rewrite Ed, Eb. unfold ret.
    exists ((x1, x2, xf, xt) :: more), r', i', c', info'.
    split; [reflexivity|]. split; [simpl; lia|].
    split; [constructor; assumption|]. split; [reflexivity|].
    rewrite <- app_assoc in W'. exact W'.
Qed.

Lemma bestCut_closed (nb_cut : nat) (r : rng) :
  exists cands r' i c gain f,
    draw_cuts (S (nb_cut - 1)) node features r = Ok (cands, r') /\
    length cands = S (nb_cut - 1) /\
    Forall (is_cut_of (data node) features) cands /\
    wins (data node) cands i c gain /\
    snd (fst c) = [f] /\
    bestCut node nb_cut features r
    = Ok ((gain, fst (fst (fst c)), snd (fst (fst c)), (f, snd c)), r').
Proof.
  destruct (generateCut_is_cut r) as [x [Ex Hx]].
  destruct (is_cut_gain Hx) as [gx Egx].
  assert (W0 : wins (data node) [x] 0 x gx).
  { split; [reflexivity|]. split; [reflexivity|]. split; [exact Egx|].
    intros j cj Hj _. destruct j as [|j]; simpl in Hj.
    - inversion Hj; subst cj. exists gx. split; [exact Egx|].
      split; [apply Qle_refl|lia].
    - destruct j; discriminate Hj. }
  destruct (@bestCut_loop_spec (nb_cut - 1) [x] 0%nat x gx (fun k => r (S (S k))))
    as (more & r' & i' & c' & info' & Ed & Hl & Hall & Eb & W').
  { discriminate. }
  { exact W0. }
  assert (Hc' : is_cut_of (data node) features c').
  { destruct W' as (Wn & _). apply nth_error_In in Wn.
    assert (Hall' : Forall (is_cut_of (data node) features) ([x] ++ more)).
    { apply Forall_app. split; [constructor; [exact Hx|constructor]|exact Hall]. }
    rewrite Forall_forall in Hall'. apply Hall'. exact Wn. }
  destruct Hc' as (f & t & Ec' & Hin).
  exists (x :: more), r', i', c', info', f.
  split.
  { cbn [draw_cuts]. unfold mbind. rewrite Ex, Ed. reflexivity. }
  split; [simpl; lia|].
  split; [constructor; assumption|].
  split; [exact W'|].
  split; [subst c'; reflexivity|].
  unfold bestCut. unfold mbind at 1. rewrite Ex.
  destruct x as [[[x1 x2] xf] xt]. simpl in Egx.
  unfold mbind at 1. unfold lift at 1. rewrite Egx.
  unfold mbind at 1. cbn [fst snd] in Eb. rewrite Eb.
  subst c'. cbn [fst snd]. reflexivity.
Qed.

(** The cut [bestCut] returns is a cut of the dataset, and its first
    component is the gain of that cut. *)
Lemma bestCut_sides (nb_cut : nat) (r : rng) :
  exists gain f t r',
    bestCut node nb_cut features r
    = Ok ((gain, side (below f t) (data node), side (at_least f t) (data node),
           (f, t)), r') /\
    In f features /\
    infoGain (data node) (side (below f t) (data node))
             (side (at_least f t) (data node)) = Ok gain.
Proof.
  destruct (bestCut_closed nb_cut r)
    as (cands & r' & i & c & gain & f & _ & _ & Hall & W & Ef & Eb).
  destruct W as (Wn & _ & Wg & _).
  apply nth_error_In in Wn. rewrite Forall_forall in Hall.
  destruct (Hall c Wn) as (f' & t & Ec & Hin). subst c.
  cbn [fst snd] in *. inversion Ef; subst f'.
  exists gain, f, t, r'. repeat split; assumption.
Qed.

End BestCut.

(** *** The order of binary64

    [<] on floats is a strict order in which every two numbers compare;
    only a gain that is not a number compares with nothing. *)

Lemma SFcompare_refl (x : spec_float) :
  SFcompare x x = Some Eq \/ SFcompare x x = None.
Proof.
  destruct x as [s|s| |s m e]; simpl; auto.
  - destruct s; auto.
  - destruct s; rewrite Z.compare_refl, Pos.compare_cont_refl; auto.
Qed.

Lemma SFltb_irrefl (x : spec_float) : SFltb x x = false.
Proof. unfold SFltb. destruct (SFcompare_refl x) as [-> | ->]; reflexivity. Qed.

Ltac compare_cases :=
  repeat match goal with
  | |- context [Z.compare ?a ?b] => destruct (Z.compare_spec a b)
  | H : context [Z.compare ?a ?b] |- _ => destruct (Z.compare_spec a b)
  | |- context [Pos.compare_cont Eq ?a ?b] =>
      change (Pos.compare_cont Eq a b) with (Pos.compare a b);
      destruct (Pos.compare_spec a b)
  | H : context [Pos.compare_cont Eq ?a ?b] |- _ =>
      change (Pos.compare_cont Eq a b) with (Pos.compare a b) in H;
      destruct (Pos.compare_spec a b)
  end.

Lemma SFltb_trans (x y z : spec_float) :
  SFltb x y = true -> SFltb y z = true -> SFltb x z = true.
Proof.
  unfold SFltb.
  destruct x as [[]|[]| |[] mx ex], y as [[]|[]| |[] my ey],
           z as [[]|[]| |[] mz ez];
    simpl; try congruence; intros H1 H2; compare_cases; simpl in *; subst;
    try congruence; try lia.
Qed.

Lemma SFltb_between (x y z : spec_float) :
  y <> S754_nan -> SFltb x z = true -> SFltb x y = true \/ SFltb y z = true.
Proof.
  unfold SFltb.
  destruct x as [[]|[]| |[] mx ex], y as [[]|[]| |[] my ey],
           z as [[]|[]| |[] mz ez];
    simpl; try congruence; intros Hy H1; auto; compare_cases; simpl in *; subst;
    auto; try congruence; try lia.
Qed.

Lemma SFcompare_total (x y : spec_float) :
  x <> S754_nan -> y <> S754_nan ->
  SFltb y x = true \/ SFltb x y = true \/ SFeqb x y = true.
Proof.
  unfold SFltb, SFeqb.
  destruct x as [[]|[]| |[] mx ex], y as [[]|[]| |[] my ey];
    simpl; try congruence; intros _ _; auto; compare_cases; simpl; subst; auto;
    try lia.
Qed.

Lemma is_nan_false (x : float) : PrimFloat.is_nan x = false -> Prim2SF x <> S754_nan.
Proof.
  unfold PrimFloat.is_nan. rewrite FloatAxioms.eqb_spec. intros H E.
  rewrite E in H. discriminate H.
Qed.

Lemma gt_float_irrefl (a : float) : gt_float a a = false.
Proof. unfold gt_float. rewrite ltb_spec. apply SFltb_irrefl. Qed.

Lemma gt_float_trans (a b c : float) :
  gt_float a b = true -> gt_float b c = true -> gt_float a c = true.
Proof.
  unfold gt_float. rewrite !ltb_spec. intros H1 H2.
  eapply SFltb_trans; eassumption.
Qed.

Lemma gt_float_between (a b c : float) :
  PrimFloat.is_nan b = false -> gt_float a c = true ->
  gt_float a b = true \/ gt_float b c = true.
Proof.
  unfold gt_float. rewrite !ltb_spec. intros Hb H.
  destruct (@SFltb_between (Prim2SF c) (Prim2SF b) (Prim2SF a) (@is_nan_false b Hb) H);
    auto.
Qed.

(** *** [bestCut] is [bestCut_with] at the exact gain *)

Lemma bestCut_loop_with_exact (n : nat) (node : Node) (features : list nat) :
  forall b r,
    bestCut_loop_with infoGain (fun info best_info => Qltb best_info info)
                      n node features b r
    = bestCut_loop n node features b r.
Proof.
  induction n as [|n IH]; intros b r; [reflexivity|].
  cbn [bestCut_loop_with bestCut_loop]. unfold mbind at 1 3.
  destruct (generateCut node features r) as [[[[[c1 c2] rf] t] r1]|e]; [|reflexivity].
  destruct (Nat.eqb (length c1) 0 || Nat.eqb (length c2) 0); [apply IH|].
  unfold mbind, lift.
  destruct (infoGain (data node) c1 c2) as [info|e]; [|reflexivity].
  destruct b as [[[[best_info b1] b2] bf] bt].
  destruct (Qltb best_info info); apply IH.
Qed.

Lemma bestCut_with_exact (node : Node) (nb_cut : nat) (features : list nat) (r : rng) :
  bestCut_with infoGain (fun info best_info => Qltb best_info info)
               node nb_cut features r
  = bestCut node nb_cut features r.
Proof.
  unfold bestCut_with, bestCut. unfold mbind at 1 5.
  destruct (generateCut node features r) as [[[[[c1 c2] rf] t] r1]|e]; [|reflexivity].
  unfold mbind at 1 4. unfold lift at 1 3.
  destruct (infoGain (data node) c1 c2) as [info|e]; [|reflexivity].
  unfold mbind at 1 3. rewrite bestCut_loop_with_exact. reflexivity.
Qed.

(** *** The selection, whatever function computes the gain *)

Section BestCutFloat.

Variable gain : dict -> dict -> dict -> result float.
Variable node : Node.
Variable features : list nat.

Hypothesis features_nonempty : features <> [].
Hypothesis keys_distinct : NoDup (keys (data node)).
Hypothesis features_valid :
  forall v, In v (concat (values (data node))) ->
            forall f, In f features -> (f < length v)%nat.
Hypothesis data_nonempty : (0 < lenDictValues (data node))%nat.
Hypothesis gain_defined :
  forall f t, exists g,
      gain (data node) (side (below f t) (data node))
           (side (at_least f t) (data node)) = Ok g.

Lemma is_cut_gain_with (c : cut) :
  is_cut_of (data node) features c ->
  exists g, gain_of_with gain (data node) c = Ok g.
Proof. intros (f & t & -> & _). simpl. apply gain_defined. Qed.

Lemma wins_float_skip (seen : list cut) (i : nat) (c x : cut) (info : float) :
  wins_float gain (data node) seen i c info ->
  eligible (length seen) x = false ->
  wins_float gain (data node) (seen ++ [x]) i c info.
Proof.
  intros (Wn & We & Wg & Wall) Hx.
  assert (Hi : (i < length seen)%nat) by (apply nth_error_Some; congruence).
  split; [rewrite nth_error_app1 by exact Hi; exact Wn|].
  split; [exact We|]. split; [exact Wg|].
  intros j cj Hj Hel.
  destruct (Nat.lt_ge_cases j (length seen)) as [Hlt|Hge].
  - rewrite nth_error_app1 in Hj by exact Hlt. apply (Wall j cj Hj Hel).
  - rewrite nth_error_app2 in Hj by exact Hge.
    destruct (j - length seen)%nat as [|m] eqn:Em; simpl in Hj.
    + inversion Hj; subst cj. replace j with (length seen) in Hel by lia.
      congruence.
    + destruct m; discriminate Hj.
Qed.

Lemma wins_float_keep (seen : list cut) (i : nat) (c x : cut) (info gx : float) :
  wins_float gain (data node) seen i c info ->
  gain_of_with gain (data node) x = Ok gx ->
  gt_float gx info = false ->
  wins_float gain (data node) (seen ++ [x]) i c info.
Proof.
  intros (Wn & We & Wg & Wall) Egx Hgt.
  assert (Hi : (i < length seen)%nat) by (apply nth_error_Some; congruence).
  split; [rewrite nth_error_app1 by exact Hi; exact Wn|].
  split; [exact We|]. split; [exact Wg|].
  intros j cj Hj Hel.
  destruct (Nat.lt_ge_cases j (length seen)) as [Hlt|Hge].
  - rewrite nth_error_app1 in Hj by exact Hlt. apply (Wall j cj Hj Hel).
  - rewrite nth_error_app2 in Hj by exact Hge.
    destruct (j - length seen)%nat as [|m] eqn:Em; simpl in Hj.
    + inversion Hj; subst cj. exists gx.
      split; [exact Egx|]. split; [exact Hgt|lia].
    + destruct m; discriminate Hj.
Qed.

Lemma wins_float_replace (seen : list cut) (i : nat) (c x : cut) (info gx : float) :
  seen <> [] ->
  wins_float gain (data node) seen i c info ->
  degenerate x = false ->
  gain_of_with gain (data node) x = Ok gx ->
  gt_float gx info = true ->
  wins_float gain (data node) (seen ++ [x]) (length seen) x gx.
Proof.
  intros Hne (Wn & We & Wg & Wall) Hx Egx Hgt.
  split; [rewrite nth_error_app2, Nat.sub_diag by lia; reflexivity|].
  split; [unfold eligible; rewrite Hx; apply orb_true_r|].
  split; [exact Egx|].
  intros j cj Hj Hel.
  destruct (Nat.lt_ge_cases j (length seen)) as [Hlt|Hge].
  - rewrite nth_error_app1 in Hj by exact Hlt.
    destruct (Wall j cj Hj Hel) as (gj & Eg & Hno & _).
    exists gj. split; [exact Eg|]. split.
    + destruct (gt_float gj gx) eqn:E; [|reflexivity].
      rewrite (@gt_float_trans gj gx info E Hgt) in Hno. discriminate Hno.
    + intros _ Hnan.
      destruct (@gt_float_between gx gj info Hnan Hgt) as [H|H]; [exact H|].
      rewrite H in Hno. discriminate Hno.
  - rewrite nth_error_app2 in Hj by exact Hge.
    destruct (j - length seen)%nat as [|m] eqn:Em; simpl in Hj.
    + inversion Hj; subst cj. exists gx.
      split; [exact Egx|]. split; [apply gt_float_irrefl|lia].
    + destruct m; discriminate Hj.
Qed.

Lemma bestCut_loop_with_spec (n : nat) :
  forall (seen : list cut) (i : nat) (c : cut) (info : float) (r : rng),
    seen <> [] ->
    wins_float gain (data node) seen i c info ->
    exists more r' i' c' info',
      draw_cuts n node features r = Ok (more, r') /\
      length more = n /\
      Forall (is_cut_of (data node) features) more /\
      bestCut_loop_with gain gt_float n node features
                   (info, fst (fst (fst c)), snd (fst (fst c)), snd (fst c), snd c) r
      = Ok ((info', fst (fst (fst c')), snd (fst (fst c')), snd (fst c'), snd c'), r') /\
      wins_float gain (data node) (seen ++ more) i' c' info'.
Proof.
  induction n as [|n IH]; intros seen i c info r Hne W.
  - exists [], r, i, c, info. rewrite app_nil_r.
    repeat split; try reflexivity; try constructor; apply W.
  - destruct (@generateCut_is_cut node features features_nonempty keys_distinct
                                  features_valid data_nonempty r) as [x [Ex Hx]].
    cbn [draw_cuts bestCut_loop_with]. unfold mbind at 1 3. rewrite Ex.
    destruct (is_cut_gain_with Hx) as [gx Egx].
    destruct x as [[[x1 x2] xf] xt]. simpl in Egx.
    assert (Next : exists i' c' info',
               wins_float gain (data node) (seen ++ [(x1, x2, xf, xt)]) i' c' info' /\
               forall r1,
                 (if Nat.eqb (length x1) 0 || Nat.eqb (length x2) 0
                  then bestCut_loop_with gain gt_float n node features
                         (info, fst (fst (fst c)), snd (fst (fst c)), snd (fst c), snd c)
                  else
                    (info0 <- lift (gain (data node) x1 x2) ;;
                     (if gt_float info0 info
                      then bestCut_loop_with gain gt_float n node features
                             (info0, x1, x2, xf, xt)
                      else bestCut_loop_with gain gt_float n node features
                             (info, fst (fst (fst c)), snd (fst (fst c)),
                               snd (fst c), snd c)))%rnd) r1
                 = bestCut_loop_with gain gt_float n node features
                     (info', fst (fst (fst c')), snd (fst (fst c')), snd (fst c'), snd c')
                     r1).
    { destruct (Nat.eqb (length x1) 0 || Nat.eqb (length x2) 0) eqn:Edeg.
      - exists i, c, info. split; [|reflexivity].
        apply (@wins_float_skip seen i c (x1, x2, xf, xt) info W).
        unfold eligible, degenerate. rewrite Edeg.
        destruct seen; [congruence|reflexivity].
      - unfold mbind, lift. rewrite Egx.
        destruct (gt_float gx info) eqn:Egt.
        + exists (length seen), (x1, x2, xf, xt), gx. split; [|reflexivity].
          apply (@wins_float_replace seen i c (x1, x2, xf, xt) info gx Hne W Edeg Egx Egt).
        + exists i, c, info. split; [|reflexivity].
          apply (@wins_float_keep seen i c (x1, x2, xf, xt) info gx W Egx Egt). }
    destruct Next as (i1 & c1 & info1 & W1 & Estep).
    rewrite Estep.
    destruct (IH (seen ++ [(x1, x2, xf, xt)]) i1 c1 info1 (fun k => r (S (S k))))
      as (more & r' & i' & c' & info' & Ed & Hl & Hall & Eb & W').
    { intros E. apply app_eq_nil in E. destruct E; discriminate. }
    { exact W1. }
    unfold mbind. rewrite Ed, Eb. unfold ret.
    exists ((x1, x2, xf, xt) :: more), r', i', c', info'.
    split; [reflexivity|]. split; [simpl; lia|].
    split; [constructor; assumption|]. split; [reflexivity|].
    rewrite <- app_assoc in W'. exact W'.
Qed.

Lemma bestCut_with_closed (nb_cut : nat) (r : rng) :
  exists cands r' i c g f,
    draw_cuts (S (nb_cut - 1)) node features r = Ok (cands, r') /\
    length cands = S (nb_cut - 1) /\
    Forall (is_cut_of (data node) features) cands /\
    wins_float gain (data node) cands i c g /\
    snd (fst c) = [f] /\
    bestCut_with gain gt_float node nb_cut features r
    = Ok ((g, fst (fst (fst c)), snd (fst (fst c)), (f, snd c)), r').
Proof.
  destruct (@generateCut_is_cut node features features_nonempty keys_distinct
                                features_valid data_nonempty r) as [x [Ex Hx]].
  destruct (is_cut_gain_with Hx) as [gx Egx].
  assert (W0 : wins_float gain (data node) [x] 0 x gx).
  { split; [reflexivity|]. split; [reflexivity|]. split; [exact Egx|].
    intros j cj Hj _. destruct j as [|j]; simpl in Hj.
    - inversion Hj; subst cj. exists gx. split; [exact Egx|].
      split; [apply gt_float_irrefl|lia].
    - destruct j; discriminate Hj. }
  destruct (@bestCut_loop_with_spec (nb_cut - 1) [x] 0%nat x gx (fun k => r (S (S k))))
    as (more & r' & i' & c' & info' & Ed & Hl & Hall & Eb & W').
  { discriminate. }
  { exact W0. }
  assert (Hc' : is_cut_of (data node) features c').
  { destruct W' as (Wn & _). apply nth_error_In in Wn.
    assert (Hall' : Forall (is_cut_of (data node) features) ([x] ++ more)).
    { apply Forall_app. split; [constructor; [exact Hx|constructor]|exact Hall]. }
    rewrite Forall_forall in Hall'. apply Hall'. exact Wn. }
  destruct Hc' as (f & t & Ec' & Hin).
  exists (x :: more), r', i', c', info', f.
  split.
  { cbn [draw_cuts]. unfold mbind. rewrite Ex, Ed. reflexivity. }
  split; [simpl; lia|].
  split; [constructor; assumption|].
  split; [exact W'|].
  split; [subst c'; reflexivity|].
  unfold bestCut_with. unfold mbind at 1. rewrite Ex.
  destruct x as [[[x1 x2] xf] xt]. simpl in Egx.
  unfold mbind at 1. unfold lift at 1. rewrite Egx.
  unfold mbind at 1. cbn [fst snd] in Eb. rewrite Eb.
  subst c'. cbn [fst snd]. reflexivity.
Qed.

End BestCutFloat.

(** The binary64 gain is computed on every cut of a dataset that holds a
    vector: the only error of [infoGain] is a division by a zero count. *)
Lemma gini_float_ok (d : dict) :
  d = [] \/ (0 < lenDictValues d)%nat -> exists g, gini_float d = Ok g.
Proof.
  intros [->|H].
  - eexists. reflexivity.
  - unfold gini_float. unfold lenDictValues in H.
    set (n := py_sum (map (@length vector) (values d))) in *.
    assert (E : forall l, exists l',
                 mapM (fun prob => py_div_float prob n) l = Ok l').
    { induction l as [|a l [l' IH]]; [eexists; reflexivity|].
      simpl. unfold py_div_float at 1.
      destruct (Nat.eqb_spec n 0); [lia|]. rewrite IH. eexists. reflexivity. }
    destruct (E (map (@length vector) (values d))) as [l' ->].
    eexists. reflexivity.
Qed.

Lemma infoGain_float_side_ok (d : dict) (P P' : vector -> bool) :
  (0 < lenDictValues d)%nat ->
  exists g, infoGain_float d (side P d) (side P' d) = Ok g.
Proof.
  intros H.
  assert (S : forall Q, exists g, gini_float (side Q d) = Ok g).
  { intros Q. apply gini_float_ok. destruct (side Q d) eqn:E; [now left|right].
    rewrite <- E. apply no_empty_len; [apply side_no_empty|]. now rewrite E. }
  destruct (S P) as [g1 E1]. destruct (S P') as [g2 E2].
  destruct (gini_float_ok (or_intror H)) as [g E].
  unfold infoGain_float, py_div_float.
  destruct (Nat.eqb_spec (lenDictValues d) 0); [lia|].
  cbn [rbind]. rewrite E, E1, E2. cbn [rbind]. eexists. reflexivity.
Qed.

(** C1: on a dataset that holds at least one vector (a dictionary with
    distinct keys, every vector long enough for the allowed features, of
    which there is at least one) and for [nb_cut >= 1], [bestCut], with its
    gains computed by any function [gain] that returns on the cuts of the
    dataset (as [infoGain] does) and compared as the binary64 numbers they
    are, draws exactly [nb_cut] candidate cuts [cands] (it leaves the random
    source where drawing them leaves it) and returns one of them, at
    position [i], with its gain [g]: the winner competes (it is the first
    candidate, or a later one with two non-empty sides), no competing
    candidate has a gain [> g], and every earlier competing candidate has a
    gain [< g] (unless that gain is not a number, which [infoGain_float]
    never returns on a dataset of fewer than [2^53] vectors and [2^50]
    labels: lemma [infoGain_float_finite]); when every later candidate has
    an empty side the winner is the first candidate, whatever its sides. *)
Theorem bestCut_selects (gain : dict -> dict -> dict -> result float)
        (node : Node) (nb_cut : nat) (features : list nat) (r : rng) :
  features <> [] ->
  distinct (keys (data node)) = true ->
  in_range features (data node) = true ->
  (0 < lenDictValues (data node))%nat ->
  (1 <= nb_cut)%nat ->
  (forall f t, exists g,
        gain (data node) (side (below f t) (data node))
             (side (at_least f t) (data node)) = Ok g) ->
  exists cands r' i g c1 c2 f t,
    draw_cuts nb_cut node features r = Ok (cands, r') /\
    length cands = nb_cut /\
    bestCut_with gain gt_float node nb_cut features r = Ok ((g, c1, c2, (f, t)), r') /\
    wins_float gain (data node) cands i (c1, c2, [f], t) g /\
    ((forall j cj, (0 < j)%nat -> nth_error cands j = Some cj ->
                   degenerate cj = true) ->
     i = 0%nat /\ nth_error cands 0 = Some (c1, c2, [f], t)).
Proof.
  intros Hf Hd Hr Hn Hnb Hg. apply distinct_NoDup in Hd. rewrite in_range_spec in Hr.
  destruct (@bestCut_with_closed gain node features Hf Hd Hr Hn Hg nb_cut r)
    as (cands & r' & i & c & g & f & Ed & Hl & Hall & W & Ef & Eb).
  replace (S (nb_cut - 1)) with nb_cut in * by lia.
  destruct c as [[[c1 c2] rf] t]. cbn [fst snd] in *. subst rf.
  exists cands, r', i, g, c1, c2, f, t.
  repeat split; try assumption; try apply W.
  - destruct W as (Wn & We & _).
    destruct i as [|i]; [reflexivity|].
    assert (D : degenerate (c1, c2, [f], t) = true) by (apply (H (S i)); [lia|exact Wn]).
    unfold eligible in We. rewrite D in We. discriminate We.
  - destruct W as (Wn & We & _).
    destruct i as [|i]; [exact Wn|].
    assert (D : degenerate (c1, c2, [f], t) = true) by (apply (H (S i)); [lia|exact Wn]).
    unfold eligible in We. rewrite D in We. discriminate We.
Qed.

(** ** decisionTree *)

Lemma decisionTree_rec_eq (fuel : nat) (node : Node) (nb : nat)
      (features : list nat) (max_depth : Z) :
  decisionTree_rec fuel node nb features max_depth
  = ('(gain, c1, c2, q) <- bestCut node nb features ;;
     g <- lift (gini (data node)) ;;
     if Qeq_bool g 0 || Qeq_bool gain 0 || Z.eqb (Z.of_nat (depth node)) max_depth
     then ret node
     else
       match fuel with
       | O => lift (Raise RecursionError)
       | S fuel' =>
           let node := partition node c1 c2 q in
           match left_son node, right_son node with
           | Some ls, Some rs =>
               ls' <- decisionTree_rec fuel' ls nb features (max_depth - 1) ;;
               rs' <- decisionTree_rec fuel' rs nb features (max_depth - 1) ;;
               ret (mkNode (data node) (question node) (Some ls') (Some rs'))
           | _, _ => lift (Raise AttributeError)
           end
       end)%rnd.
Proof. destruct fuel; reflexivity. Qed.

Lemma depth_two_sons (d : dict) (q : option (nat * Q)) (l r : Node) :
  depth (mkNode d q (Some l) (Some r)) = (Nat.max (depth l) (depth r) + 1)%nat.
Proof.
  cbn [depth].
  destruct (Nat.ltb_spec 0 (depth l)); destruct (Nat.ltb_spec 0 (depth r));
    match goal with |- context [Nat.leb ?a ?b] => destruct (Nat.leb_spec a b) end; lia.
Qed.

Lemma shape_ok_leaf (d : dict) : shape_ok (newNode d).
Proof.
  unfold shape_ok, newNode; simpl. repeat split; try tauto; try congruence.
Qed.

Lemma shape_ok_internal (d : dict) (q : nat * Q) (l r : Node) :
  shape_ok (mkNode d (Some q) (Some l) (Some r)).
Proof.
  unfold shape_ok; simpl. repeat split; intros; congruence.
Qed.

Section Build.

Variable nb : nat.
Variable features : list nat.
Hypothesis features_nonempty : features <> [].

Lemma side_well_formed (P : vector -> bool) (d : dict) :
  well_formed features d -> side P d <> [] -> well_formed features (side P d).
Proof.
  intros (Hd & Hr & Hn) Hne. split; [apply side_NoDup; exact Hd|]. split.
  - intros v Hv. apply Hr. eapply side_values_in. exact Hv.
  - apply no_empty_len; [apply side_no_empty|].
    destruct (side P d); [congruence|reflexivity].
Qed.

Lemma decisionTree_rec_spec (fuel : nat) :
  forall (d : dict) (max_depth : Z) (r : rng),
    well_formed features d ->
    (lenDictValues d <= fuel)%nat ->
    exists tree r',
      decisionTree_rec fuel (newNode d) nb features max_depth r = Ok (tree, r') /\
      data tree = d /\
      Forall (node_ok features) (nodes tree) /\
      ((0 <= max_depth)%Z -> (Z.of_nat (depth tree) <= max_depth)%Z) /\
      (max_depth = 0%Z -> tree = newNode d).
Proof.
  induction fuel as [|fuel IH]; intros d max_depth r Hwf Hfuel.
  - destruct Hwf as (_ & _ & Hn). lia.
  - pose proof Hwf as (Hd & Hr & Hn).
    rewrite decisionTree_rec_eq.
    destruct (@bestCut_sides (newNode d) features features_nonempty Hd Hr Hn nb r)
      as (gain & f & t & r1 & Eb & Hin & Eg).
    cbn [data newNode] in *.
    unfold mbind at 1. rewrite Eb.
    unfold mbind at 1. unfold lift at 1. cbn [data newNode].
    rewrite (gini_counts _ Hn).
    change (depth (newNode d)) with 0%nat.
    destruct (Qeq_bool (gini_val (counts d)) 0 || Qeq_bool gain 0
              || Z.eqb (Z.of_nat 0) max_depth) eqn:Estop.
    + exists (newNode d), r1. split; [reflexivity|]. split; [reflexivity|].
      split.
      { constructor; [|constructor]. split; [apply shape_ok_leaf|].
        split; [exact Hwf|]. intros f' t' Hq. discriminate Hq. }
      split; [intros H; simpl; exact H|reflexivity].
    + apply orb_false_iff in Estop. destruct Estop as [Estop Emd].
      apply orb_false_iff in Estop. destruct Estop as [_ Egain].
      assert (Hrf : forall v, In v (concat (values d)) -> (f < length v)%nat).
      { intros v Hv. apply (Hr v Hv f Hin). }
      assert (Hgain : ~ gain == 0).
      { intros E. apply Qeq_bool_iff in E. congruence. }
      assert (H1 : side (below f t) d <> []).
      { intros E. destruct (gain_empty_left t d Hn Hrf E) as (g & Eg' & Hz).
        rewrite Eg in Eg'. inversion Eg'; subst g. contradiction. }
      assert (H2 : side (at_least f t) d <> []).
      { intros E. destruct (gain_empty_right t d Hn Hrf E) as (g & Eg' & Hz).
        rewrite Eg in Eg'. inversion Eg'; subst g. contradiction. }
      pose proof (side_well_formed (below f t) Hwf H1) as W1.
      pose proof (side_well_formed (at_least f t) Hwf H2) as W2.
      pose proof (side_sizes t d Hrf) as Hs.
      pose proof W1 as (_ & _ & N1). pose proof W2 as (_ & _ & N2).
      cbn [partition left_son right_son data question newNode].
      destruct (IH (side (below f t) d) (max_depth - 1)%Z r1 W1)
        as (lt & r2 & El & Dl & Nl & Hdl & _); [lia|].
      destruct (IH (side (at_least f t) d) (max_depth - 1)%Z r2 W2)
        as (rt & r3 & Er & Dr & Nr & Hdr & _); [lia|].
      unfold mbind at 1. rewrite El. unfold mbind at 1. rewrite Er.
      unfold ret. eexists; eexists. split; [reflexivity|].
      split; [reflexivity|].
      apply Z.eqb_neq in Emd.
      split.
      { cbn [nodes]. constructor.
        - split; [apply shape_ok_internal|]. split; [exact Hwf|].
          cbn [question left_son right_son data].
          intros f' t' Hq. inversion Hq; subst f' t'.
          split; [exact Hin|].
          split; eexists; (split; [reflexivity|]); split; auto;
            [rewrite Dl|rewrite Dr]; assumption.
        - apply Forall_app. split; assumption. }
      split.
      { intros Hmd. rewrite depth_two_sons.
        assert (Z.of_nat (depth lt) <= max_depth - 1)%Z by (apply Hdl; lia).
        assert (Z.of_nat (depth rt) <= max_depth - 1)%Z by (apply Hdr; lia).
        lia. }
      intros E. simpl in Emd. congruence.
Qed.

End Build.

(** ** classify *)

Lemma nodes_self (n : Node) : In n (nodes n).
Proof. destruct n. simpl. now left. Qed.

Lemma nodes_sub (tree : Node) :
  forall n, In n (nodes tree) -> incl (nodes n) (nodes tree).
Proof.
  induction tree as [d q l r IHl IHr] using Node_induction.
  intros n Hn. cbn [nodes] in Hn. destruct Hn as [<-|Hn]; [apply incl_refl|].
  intros x Hx. cbn [nodes]. right. apply in_or_app.
  apply in_app_or in Hn. destruct Hn as [Hn|Hn].
  - left. destruct l as [ls|]; [|contradiction]. apply (IHl n Hn x Hx).
  - right. destruct r as [rs|]; [|contradiction]. apply (IHr n Hn x Hx).
Qed.

Lemma son_in_nodes (n : Node) :
  (forall l, left_son n = Some l -> In l (nodes n)) /\
  (forall r, right_son n = Some r -> In r (nodes n)).
Proof.
  destruct n as [d q l r]. cbn [left_son right_son nodes]. split.
  - intros x ->. right. apply in_or_app. left. apply nodes_self.
  - intros x ->. right. apply in_or_app. right. apply nodes_self.
Qed.

Lemma classify_walk_leaf (n : Node) (v : vector) :
  question n = None -> classify_walk n v = Ok n /\ route n v = n.
Proof. destruct n as [d q l r]. simpl. intros ->. split; reflexivity. Qed.

Lemma classify_walk_step (d : dict) (f : nat) (t x : Q) (l r : Node) (v : vector) :
  nth_error v f = Some x ->
  shape_ok l -> shape_ok r ->
  let son := if Qle_bool x t then l else r in
  classify_walk (mkNode d (Some (f, t)) (Some l) (Some r)) v = classify_walk son v /\
  route (mkNode d (Some (f, t)) (Some l) (Some r)) v = route son v.
Proof.
  intros Ex Sl Sr son. cbn [classify_walk route]. unfold getitem. rewrite Ex.
  assert (Hson : shape_ok son) by (unfold son; destruct (Qle_bool x t); assumption).
  replace (if Qle_bool x t then Some l else Some r) with (Some son)
    by (unfold son; destruct (Qle_bool x t); reflexivity).
  split; [|reflexivity].
  destruct (is_None (left_son son) && is_None (right_son son)) eqn:E; [|reflexivity].
  apply andb_true_iff in E. destruct E as [E1 E2].
  destruct Hson as ([Hq _] & _ & _).
  destruct (question son) as [q|] eqn:Eq.
  - destruct Hq as [Hl _]; [discriminate|].
    destruct (left_son son); [discriminate E1|congruence].
  - symmetry. apply classify_walk_leaf. exact Eq.
Qed.

Lemma has_values_sons (d : dict) (q : option (nat * Q)) (l r : Node) (v : vector) :
  has_values (mkNode d q (Some l) (Some r)) v = true ->
  has_values l v = true /\ has_values r v = true.
Proof.
  unfold has_values. cbn [nodes forallb]. rewrite andb_true_iff, forallb_app.
  rewrite andb_true_iff. tauto.
Qed.

Lemma classify_walk_route (v : vector) (tree : Node) :
  Forall shape_ok (nodes tree) ->
  has_values tree v = true ->
  classify_walk tree v = Ok (route tree v) /\
  In (route tree v) (nodes tree) /\
  question (route tree v) = None.
Proof.
  induction tree as [d q l r IHl IHr] using Node_induction.
  intros Hs Hv. destruct q as [[f t]|].
  - pose proof Hs as Hs'. cbn [nodes] in Hs'.
    inversion Hs' as [|? ? Hroot Hrest]; subst.
    destruct Hroot as ([Hq _] & _ & _). cbn [question left_son right_son] in Hq.
    destruct Hq as [Hl Hr]; [discriminate|].
    destruct l as [ls|]; [|congruence]. destruct r as [rs|]; [|congruence].
    apply Forall_app in Hrest. destruct Hrest as [Fl Fr].
    destruct (has_values_sons _ _ _ _ _ Hv) as [Vl Vr].
    assert (Hfv : (f < length v)%nat).
    { unfold has_values in Hv. cbn [nodes forallb question] in Hv.
      apply andb_true_iff in Hv. destruct Hv as [Hv _]. apply Nat.ltb_lt. exact Hv. }
    destruct (nth_error v f) as [x|] eqn:Ex.
    2:{ apply nth_error_None in Ex. lia. }
    assert (Sl : shape_ok ls).
    { rewrite Forall_forall in Fl. apply Fl. apply nodes_self. }
    assert (Sr : shape_ok rs).
    { rewrite Forall_forall in Fr. apply Fr. apply nodes_self. }
    destruct (@classify_walk_step d f t x ls rs v Ex Sl Sr) as [Ew Er].
    rewrite Ew, Er. cbn [nodes].
    destruct (Qle_bool x t).
    + destruct (IHl Fl Vl) as (E1 & E2 & E3).
      split; [exact E1|]. split; [|exact E3].
      right. apply in_or_app. now left.
    + destruct (IHr Fr Vr) as (E1 & E2 & E3).
      split; [exact E1|]. split; [|exact E3].
      right. apply in_or_app. now right.
  - cbn [classify_walk route]. split; [reflexivity|].
    split; [apply nodes_self|reflexivity].
Qed.

Lemma argmax_from_spec (l : list nat) :
  forall (pre : list nat) (bi b : nat),
    nth_error pre bi = Some b ->
    (forall j y, nth_error pre j = Some y ->
                 (y <= b)%nat /\ ((j < bi)%nat -> (y < b)%nat)) ->
    exists x,
      nth_error (pre ++ l) (argmax_from bi b (length pre) l) = Some x /\
      forall j y, nth_error (pre ++ l) j = Some y ->
                  (y <= x)%nat /\ ((j < argmax_from bi b (length pre) l)%nat -> (y < x)%nat).
Proof.
  induction l as [|a l IH]; intros pre bi b Hb Hall.
  - rewrite app_nil_r. exists b. split; [exact Hb|exact Hall].
  - assert (Hbi : (bi < length pre)%nat) by (apply nth_error_Some; congruence).
    assert (L : length (pre ++ [a]) = S (length pre))
      by (rewrite length_app; simpl; lia).
    assert (A : (pre ++ [a]) ++ l = pre ++ a :: l)
      by (rewrite <- app_assoc; reflexivity).
    cbn [argmax_from].
    destruct (Nat.ltb_spec b a) as [Hlt|Hge].
    + destruct (IH (pre ++ [a]) (length pre) a) as (x & Hx & Hall').
      * rewrite nth_error_app2, Nat.sub_diag by lia. reflexivity.
      * intros j y Hj.
        destruct (Nat.lt_ge_cases j (length pre)) as [Hj1|Hj1].
        -- rewrite nth_error_app1 in Hj by exact Hj1.
           destruct (Hall j y Hj) as [Hle _]. lia.
        -- rewrite nth_error_app2 in Hj by exact Hj1.
           destruct (j - length pre)%nat as [|m] eqn:Em; simpl in Hj.
           ++ inversion Hj; subst. lia.
           ++ destruct m; discriminate Hj.
      * rewrite L, A in *. exists x. split; assumption.
    + destruct (IH (pre ++ [a]) bi b) as (x & Hx & Hall').
      * rewrite nth_error_app1 by exact Hbi. exact Hb.
      * intros j y Hj.
        destruct (Nat.lt_ge_cases j (length pre)) as [Hj1|Hj1].
        -- rewrite nth_error_app1 in Hj by exact Hj1. apply (Hall j y Hj).
        -- rewrite nth_error_app2 in Hj by exact Hj1.
           destruct (j - length pre)%nat as [|m] eqn:Em; simpl in Hj.
           ++ inversion Hj; subst. lia.
           ++ destruct m; discriminate Hj.
      * rewrite L, A in *. exists x. split; assumption.
Qed.

Lemma np_argmax_spec (l : list nat) :
  l <> [] ->
  exists p x,
    np_argmax l = Ok p /\ nth_error l p = Some x /\
    forall j y, nth_error l j = Some y -> (y <= x)%nat /\ ((j < p)%nat -> (y < x)%nat).
Proof.
  intros Hne. destruct l as [|a l]; [congruence|].
  destruct (@argmax_from_spec l [a] 0%nat a eq_refl) as (x & Hx & Hall).
  - intros j y Hj. destruct j as [|j]; simpl in Hj.
    + inversion Hj; subst. lia.
    + destruct j; discriminate Hj.
  - exists (argmax_from 0 a 1 l), x. split; [reflexivity|]. split; assumption.
Qed.

Lemma classify_prediction (tree leaf : Node) (v : vector) :
  classify_walk tree v = Ok leaf ->
  data leaf <> [] ->
  exists k, classify tree v = Ok k /\ In k (keys (data leaf)) /\ majority (data leaf) k.
Proof.
  intros Ew Hne. unfold classify. rewrite Ew. cbn [rbind].
  destruct (@np_argmax_spec (map (@length vector) (values (data leaf))))
    as (p & x & Ea & Hp & Hall).
  { intros E. apply map_eq_nil in E. apply map_eq_nil in E. contradiction. }
  rewrite Ea. cbn [rbind]. unfold values in Hp. rewrite map_map in Hp.
  rewrite nth_error_map in Hp.
  destruct (nth_error (data leaf) p) as [[k l]|] eqn:Ep; [|discriminate Hp].
  simpl in Hp. inversion Hp; subst x.
  unfold getitem, keys. rewrite nth_error_map, Ep. simpl.
  exists k. split; [reflexivity|]. split.
  - apply in_map_iff. exists (k, l). split; [reflexivity|].
    eapply nth_error_In. exact Ep.
  - exists p, l. split; [exact Ep|].
    intros j kj lj Hj. apply (Hall j (length lj)).
    unfold values. rewrite map_map, nth_error_map, Hj. reflexivity.
Qed.

(** ** The tree that decisionTree builds *)

Lemma decisionTree_built (nb : nat) (features : list nat) (d : dict)
      (max_depth : Z) (r : rng) :
  features <> [] ->
  distinct (keys d) = true ->
  in_range features d = true ->
  (0 < lenDictValues d)%nat ->
  exists tree r',
    decisionTree (newNode d) nb features max_depth r = Ok (tree, r') /\
    data tree = d /\
    Forall (node_ok features) (nodes tree) /\
    ((0 <= max_depth)%Z -> (Z.of_nat (depth tree) <= max_depth)%Z) /\
    (max_depth = 0%Z -> tree = newNode d).
Proof.
  intros Hf Hd Hr Hn. apply distinct_NoDup in Hd. rewrite in_range_spec in Hr.
  unfold decisionTree. cbn [data newNode].
  apply decisionTree_rec_spec; [exact Hf| |lia].
  split; [exact Hd|]. split; assumption.
Qed.

Lemma node_ok_sons (features : list nat) (n : Node) :
  node_ok features n ->
  (forall l, left_son n = Some l -> (0 < lenDictValues (data l))%nat) /\
  (forall rs, right_son n = Some rs -> (0 < lenDictValues (data rs))%nat).
Proof.
  intros (Hs & _ & Hq). destruct (question n) as [[f t]|] eqn:Eq.
  - destruct (Hq f t eq_refl) as (_ & (l & El & _ & Nl) & (rs & Er & _ & Nr)).
    split; intros x Ex; congruence.
  - destruct Hs as (_ & _ & Hleaf). destruct (Hleaf Eq) as [E1 E2].
    split; intros x Ex; congruence.
Qed.



(** The nodes of the tree built over exact rationals: for a dataset that
    holds at least one vector (distinct keys, every vector long enough for
    the allowed features, of which there is at least one), [decisionTree]
    returns a tree in which every node holds at least one vector, hence at
    least one label, and so does each son of every node; at every node a cut
    of its dataset with an empty side has gain 0; and [classify] returns a
    label for every vector that has the values the tree asks for.  The same
    is shown below of the tree built in binary64. *)
Theorem decisionTree_nodes_nonempty (nb : nat) (features : list nat) (d : dict)
        (max_depth : Z) (r : rng) :
  features <> [] ->
  distinct (keys d) = true ->
  in_range features d = true ->
  (0 < lenDictValues d)%nat ->
  exists tree r',
    decisionTree (newNode d) nb features max_depth r = Ok (tree, r') /\
    Forall (fun n =>
              (0 < lenDictValues (data n))%nat /\ data n <> [] /\
              (forall l, left_son n = Some l -> (0 < lenDictValues (data l))%nat) /\
              (forall rs, right_son n = Some rs -> (0 < lenDictValues (data rs))%nat) /\
              (forall f t,
                  In f features ->
                  side (below f t) (data n) = [] \/ side (at_least f t) (data n) = [] ->
                  exists g,
                    infoGain (data n) (side (below f t) (data n))
                             (side (at_least f t) (data n)) = Ok g /\ g == 0))
           (nodes tree) /\
    (forall v, has_values tree v = true -> exists k, classify tree v = Ok k).
Proof.
  intros Hf Hd Hr Hn.
  destruct (@decisionTree_built nb features d max_depth r Hf Hd Hr Hn)
    as (tree & r' & E & _ & Hall & _).
  exists tree, r'. split; [exact E|]. split.
  - eapply Forall_impl; [|exact Hall]. intros n Hok.
    pose proof (@node_ok_sons features n Hok) as [Sl Sr].
    destruct Hok as (_ & (Hnd & Hrange & Hpos) & _).
    split; [exact Hpos|]. split.
    { intros E0. rewrite E0 in Hpos. cbv in Hpos. lia. }
    split; [exact Sl|]. split; [exact Sr|].
    intros f t Hin [E0|E0].
    + apply gain_empty_left; auto.
    + apply gain_empty_right; auto.
  - intros v Hv.
    assert (Hshape : Forall shape_ok (nodes tree)).
    { eapply Forall_impl; [|exact Hall]. intros n Hok. apply Hok. }
    destruct (@classify_walk_route v tree Hshape Hv) as (Ew & Hin & _).
    rewrite Forall_forall in Hall.
    destruct (Hall _ Hin) as (_ & (_ & _ & Hpos) & _).
    destruct (@classify_prediction tree (route tree v) v Ew) as (k & Ek & _).
    { intros E0. rewrite E0 in Hpos. cbv in Hpos. lia. }
    exists k. exact Ek.
Qed.


(** ** Rounding in binary64

    What is needed of IEEE 754 rounding to follow a [gini] and a gain
    through their float operations: a rounding never leaves the bound of an
    integer below [2^53], and it returns a float unchanged. *)


Lemma iter_pos_nat {A} (f : A -> A) (p : positive) :
  forall x, iter_pos f p x = Nat.iter (Pos.to_nat p) f x.
Proof.
  induction p as [p IH|p IH|]; intros x; cbn [iter_pos].
  - rewrite !IH, Pos2Nat.inj_xI.
    replace (S (2 * Pos.to_nat p)) with (Pos.to_nat p + (Pos.to_nat p + 1))%nat by lia.
    rewrite !Nat.iter_add. reflexivity.
  - rewrite !IH, Pos2Nat.inj_xO.
    replace (2 * Pos.to_nat p)%nat with (Pos.to_nat p + Pos.to_nat p)%nat by lia.
    rewrite Nat.iter_add. reflexivity.
  - reflexivity.
Qed.

Lemma shr_1_spec (mrs : shr_record) :
  (0 <= shr_m mrs)%Z ->
  shr_m (shr_1 mrs) = (shr_m mrs / 2)%Z /\
  inexact (shr_1 mrs) = inexact mrs || Z.odd (shr_m mrs).
Proof.
  destruct mrs as [m r s]. unfold inexact. cbn [shr_m shr_r shr_s]. intros Hm.
  destruct m as [|p|p]; [| |lia].
  - simpl. split; [reflexivity|]. destruct r, s; reflexivity.
  - destruct p as [p|p|]; cbn [shr_1 shr_m shr_r shr_s].
    + split.
      * change (Z.pos p~1) with (2 * Z.pos p + 1)%Z.
        apply Z.div_unique with (r := 1%Z); lia.
      * destruct r, s; reflexivity.
    + split.
      * change (Z.pos p~0) with (2 * Z.pos p)%Z.
        apply Z.div_unique with (r := 0%Z); lia.
      * destruct r, s; reflexivity.
    + split; [reflexivity|]. destruct r, s; reflexivity.
Qed.

Lemma mod_pow2_succ (m : Z) (n : nat) :
  (0 <= m)%Z ->
  (m mod 2 ^ Z.of_nat (S n) =? 0)%Z
  = (m mod 2 ^ Z.of_nat n =? 0)%Z && negb (Z.odd (m / 2 ^ Z.of_nat n)).
Proof.
  intros Hm.
  assert (P : (0 < 2 ^ Z.of_nat n)%Z) by (apply Z.pow_pos_nonneg; lia).
  replace (2 ^ Z.of_nat (S n))%Z with (2 ^ Z.of_nat n * 2)%Z
    by (rewrite Nat2Z.inj_succ, Z.pow_succ_r by lia; ring).
  rewrite Z.rem_mul_r by lia.
  pose proof (Z.mod_pos_bound m (2 ^ Z.of_nat n) P) as B1.
  pose proof (Z.mod_pos_bound (m / 2 ^ Z.of_nat n) 2 ltac:(lia)) as B2.
  rewrite <- Z.negb_even, negb_involutive.
  rewrite Zeven_mod.
  destruct (Z.eqb_spec (m mod 2 ^ Z.of_nat n) 0) as [E|E];
    destruct (Z.eqb_spec ((m / 2 ^ Z.of_nat n) mod 2) 0) as [F|F];
    cbn [andb]; apply Z.eqb_eq || apply Z.eqb_neq; nia.
Qed.

Lemma shr_iter_spec (n : nat) (mrs : shr_record) :
  (0 <= shr_m mrs)%Z ->
  shr_m (Nat.iter n shr_1 mrs) = (shr_m mrs / 2 ^ Z.of_nat n)%Z /\
  inexact (Nat.iter n shr_1 mrs)
  = inexact mrs || negb (shr_m mrs mod 2 ^ Z.of_nat n =? 0)%Z.
Proof.
  intros Hm. induction n as [|n [IH1 IH2]].
  - simpl. rewrite Z.div_1_r, Z.mod_1_r. simpl. rewrite orb_false_r. tauto.
  - rewrite Nat.iter_succ.
    assert (P : (0 < 2 ^ Z.of_nat n)%Z) by (apply Z.pow_pos_nonneg; lia).
    assert (H0 : (0 <= shr_m (Nat.iter n shr_1 mrs))%Z).
    { rewrite IH1. apply Z.div_pos; lia. }
    destruct (shr_1_spec _ H0) as [S1 S2]. rewrite S1, S2, IH1, IH2. split.
    + rewrite Z.div_div by lia. f_equal.
      rewrite Nat2Z.inj_succ, Z.pow_succ_r by lia. ring.
    + rewrite mod_pow2_succ by exact Hm. rewrite negb_andb, negb_involutive.
      rewrite orb_assoc. reflexivity.
Qed.

(** [shr]: the mantissa is divided by [2^n], and the result is inexact when
    the record was or when a bit is lost. *)
Lemma shr_spec (mrs : shr_record) (e n : Z) :
  (0 <= shr_m mrs)%Z -> (0 < n)%Z ->
  shr mrs e n = (fst (shr mrs e n), (e + n)%Z) /\
  shr_m (fst (shr mrs e n)) = (shr_m mrs / 2 ^ n)%Z /\
  inexact (fst (shr mrs e n)) = inexact mrs || negb (shr_m mrs mod 2 ^ n =? 0)%Z.
Proof.
  intros Hm Hn. destruct n as [|p|p]; [lia| |lia].
  cbn [shr fst]. rewrite iter_pos_nat.
  destruct (shr_iter_spec (Pos.to_nat p) mrs Hm) as [S1 S2].
  rewrite positive_nat_Z in S1, S2. auto.
Qed.

Lemma shr_nop (mrs : shr_record) (e n : Z) :
  (n <= 0)%Z -> shr mrs e n = (mrs, e).
Proof. destruct n as [|p|p]; [reflexivity|lia|reflexivity]. Qed.

(** *** Digits *)

Lemma digits2_pos_size (p : positive) : digits2_pos p = Pos.size p.
Proof. induction p; simpl; congruence. Qed.

Lemma Zdigits2_log2 (p : positive) : Zdigits2 (Zpos p) = (Z.log2 (Zpos p) + 1)%Z.
Proof.
  cbn [Zdigits2]. rewrite digits2_pos_size.
  pose proof (Pos.size_gt p) as G. pose proof (Pos.size_le p) as L.
  apply Pos2Z.pos_lt_pos in G. apply Pos2Z.pos_le_pos in L.
  rewrite Pos2Z.inj_pow in G, L.
  assert (E : Z.log2 (Z.pos p) = (Z.pos (Pos.size p) - 1)%Z).
  { apply Z.log2_unique; [lia|]. split.
    - replace (Z.pos (Pos.size p)) with (Z.succ (Z.pos (Pos.size p) - 1)) in L by lia.
      rewrite Z.pow_succ_r in L by lia. lia.
    - replace (Z.succ (Z.pos (Pos.size p) - 1))%Z with (Z.pos (Pos.size p)) by lia. exact G. }
  lia.
Qed.

Lemma Zdigits2_bounds (p : positive) :
  (2 ^ (Zdigits2 (Zpos p) - 1) <= Zpos p < 2 ^ Zdigits2 (Zpos p))%Z.
Proof.
  rewrite Zdigits2_log2.
  pose proof (Z.log2_spec (Zpos p) ltac:(lia)) as H.
  replace (Z.log2 (Z.pos p) + 1 - 1)%Z with (Z.log2 (Z.pos p)) by lia.
  replace (Z.log2 (Z.pos p) + 1)%Z with (Z.succ (Z.log2 (Z.pos p))) by lia. exact H.
Qed.

Lemma Zdigits2_mul_pow2 (p : positive) (k : Z) :
  (0 <= k)%Z -> Zdigits2 (Zpos p * 2 ^ k) = (Zdigits2 (Zpos p) + k)%Z.
Proof.
  intros Hk.
  assert (P : (0 < Zpos p * 2 ^ k)%Z).
  { apply Z.mul_pos_pos; [lia|apply Z.pow_pos_nonneg; lia]. }
  destruct (Zpos p * 2 ^ k)%Z as [|q|q] eqn:E; [lia| |lia].
  rewrite !Zdigits2_log2, <- E, Z.log2_mul_pow2 by lia. lia.
Qed.

(** *** Rounding keeps a bound *)


Lemma shr_record_of_loc_spec (m : Z) (l : location) :
  shr_m (shr_record_of_loc m l) = m /\
  inexact (shr_record_of_loc m l) = loc_inexact l.
Proof. destruct l as [|[]]; split; reflexivity. Qed.

Lemma round_nearest_even_bounds (mrs : shr_record) :
  (shr_m mrs <= round_nearest_even (shr_m mrs) (loc_of_shr_record mrs)
   <= shr_m mrs + Z.b2z (inexact mrs))%Z.
Proof.
  destruct mrs as [m [] []]; unfold inexact; cbn [shr_m shr_r shr_s loc_of_shr_record
    round_nearest_even orb Z.b2z]; try destruct (Z.even m); lia.
Qed.

Lemma fexp_eq (e : Z) : fexp prec emax e = Z.max (e - 53) (-1074).
Proof. reflexivity. Qed.

Lemma pow2_pos (k : Z) : (0 <= k)%Z -> (0 < 2 ^ k)%Z.
Proof. intros H. apply Z.pow_pos_nonneg; lia. Qed.

Lemma digits_exp_le (m e N : Z) :
  (0 <= m)%Z -> (e <= 0)%Z -> (0 < N < 2 ^ 53)%Z -> (m <= N * 2 ^ (- e))%Z ->
  (Zdigits2 m + e <= 53)%Z.
Proof.
  intros Hm He HN Hb. destruct m as [|p|p]; [simpl; lia| |lia].
  pose proof (Zdigits2_bounds p) as [D _].
  pose proof (@pow2_pos (- e)%Z ltac:(lia)) as P.
  assert (L : (2 ^ (Zdigits2 (Z.pos p) - 1) < 2 ^ (53 - e))%Z).
  { replace (53 - e)%Z with (53 + - e)%Z by lia. rewrite Z.pow_add_r by lia. nia. }
  apply Z.pow_lt_mono_r_iff in L; lia.
Qed.

Lemma shr_fexp_bound (m e : Z) (l : location) (N : Z) :
  (0 <= m)%Z -> (e <= 0)%Z -> (0 < N < 2 ^ 53)%Z ->
  (m + Z.b2z (loc_inexact l) <= N * 2 ^ (- e))%Z ->
  (0 <= shr_m (fst (shr_fexp prec emax m e l)))%Z /\
  (snd (shr_fexp prec emax m e l) <= 0)%Z /\
  (shr_m (fst (shr_fexp prec emax m e l))
   + Z.b2z (inexact (fst (shr_fexp prec emax m e l)))
   <= N * 2 ^ (- snd (shr_fexp prec emax m e l)))%Z.
Proof.
  intros Hm He HN Hb. unfold shr_fexp.
  destruct (shr_record_of_loc_spec m l) as [R1 R2].
  set (n := (fexp prec emax (Zdigits2 m + e) - e)%Z).
  destruct (Z.le_gt_cases n 0) as [Hn|Hn].
  - rewrite shr_nop by exact Hn. cbn [fst snd]. rewrite R1, R2. lia.
  - assert (Hm' : (0 <= shr_m (shr_record_of_loc m l))%Z) by (rewrite R1; exact Hm).
    destruct (shr_spec (shr_record_of_loc m l) e Hm' Hn) as (S0 & S1 & S2).
    rewrite S0. cbn [fst snd]. rewrite S1, S2, R1, R2.
    assert (Hd : (Zdigits2 m + e <= 53)%Z).
    { apply digits_exp_le with (N := N); try assumption.
      destruct (loc_inexact l); simpl in Hb; lia. }
    assert (He' : (e + n <= 0)%Z).
    { unfold n. rewrite fexp_eq. lia. }
    pose proof (@pow2_pos n ltac:(lia)) as Pn.
    pose proof (@pow2_pos (- (e + n))%Z ltac:(lia)) as Pe.
    assert (Epow : (2 ^ (- e) = 2 ^ (- (e + n)) * 2 ^ n)%Z).
    { rewrite <- Z.pow_add_r by lia. f_equal. lia. }
    rewrite Epow in Hb.
    pose proof (Z.div_mod m (2 ^ n) ltac:(lia)) as Dm.
    pose proof (Z.mod_pos_bound m (2 ^ n) Pn) as Bm.
    split; [apply Z.div_pos; lia|]. split; [exact He'|].
    set (q := (m / 2 ^ n)%Z) in *. set (rho := (m mod 2 ^ n)%Z) in *.
    set (K := (N * 2 ^ (- (e + n)))%Z) in *.
    destruct (loc_inexact l); cbn [orb Z.b2z] in *.
    + nia.
    + destruct (Z.eqb_spec rho 0) as [E|E]; cbn [negb Z.b2z]; nia.
Qed.


Lemma binary_round_aux_within (sx : bool) (mx ex : Z) (lx : location) (N : Z) :
  (0 <= mx)%Z -> (ex <= 0)%Z -> (0 < N < 2 ^ 53)%Z ->
  (mx + Z.b2z (loc_inexact lx) <= N * 2 ^ (- ex))%Z ->
  within N sx (binary_round_aux prec emax sx mx ex lx).
Proof.
  intros Hm He HN Hb. unfold binary_round_aux.
  destruct (shr_fexp_bound lx Hm He HN Hb) as (A1 & A2 & A3).
  destruct (shr_fexp prec emax mx ex lx) as [mrs' e']. cbn [fst snd] in *.
  pose proof (round_nearest_even_bounds mrs') as [B1 B2].
  set (m2 := round_nearest_even (shr_m mrs') (loc_of_shr_record mrs')) in *.
  destruct (@shr_fexp_bound m2 e' loc_Exact N) as (C1 & C2 & C3);
    [lia|exact A2|exact HN|cbn [loc_inexact Z.b2z]; lia|].
  destruct (shr_fexp prec emax m2 e' loc_Exact) as [mrs'' e'']. cbn [fst snd] in *.
  destruct (shr_m mrs'') as [|p|p] eqn:E; [reflexivity| |lia].
  assert (L : (e'' <=? emax - prec)%Z = true).
  { apply Z.leb_le. change (emax - prec)%Z with 971%Z. lia. }
  rewrite L. cbn [within]. split; [reflexivity|]. split; [exact C2|].
  destruct (inexact mrs''); cbn [Z.b2z] in C3; lia.
Qed.

(** *** Rounding a number that is a float already *)

Lemma bounded_spec (m : positive) (e : Z) :
  bounded prec emax m e = true ->
  fexp prec emax (Zdigits2 (Zpos m) + e) = e /\ (e <= emax - prec)%Z.
Proof.
  unfold bounded, canonical_mantissa. intros H. apply andb_true_iff in H.
  destruct H as [H1 H2]. apply Z.eqb_eq in H1. apply Z.leb_le in H2. auto.
Qed.

Lemma binary_round_aux_exact (sx : bool) (m : positive) (e k : Z) :
  bounded prec emax m e = true -> (0 <= k)%Z ->
  binary_round_aux prec emax sx (Zpos m * 2 ^ k) (e - k) loc_Exact
  = S754_finite sx m e.
Proof.
  intros Hb Hk. destruct (bounded_spec _ _ Hb) as [Hc He].
  assert (Step : shr_fexp prec emax (Zpos m * 2 ^ k) (e - k) loc_Exact
                 = (Build_shr_record (Zpos m) false false, e)).
  { unfold shr_fexp. rewrite Zdigits2_mul_pow2 by exact Hk.
    replace (Zdigits2 (Z.pos m) + k + (e - k))%Z with (Zdigits2 (Z.pos m) + e)%Z by lia.
    rewrite Hc. replace (e - (e - k))%Z with k by lia.
    destruct (Z.eq_dec k 0) as [->|Hk0].
    - rewrite shr_nop by lia. cbn [shr_record_of_loc].
      rewrite Z.pow_0_r, Z.mul_1_r, Z.sub_0_r. reflexivity.
    - pose proof (@pow2_pos k Hk) as P.
      destruct (@shr_spec (shr_record_of_loc (Z.pos m * 2 ^ k) loc_Exact) (e - k) k)
        as (S0 & S1 & S2); [cbn [shr_record_of_loc shr_m]; lia|lia|].
      rewrite S0.
      destruct (shr_record_of_loc_spec (Z.pos m * 2 ^ k) loc_Exact) as [R1 R2].
      rewrite R1 in S1. rewrite R1, R2 in S2. cbn [loc_inexact orb] in S2.
      rewrite Z.div_mul in S1 by lia. rewrite Z.mod_mul in S2 by lia.
      cbn [Z.eqb negb] in S2.
      destruct (fst (shr (shr_record_of_loc (Z.pos m * 2 ^ k) loc_Exact) (e - k) k))
        as [m' r s].
      cbn [shr_m] in S1. unfold inexact in S2. cbn [shr_r shr_s] in S2.
      apply orb_false_iff in S2. destruct S2 as [-> ->]. subst m'.
      f_equal. lia. }
  unfold binary_round_aux. rewrite Step.
  cbn [shr_m loc_of_shr_record round_nearest_even].
  assert (Step2 : shr_fexp prec emax (Zpos m) e loc_Exact
                  = (Build_shr_record (Zpos m) false false, e)).
  { unfold shr_fexp. rewrite Hc. rewrite shr_nop by lia. reflexivity. }
  rewrite Step2. cbn [shr_m].
  apply Z.leb_le in He. rewrite He. reflexivity.
Qed.

(** *** Conversion of an int *)

Lemma iter_xO_pow2 (p d : positive) :
  Zpos (Pos.iter xO p d) = (Zpos p * 2 ^ Zpos d)%Z.
Proof.
  revert p. induction d as [|d IH] using Pos.peano_ind; intros p.
  - simpl. lia.
  - rewrite Pos.iter_succ. rewrite Pos2Z.inj_succ, Z.pow_succ_r by lia.
    change (Z.pos (Pos.iter xO p d)~0) with (2 * Z.pos (Pos.iter xO p d))%Z.
    rewrite IH. ring.
Qed.

(** The float of a positive int below [2^53] is the int itself: a mantissa
    [m] and an exponent [e <= 0] with [m = n * 2^(-e)]. *)
Lemma binary_normalize_int (p : positive) :
  (Zpos p < 2 ^ 53)%Z ->
  exists m e,
    binary_normalize prec emax (Zpos p) 0 false = S754_finite false m e /\
    (-52 <= e <= 0)%Z /\ Zpos m = (Zpos p * 2 ^ (- e))%Z /\
    Zdigits2 (Zpos m) = 53%Z /\
    bounded prec emax m e = true.
Proof.
  intros Hp. cbn [binary_normalize]. unfold binary_round.
  pose proof (Zdigits2_bounds p) as [D1 D2].
  assert (Hd : (Zdigits2 (Zpos p) <= 53)%Z).
  { assert (L : (2 ^ (Zdigits2 (Z.pos p) - 1) < 2 ^ 53)%Z) by lia.
    apply Z.pow_lt_mono_r_iff in L; lia. }
  assert (Hd0 : (0 < Zdigits2 (Zpos p))%Z) by (cbn [Zdigits2]; lia).
  change (Z.pos (digits2_pos p)) with (Zdigits2 (Zpos p)).
  rewrite Z.add_0_r, fexp_eq.
  replace (Z.max (Zdigits2 (Z.pos p) - 53) (-1074)) with (Zdigits2 (Z.pos p) - 53)%Z by lia.
  unfold shl_align. rewrite Z.sub_0_r.
  destruct (Zdigits2 (Z.pos p) - 53)%Z as [|q|q] eqn:E; [| lia |].
  - exists p, 0%Z.
    assert (B : bounded prec emax p 0 = true).
    { unfold bounded, canonical_mantissa.
      change (Z.pos (digits2_pos p)) with (Zdigits2 (Zpos p)).
      rewrite Z.add_0_r, fexp_eq.
      replace (Z.max (Zdigits2 (Z.pos p) - 53) (-1074)) with 0%Z by lia. reflexivity. }
    split.
    + pose proof (@binary_round_aux_exact false p 0 0 B ltac:(lia)) as X.
      rewrite Z.pow_0_r, Z.mul_1_r in X. exact X.
    + split; [lia|]. split; [simpl; lia|]. split; [lia|exact B].
  - exists (Pos.iter xO p q), (Z.neg q).
    assert (Em : Zpos (Pos.iter xO p q) = (Zpos p * 2 ^ Zpos q)%Z) by apply iter_xO_pow2.
    assert (Dm : Zdigits2 (Zpos (Pos.iter xO p q)) = 53%Z).
    { rewrite Em, Zdigits2_mul_pow2 by lia. lia. }
    assert (B : bounded prec emax (Pos.iter xO p q) (Z.neg q) = true).
    { unfold bounded, canonical_mantissa.
      change (Z.pos (digits2_pos (Pos.iter xO p q)))
        with (Zdigits2 (Zpos (Pos.iter xO p q))).
      rewrite Dm, fexp_eq.
      change (emax - prec)%Z with 971%Z.
      apply andb_true_iff. split; [apply Z.eqb_eq|apply Z.leb_le]; lia. }
    split.
    + pose proof (@binary_round_aux_exact false (Pos.iter xO p q) (Z.neg q) 0 B
                                          ltac:(lia)) as X.
      rewrite Z.pow_0_r, Z.mul_1_r, Z.sub_0_r in X. exact X.
    + split; [lia|]. split; [exact Em|]. split; [exact Dm|exact B].
Qed.

(** *** The operations *)

Lemma shl_align_spec (p : positive) (e e' : Z) :
  (snd (shl_align p e e') <= e)%Z /\
  Zpos (fst (shl_align p e e'))
  = (Zpos p * 2 ^ (e - snd (shl_align p e e')))%Z.
Proof.
  unfold shl_align. destruct (e' - e)%Z as [|d|d] eqn:E; cbn [fst snd].
  - rewrite Z.sub_diag. simpl. lia.
  - rewrite Z.sub_diag. simpl. lia.
  - split; [lia|]. rewrite iter_xO_pow2. f_equal. f_equal. lia.
Qed.

Lemma shl_align_min (p : positive) (e e' : Z) :
  (e' <= e)%Z ->
  Zpos (fst (shl_align p e e')) = (Zpos p * 2 ^ (e - e'))%Z.
Proof.
  intros H. unfold shl_align. destruct (e' - e)%Z as [|d|d] eqn:E; cbn [fst].
  - replace (e - e')%Z with 0%Z by lia. simpl. lia.
  - lia.
  - rewrite iter_xO_pow2. f_equal. f_equal. lia.
Qed.

Lemma binary_round_within (sx : bool) (p : positive) (e N : Z) :
  (e <= 0)%Z -> (0 < N < 2 ^ 53)%Z -> (Zpos p <= N * 2 ^ (- e))%Z ->
  within N sx (binary_round prec emax sx p e).
Proof.
  intros He HN Hb. unfold binary_round.
  destruct (shl_align_spec p e (fexp prec emax (Z.pos (digits2_pos p) + e)))
    as [A1 A2].
  destruct (shl_align p e (fexp prec emax (Z.pos (digits2_pos p) + e))) as [mz ez].
  cbn [fst snd] in *.
  apply binary_round_aux_within; [lia|lia|exact HN|].
  cbn [loc_inexact Z.b2z]. rewrite Z.add_0_r, A2.
  pose proof (@pow2_pos (e - ez)%Z ltac:(lia)) as P1.
  pose proof (@pow2_pos (- e)%Z ltac:(lia)) as P2.
  replace (- ez)%Z with (- e + (e - ez))%Z by lia.
  rewrite Z.pow_add_r by lia. nia.
Qed.

Lemma binary_normalize_within (z e N : Z) :
  (e <= 0)%Z -> (0 < N < 2 ^ 53)%Z -> (Z.abs z <= N * 2 ^ (- e))%Z ->
  within N (Z.ltb z 0) (binary_normalize prec emax z e false).
Proof.
  intros He HN Hb. destruct z as [|p|p]; cbn [binary_normalize].
  - reflexivity.
  - apply binary_round_within; assumption.
  - apply binary_round_within; assumption.
Qed.

Lemma within_weaken (N N' : Z) (s : bool) (x : spec_float) :
  (N <= N')%Z -> within N s x -> within N' s x.
Proof.
  intros H. destruct x as [| | |s' m e]; cbn [within]; try tauto.
  intros (E & He & Hb). split; [exact E|]. split; [exact He|].
  pose proof (@pow2_pos (- e)%Z ltac:(lia)). nia.
Qed.

Lemma SFmul_within (A B : Z) (sa sb : bool) (x y : spec_float) :
  (0 < A)%Z -> (0 < B)%Z -> (A * B < 2 ^ 53)%Z ->
  within A sa x -> within B sb y ->
  within (A * B) (xorb sa sb) (SFmul prec emax x y).
Proof.
  intros HA HB HN Hx Hy.
  destruct x as [sx| | |sx mx ex]; cbn [within] in Hx; try contradiction;
    destruct y as [sy| | |sy my ey]; cbn [within] in Hy; try contradiction;
      cbn [SFmul].
  - subst. reflexivity.
  - destruct Hy as [-> _]. subst. reflexivity.
  - destruct Hx as [-> _]. subst. reflexivity.
  - destruct Hx as (-> & Ex & Bx). destruct Hy as (-> & Ey & By).
    apply binary_round_aux_within; [lia|lia|nia|].
    cbn [loc_inexact Z.b2z]. rewrite Z.add_0_r, Pos2Z.inj_mul.
    pose proof (@pow2_pos (- ex)%Z ltac:(lia)) as P1.
    pose proof (@pow2_pos (- ey)%Z ltac:(lia)) as P2.
    replace (- (ex + ey))%Z with (- ex + - ey)%Z by lia.
    rewrite Z.pow_add_r by lia. nia.
Qed.

(** A sum of two numbers that are not negative. *)
Lemma SFadd_within (A B : Z) (x y : spec_float) :
  (0 < A)%Z -> (0 < B)%Z -> (A + B < 2 ^ 53)%Z ->
  within A false x -> within B false y ->
  within (A + B) false (SFadd prec emax x y).
Proof.
  intros HA HB HN Hx Hy.
  destruct x as [sx| | |sx mx ex]; cbn [within] in Hx; try contradiction;
    destruct y as [sy| | |sy my ey]; cbn [within] in Hy; try contradiction;
      cbn [SFadd].
  - subst. reflexivity.
  - apply within_weaken with (N := B); [lia|exact Hy].
  - apply within_weaken with (N := A); [lia|exact Hx].
  - destruct Hx as (-> & Ex & Bx). destruct Hy as (-> & Ey & By).
    cbn [cond_Zopp].
    rewrite !shl_align_min by lia.
    set (ez := Z.min ex ey).
    pose proof (@pow2_pos (ex - ez)%Z ltac:(lia)) as P1.
    pose proof (@pow2_pos (ey - ez)%Z ltac:(lia)) as P2.
    pose proof (@pow2_pos (- ex)%Z ltac:(lia)) as P3.
    pose proof (@pow2_pos (- ey)%Z ltac:(lia)) as P4.
    assert (E1 : (2 ^ (- ez) = 2 ^ (- ex) * 2 ^ (ex - ez))%Z).
    { rewrite <- Z.pow_add_r by lia. f_equal. lia. }
    assert (E2 : (2 ^ (- ez) = 2 ^ (- ey) * 2 ^ (ey - ez))%Z).
    { rewrite <- Z.pow_add_r by lia. f_equal. lia. }
    set (z := (Z.pos mx * 2 ^ (ex - ez) + Z.pos my * 2 ^ (ey - ez))%Z).
    assert (Hz : (0 < z)%Z) by (unfold z; nia).
    replace false with (Z.ltb z 0) at 1 by (apply Z.ltb_ge; lia).
    apply binary_normalize_within; [lia|lia|].
    rewrite Z.abs_eq by lia. unfold z.
    rewrite Z.mul_add_distr_r. rewrite E1 at 1. rewrite E2. nia.
Qed.

(** A difference: the sign is not known, the magnitude is bounded. *)
Lemma SFsub_within (A B : Z) (sa sb : bool) (x y : spec_float) :
  (0 < A)%Z -> (0 < B)%Z -> (A + B < 2 ^ 53)%Z ->
  within A sa x -> within B sb y ->
  exists s, within (A + B) s (SFsub prec emax x y).
Proof.
  intros HA HB HN Hx Hy.
  destruct x as [sx| | |sx mx ex]; cbn [within] in Hx; try contradiction;
    destruct y as [sy| | |sy my ey]; cbn [within] in Hy; try contradiction;
      cbn [SFsub].
  - destruct sx, sy; eexists; reflexivity.
  - destruct Hy as (_ & Ey & By). exists (negb sy). cbn [within].
    split; [reflexivity|]. split; [exact Ey|].
    pose proof (@pow2_pos (- ey)%Z ltac:(lia)). nia.
  - exists sa. apply within_weaken with (N := A); [lia|exact Hx].
  - destruct Hx as (_ & Ex & Bx). destruct Hy as (_ & Ey & By).
    rewrite !shl_align_min by lia.
    set (ez := Z.min ex ey).
    pose proof (@pow2_pos (ex - ez)%Z ltac:(lia)) as P1.
    pose proof (@pow2_pos (ey - ez)%Z ltac:(lia)) as P2.
    pose proof (@pow2_pos (- ex)%Z ltac:(lia)) as P3.
    pose proof (@pow2_pos (- ey)%Z ltac:(lia)) as P4.
    assert (E1 : (2 ^ (- ez) = 2 ^ (- ex) * 2 ^ (ex - ez))%Z).
    { rewrite <- Z.pow_add_r by lia. f_equal. lia. }
    assert (E2 : (2 ^ (- ez) = 2 ^ (- ey) * 2 ^ (ey - ez))%Z).
    { rewrite <- Z.pow_add_r by lia. f_equal. lia. }
    eexists. apply binary_normalize_within; [lia|lia|].
    rewrite Z.mul_add_distr_r. rewrite E1 at 1. rewrite E2.
    destruct sx, sy; cbn [cond_Zopp]; nia.
Qed.

Lemma new_location_inexact (nb k : Z) :
  loc_inexact (new_location nb k) = negb (k =? 0)%Z.
Proof.
  unfold new_location, new_location_even, new_location_odd.
  destruct (Z.even nb); destruct (k =? 0)%Z; reflexivity.
Qed.

(** The quotient of two ints [c <= n] below [2^53], given as floats. *)
Lemma SFdiv_int_within (c n mx my : positive) (ex ey : Z) :
  (Zpos c <= Zpos n)%Z ->
  (-52 <= ex <= 0)%Z -> Zpos mx = (Zpos c * 2 ^ (- ex))%Z ->
  Zdigits2 (Zpos mx) = 53%Z ->
  (-52 <= ey <= 0)%Z -> Zpos my = (Zpos n * 2 ^ (- ey))%Z ->
  Zdigits2 (Zpos my) = 53%Z ->
  within 1 false
         (SFdiv prec emax (S754_finite false mx ex) (S754_finite false my ey)).
Proof.
  intros Hcn Hex Emx Dmx Hey Emy Dmy.
  cbn [SFdiv xorb]. unfold SFdiv_core_binary. rewrite Dmx, Dmy, fexp_eq.
  replace (Z.min (Z.max (53 + ex - (53 + ey) - 53) (-1074)) (ex - ey))
    with (ex - ey - 53)%Z by lia.
  replace (ex - ey - (ex - ey - 53))%Z with 53%Z by lia.
  rewrite Z.shiftl_mul_pow2 by lia.
  pose proof (Z_div_mod (Z.pos mx * 2 ^ 53) (Z.pos my) ltac:(lia)) as DM.
  destruct (Z.div_eucl (Z.pos mx * 2 ^ 53) (Z.pos my)) as [q r].
  destruct DM as [DM1 DM2].
  assert (Hq : (0 <= q)%Z) by nia.
  apply binary_round_aux_within; [exact Hq|lia|lia|].
  rewrite new_location_inexact.
  pose proof (@pow2_pos (- ex)%Z ltac:(lia)) as P1.
  pose proof (@pow2_pos (- ey)%Z ltac:(lia)) as P2.
  pose proof (@pow2_pos (53 + ey - ex)%Z ltac:(lia)) as P3.
  replace (- (ex - ey - 53))%Z with (53 + ey - ex)%Z by lia.
  assert (E : (2 ^ (53 + ey - ex) * 2 ^ (- ey) = 2 ^ 53 * 2 ^ (- ex))%Z).
  { rewrite <- !Z.pow_add_r by lia. f_equal. lia. }
  assert (L : (Z.pos mx * 2 ^ 53 <= 2 ^ (53 + ey - ex) * Z.pos my)%Z).
  { rewrite Emx, Emy.
    replace (2 ^ (53 + ey - ex) * (Z.pos n * 2 ^ (- ey)))%Z
      with (Z.pos n * (2 ^ (53 + ey - ex) * 2 ^ (- ey)))%Z by ring.
    rewrite E. nia. }
  rewrite Z.mul_1_l.
  destruct (Z.eqb_spec r 0); cbn [negb Z.b2z]; nia.
Qed.

(** *** Identities *)

Lemma SFmul_one (x : spec_float) :
  valid_binary x = true ->
  match x with S754_zero _ | S754_finite _ _ _ => True | _ => False end ->
  SFmul prec emax (S754_finite false 4503599627370496 (-52)) x = x.
Proof.
  intros Hv Hx. destruct x as [s| | |s m e]; try contradiction; cbn [SFmul xorb].
  - reflexivity.
  - cbn [valid_binary] in Hv.
    pose proof (@binary_round_aux_exact s m e 52 Hv ltac:(lia)) as X.
    rewrite Pos2Z.inj_mul.
    replace (Z.pos 4503599627370496 * Z.pos m)%Z with (Z.pos m * 2 ^ 52)%Z
      by (change (2 ^ 52)%Z with 4503599627370496%Z; ring).
    replace (-52 + e)%Z with (e - 52)%Z by lia. exact X.
Qed.

Lemma SFadd_zero_l (x : spec_float) :
  x <> S754_zero true -> SFadd prec emax (S754_zero false) x = x.
Proof. destruct x as [[]|[]| |s m e]; cbn [SFadd]; congruence. Qed.

Lemma SFadd_zero_r (x : spec_float) :
  x <> S754_zero true -> SFadd prec emax x (S754_zero false) = x.
Proof. destruct x as [[]|[]| |s m e]; cbn [SFadd]; congruence. Qed.

Lemma SFsub_same (s : bool) (m : positive) (e : Z) :
  SFsub prec emax (S754_finite s m e) (S754_finite s m e) = S754_zero false.
Proof.
  cbn [SFsub]. rewrite Z.sub_diag. reflexivity.
Qed.

Lemma SFdiv_same (m : positive) (e : Z) :
  Zdigits2 (Zpos m) = 53%Z ->
  SFdiv prec emax (S754_finite false m e) (S754_finite false m e)
  = S754_finite false 4503599627370496 (-52).
Proof.
  intros D. cbn [SFdiv xorb]. unfold SFdiv_core_binary. rewrite D, fexp_eq.
  replace (Z.min (Z.max (53 + e - (53 + e) - 53) (-1074)) (e - e)) with (-53)%Z by lia.
  replace (e - e - -53)%Z with 53%Z by lia.
  rewrite Z.shiftl_mul_pow2 by lia.
  pose proof (Z_div_mod (Z.pos m * 2 ^ 53) (Z.pos m) ltac:(lia)) as DM.
  destruct (Z.div_eucl (Z.pos m * 2 ^ 53) (Z.pos m)) as [q r].
  destruct DM as [DM1 DM2].
  assert (Eq : q = (2 ^ 53)%Z) by nia.
  assert (Er : r = 0%Z) by nia.
  subst q r.
  assert (L : new_location (Z.pos m) 0 = loc_Exact).
  { unfold new_location, new_location_even, new_location_odd.
    destruct (Z.even (Z.pos m)); reflexivity. }
  rewrite L.
  assert (B : bounded prec emax 4503599627370496 (-52) = true) by reflexivity.
  pose proof (@binary_round_aux_exact false 4503599627370496 (-52) 1 B ltac:(lia)) as X.
  exact X.
Qed.

(** A sum of two numbers of any sign. *)
Lemma SFadd_within_any (A B : Z) (sa sb : bool) (x y : spec_float) :
  (0 < A)%Z -> (0 < B)%Z -> (A + B < 2 ^ 53)%Z ->
  within A sa x -> within B sb y ->
  exists s, within (A + B) s (SFadd prec emax x y).
Proof.
  intros HA HB HN Hx Hy.
  destruct x as [sx| | |sx mx ex]; cbn [within] in Hx; try contradiction;
    destruct y as [sy| | |sy my ey]; cbn [within] in Hy; try contradiction;
      cbn [SFadd].
  - destruct sx, sy; eexists; reflexivity.
  - exists sb. apply within_weaken with (N := B); [lia|exact Hy].
  - exists sa. apply within_weaken with (N := A); [lia|exact Hx].
  - destruct Hx as (_ & Ex & Bx). destruct Hy as (_ & Ey & By).
    rewrite !shl_align_min by lia.
    set (ez := Z.min ex ey).
    pose proof (@pow2_pos (ex - ez)%Z ltac:(lia)) as P1.
    pose proof (@pow2_pos (ey - ez)%Z ltac:(lia)) as P2.
    pose proof (@pow2_pos (- ex)%Z ltac:(lia)) as P3.
    pose proof (@pow2_pos (- ey)%Z ltac:(lia)) as P4.
    assert (E1 : (2 ^ (- ez) = 2 ^ (- ex) * 2 ^ (ex - ez))%Z).
    { rewrite <- Z.pow_add_r by lia. f_equal. lia. }
    assert (E2 : (2 ^ (- ez) = 2 ^ (- ey) * 2 ^ (ey - ez))%Z).
    { rewrite <- Z.pow_add_r by lia. f_equal. lia. }
    eexists. apply binary_normalize_within; [lia|lia|].
    rewrite Z.mul_add_distr_r. rewrite E1 at 1. rewrite E2.
    destruct sx, sy; cbn [cond_Zopp]; nia.
Qed.

Lemma within_compare (N : Z) (s : bool) (x : spec_float) :
  within N s x -> SFcompare x x = Some Eq.
Proof.
  destruct x as [sx| | |sx m e]; cbn [within]; try contradiction; intros _.
  - reflexivity.
  - cbn [SFcompare]. destruct sx; rewrite Z.compare_refl, Pos.compare_cont_refl;
      reflexivity.
Qed.

(** ** gini and infoGain in binary64 *)

Lemma float_of_int_zero : Prim2SF (float_of_int 0) = S754_zero false.
Proof. reflexivity. Qed.

Lemma float_of_int_pos (n : nat) :
  (0 < n)%nat -> (Z.of_nat n < 2 ^ 53)%Z ->
  exists m e,
    Prim2SF (float_of_int n) = S754_finite false m e /\
    (-52 <= e <= 0)%Z /\ Zpos m = (Z.of_nat n * 2 ^ (- e))%Z /\
    Zdigits2 (Zpos m) = 53%Z /\
    bounded prec emax m e = true.
Proof.
  intros Hn Hs. unfold float_of_int. rewrite of_uint63_spec, Uint63.of_Z_spec.
  rewrite Z.mod_small.
  2:{ split; [lia|]. change Uint63Axioms.wB with (2 ^ 63)%Z.
      assert ((2:Z) ^ 53 < 2 ^ 63)%Z by (apply Z.pow_lt_mono_r; lia). lia. }
  destruct (Z.of_nat n) as [|p|p] eqn:E; [lia| |lia].
  apply binary_normalize_int. exact Hs.
Qed.

Lemma float_one : Prim2SF PrimFloat.one = S754_finite false 4503599627370496 (-52).
Proof. reflexivity. Qed.

Lemma float_zero : Prim2SF PrimFloat.zero = S754_zero false.
Proof. reflexivity. Qed.

(** [c / n] for two ints [c <= n]. *)
Lemma div_int_within (c n : nat) :
  (c <= n)%nat -> (0 < n)%nat -> (Z.of_nat n < 2 ^ 53)%Z ->
  within 1 false (Prim2SF (PrimFloat.div (float_of_int c) (float_of_int n))).
Proof.
  intros Hc Hn Hs. rewrite div_spec.
  destruct (float_of_int_pos Hn Hs) as (my & ey & Ey & Hey & Emy & Dmy & _).
  rewrite Ey.
  destruct (Nat.eq_dec c 0) as [->|Hc0].
  - rewrite float_of_int_zero. reflexivity.
  - destruct (@float_of_int_pos c ltac:(lia) ltac:(lia))
      as (mx & ex & Ex & Hex & Emx & Dmx & _).
    rewrite Ex.
    destruct (Z.of_nat c) as [|pc|pc] eqn:E1; [lia| |lia].
    destruct (Z.of_nat n) as [|pn|pn] eqn:E2; [lia| |lia].
    apply (@SFdiv_int_within pc pn mx my ex ey); try assumption. lia.
Qed.

Lemma div_zero_int (n : nat) :
  (0 < n)%nat -> (Z.of_nat n < 2 ^ 53)%Z ->
  PrimFloat.div (float_of_int 0) (float_of_int n) = PrimFloat.zero.
Proof.
  intros Hn Hs. apply Prim2SF_inj. rewrite div_spec, float_zero, float_of_int_zero.
  destruct (float_of_int_pos Hn Hs) as (my & ey & Ey & _). rewrite Ey. reflexivity.
Qed.


Lemma mapM_py_div_float (n : nat) (cs : list nat) :
  (0 < n)%nat ->
  mapM (fun prob => py_div_float prob n) cs
  = Ok (map (fun c => PrimFloat.div (float_of_int c) (float_of_int n)) cs).
Proof.
  intros Hn. induction cs as [|c cs IH]; [reflexivity|].
  cbn [mapM map]. rewrite IH. unfold py_div_float.
  destruct (Nat.eqb_spec n 0); [lia|reflexivity].
Qed.

Lemma gini_float_counts (d : dict) :
  (0 < lenDictValues d)%nat -> gini_float d = Ok (gini_float_val (counts d)).
Proof.
  intros H. unfold gini_float, lenDictValues in *.
  rewrite mapM_py_div_float by exact H. reflexivity.
Qed.

Lemma gini_float_empty : gini_float [] = Ok PrimFloat.one.
Proof. reflexivity. Qed.

Lemma in_le_py_sum (cs : list nat) (c : nat) : In c cs -> (c <= py_sum cs)%nat.
Proof.
  induction cs as [|x cs IH]; [contradiction|].
  rewrite py_sum_cons. intros [->|H]; [lia|]. specialize (IH H). lia.
Qed.

Lemma term_within (c n : nat) :
  (c <= n)%nat -> (0 < n)%nat -> (Z.of_nat n < 2 ^ 53)%Z ->
  within 1 false
         (Prim2SF (PrimFloat.mul (PrimFloat.div (float_of_int c) (float_of_int n))
                                 (PrimFloat.div (float_of_int c) (float_of_int n)))).
Proof.
  intros Hc Hn Hs. rewrite mul_spec.
  pose proof (div_int_within Hc Hn Hs) as W.
  apply (@SFmul_within 1 1 false false _ _ ltac:(lia) ltac:(lia) ltac:(reflexivity) W W).
Qed.

Lemma within_zero : within 1 false (Prim2SF PrimFloat.zero).
Proof. rewrite float_zero. reflexivity. Qed.

Lemma within_one : within 1 false (Prim2SF PrimFloat.one).
Proof.
  rewrite float_one. cbn [within]. split; [reflexivity|]. split; [lia|].
  change (2 ^ (- -52))%Z with 4503599627370496%Z. lia.
Qed.

Lemma within_not_neg_zero (N : Z) (x : spec_float) :
  within N false x -> x <> S754_zero true.
Proof. intros H E. rewrite E in H. discriminate H. Qed.

Section Sums.

Variable n : nat.
Hypothesis n_pos : (0 < n)%nat.
Hypothesis n_small : (Z.of_nat n < 2 ^ 53)%Z.

Lemma sum_terms_within (cs : list nat) :
  forall (acc : float) (A : Z),
    (forall c, In c cs -> (c <= n)%nat) ->
    (0 < A)%Z -> (A + Z.of_nat (length cs) < 2 ^ 53)%Z ->
    within A false (Prim2SF acc) ->
    within (A + Z.of_nat (length cs)) false
           (Prim2SF (fold_left PrimFloat.add (gini_float_terms n cs) acc)).
Proof.
  induction cs as [|c cs IH]; intros acc A Hle HA Hs Hacc.
  - simpl. rewrite Z.add_0_r. exact Hacc.
  - cbn [gini_float_terms map fold_left length] in *.
    rewrite Nat2Z.inj_succ in *.
    replace (A + Z.succ (Z.of_nat (length cs)))%Z
      with ((A + 1) + Z.of_nat (length cs))%Z by lia.
    apply IH; [intros x Hx; apply Hle; now right|lia|lia|].
    rewrite add_spec.
    apply SFadd_within; [lia|lia|lia|exact Hacc|].
    apply term_within; [apply Hle; now left|exact n_pos|exact n_small].
Qed.

Lemma sum_terms_filter (cs : list nat) :
  forall (acc : float) (A : Z),
    (forall c, In c cs -> (c <= n)%nat) ->
    (0 < A)%Z -> (A + Z.of_nat (length cs) < 2 ^ 53)%Z ->
    within A false (Prim2SF acc) ->
    fold_left PrimFloat.add
              (gini_float_terms n (filter (fun c => Nat.ltb 0 c) cs)) acc
    = fold_left PrimFloat.add (gini_float_terms n cs) acc.
Proof.
  induction cs as [|c cs IH]; intros acc A Hle HA Hs Hacc; [reflexivity|].
  cbn [length] in Hs. rewrite Nat2Z.inj_succ in Hs.
  cbn [filter]. destruct (Nat.ltb_spec 0 c) as [Hc|Hc].
  - cbn [gini_float_terms map fold_left].
    apply (IH _ (A + 1)%Z); [intros x Hx; apply Hle; now right|lia|lia|].
    rewrite add_spec.
    apply SFadd_within; [lia|lia|lia|exact Hacc|].
    apply term_within; [apply Hle; now left|exact n_pos|exact n_small].
  - assert (c = 0%nat) by lia. subst c.
    cbn [gini_float_terms map fold_left].
    rewrite (div_zero_int n_pos n_small).
    replace (PrimFloat.add acc (PrimFloat.mul PrimFloat.zero PrimFloat.zero)) with acc.
    + apply (IH _ A); [intros x Hx; apply Hle; now right|lia|lia|exact Hacc].
    + apply Prim2SF_inj. rewrite add_spec.
      change (Prim2SF (PrimFloat.mul PrimFloat.zero PrimFloat.zero))
        with (S754_zero false).
      symmetry. apply SFadd_zero_r. eapply within_not_neg_zero. exact Hacc.
Qed.

End Sums.

Lemma gini_float_val_filter (cs : list nat) :
  (0 < py_sum cs)%nat -> (Z.of_nat (py_sum cs) < 2 ^ 53)%Z ->
  (Z.of_nat (length cs) + 1 < 2 ^ 53)%Z ->
  gini_float_val (filter (fun c => Nat.ltb 0 c) cs) = gini_float_val cs.
Proof.
  intros Hn Hs Hl. unfold gini_float_val, py_fsum_float.
  rewrite py_sum_filter_pos.
  rewrite (@sum_terms_filter (py_sum cs) Hn Hs cs PrimFloat.zero 1);
    [reflexivity| |lia|lia|exact within_zero].
  intros c Hc. apply in_le_py_sum. exact Hc.
Qed.

(** [gini] returns a finite number. *)
Lemma gini_float_val_within (cs : list nat) :
  (0 < py_sum cs)%nat -> (Z.of_nat (py_sum cs) < 2 ^ 53)%Z ->
  (Z.of_nat (length cs) + 2 < 2 ^ 53)%Z ->
  exists s, within (Z.of_nat (length cs) + 2) s (Prim2SF (gini_float_val cs)).
Proof.
  intros Hn Hs Hl. unfold gini_float_val, py_fsum_float. rewrite sub_spec.
  pose proof (@sum_terms_within (py_sum cs) Hn Hs cs PrimFloat.zero 1) as W.
  replace (Z.of_nat (length cs) + 2)%Z with (1 + (1 + Z.of_nat (length cs)))%Z by lia.
  apply (@SFsub_within 1 (1 + Z.of_nat (length cs)) false false);
    [lia|lia|lia|exact within_one|].
  apply W; [|lia|lia|exact within_zero].
  intros c Hc. apply in_le_py_sum. exact Hc.
Qed.

(** *** The gain of a cut with an empty side, in binary64 *)

Lemma mul_one_l (g : float) (N : Z) (s : bool) :
  within N s (Prim2SF g) -> PrimFloat.mul PrimFloat.one g = g.
Proof.
  intros W. apply Prim2SF_inj. rewrite mul_spec, float_one.
  apply SFmul_one; [apply Prim2SF_valid|].
  destruct (Prim2SF g); cbn [within] in W; try contradiction; exact I.
Qed.

Lemma sub_self_zero (g g' : float) (N : Z) (s : bool) :
  within N s (Prim2SF g) ->
  Prim2SF g' = SFadd prec emax (S754_zero false) (Prim2SF g) \/
  Prim2SF g' = SFadd prec emax (Prim2SF g) (S754_zero false) ->
  PrimFloat.eqb (PrimFloat.sub g g') PrimFloat.zero = true.
Proof.
  intros W E. rewrite FloatAxioms.eqb_spec, sub_spec, float_zero.
  destruct (Prim2SF g) as [sg| | |sg m e]; cbn [within] in W; try contradiction.
  - destruct E as [E|E]; rewrite E; destruct sg; reflexivity.
  - assert (E' : Prim2SF g' = S754_finite sg m e) by (destruct E as [E|E]; exact E).
    rewrite E'. change (SF64sub (S754_finite sg m e) (S754_finite sg m e))
      with (SFsub prec emax (S754_finite sg m e) (S754_finite sg m e)).
    rewrite SFsub_same. reflexivity.
Qed.

Lemma zero_gain_left (g : float) (N : Z) (s : bool) :
  within N s (Prim2SF g) ->
  PrimFloat.eqb
    (PrimFloat.sub g
       (PrimFloat.add (PrimFloat.mul PrimFloat.zero PrimFloat.one)
                      (PrimFloat.mul (PrimFloat.sub PrimFloat.one PrimFloat.zero) g)))
    PrimFloat.zero = true.
Proof.
  intros W.
  change (PrimFloat.mul PrimFloat.zero PrimFloat.one) with PrimFloat.zero.
  change (PrimFloat.sub PrimFloat.one PrimFloat.zero) with PrimFloat.one.
  rewrite (@mul_one_l g N s W).
  apply (@sub_self_zero g (PrimFloat.add PrimFloat.zero g) N s W).
  left. rewrite add_spec, float_zero. reflexivity.
Qed.

Lemma zero_gain_right (g : float) (N : Z) (s : bool) :
  within N s (Prim2SF g) ->
  PrimFloat.eqb
    (PrimFloat.sub g
       (PrimFloat.add (PrimFloat.mul PrimFloat.one g)
                      (PrimFloat.mul (PrimFloat.sub PrimFloat.one PrimFloat.one)
                                     PrimFloat.one)))
    PrimFloat.zero = true.
Proof.
  intros W.
  change (PrimFloat.mul (PrimFloat.sub PrimFloat.one PrimFloat.one) PrimFloat.one)
    with PrimFloat.zero.
  rewrite (@mul_one_l g N s W).
  apply (@sub_self_zero g (PrimFloat.add g PrimFloat.zero) N s W).
  right. rewrite add_spec, float_zero. reflexivity.
Qed.

Lemma div_same_int (n : nat) :
  (0 < n)%nat -> (Z.of_nat n < 2 ^ 53)%Z ->
  PrimFloat.div (float_of_int n) (float_of_int n) = PrimFloat.one.
Proof.
  intros Hn Hs. apply Prim2SF_inj. rewrite div_spec, float_one.
  destruct (float_of_int_pos Hn Hs) as (m & e & E & _ & _ & D & _). rewrite E.
  apply SFdiv_same. exact D.
Qed.


Lemma small_labels (d : dict) :
  small d -> ((Z.of_nat (length d) + 2) * 4 < 2 ^ 53)%Z.
Proof.
  intros [_ H]. change (2 ^ 53)%Z with (2 ^ 50 * 8)%Z.
  assert (0 < 2 ^ 50)%Z by reflexivity. assert (8 <= 2 ^ 50)%Z by (intros E; discriminate E).
  lia.
Qed.

Lemma counts_length (d : dict) : length (counts d) = length d.
Proof. unfold counts, values. rewrite !length_map. reflexivity. Qed.

Lemma gain_float_empty_left (f : nat) (t : Q) (d : dict) :
  (0 < lenDictValues d)%nat -> small d ->
  (forall v, In v (concat (values d)) -> (f < length v)%nat) ->
  side (below f t) d = [] ->
  exists g,
    infoGain_float d (side (below f t) d) (side (at_least f t) d) = Ok g /\
    PrimFloat.eqb g PrimFloat.zero = true.
Proof.
  intros Hn Hsm Hr E. pose proof (small_labels Hsm) as S2. destruct Hsm as [S1 _].
  assert (Hall : forall v, In v (concat (values d)) -> at_least f t v = true).
  { intros v Hv. rewrite <- below_at_least by (apply Hr; exact Hv).
    rewrite (side_empty_false _ _ E v Hv). reflexivity. }
  pose proof (side_sizes t d Hr) as Hs. rewrite E in Hs.
  change (lenDictValues []) with 0%nat in Hs. simpl in Hs.
  rewrite E. unfold infoGain_float, py_div_float.
  destruct (Nat.eqb_spec (lenDictValues d) 0); [lia|].
  cbn [rbind]. rewrite (gini_float_counts _ Hn), gini_float_empty. cbn [rbind].
  rewrite gini_float_counts by lia. cbn [rbind].
  eexists. split; [reflexivity|].
  rewrite (counts_side_all _ _ Hall).
  rewrite gini_float_val_filter;
    [|exact Hn|exact S1|rewrite counts_length; lia].
  change (lenDictValues []) with 0%nat. rewrite (div_zero_int Hn S1).
  destruct (@gini_float_val_within (counts d)) as [s W];
    [exact Hn|exact S1|rewrite counts_length; lia|].
  apply (@zero_gain_left _ _ _ W).
Qed.

Lemma gain_float_empty_right (f : nat) (t : Q) (d : dict) :
  (0 < lenDictValues d)%nat -> small d ->
  (forall v, In v (concat (values d)) -> (f < length v)%nat) ->
  side (at_least f t) d = [] ->
  exists g,
    infoGain_float d (side (below f t) d) (side (at_least f t) d) = Ok g /\
    PrimFloat.eqb g PrimFloat.zero = true.
Proof.
  intros Hn Hsm Hr E. pose proof (small_labels Hsm) as S2. destruct Hsm as [S1 _].
  assert (Hall : forall v, In v (concat (values d)) -> below f t v = true).
  { intros v Hv. pose proof (side_empty_false _ _ E v Hv) as F.
    rewrite <- below_at_least in F by (apply Hr; exact Hv).
    destruct (below f t v); [reflexivity|discriminate]. }
  pose proof (side_sizes t d Hr) as Hs. rewrite E in Hs.
  change (lenDictValues []) with 0%nat in Hs. rewrite Nat.add_0_r in Hs.
  rewrite E. unfold infoGain_float, py_div_float.
  destruct (Nat.eqb_spec (lenDictValues d) 0); [lia|].
  cbn [rbind]. rewrite (gini_float_counts _ Hn). cbn [rbind].
  rewrite gini_float_counts by lia. cbn [rbind]. rewrite gini_float_empty. cbn [rbind].
  eexists. split; [reflexivity|].
  rewrite (counts_side_all _ _ Hall).
  rewrite gini_float_val_filter;
    [|exact Hn|exact S1|rewrite counts_length; lia].
  rewrite Hs, (div_same_int Hn S1).
  destruct (@gini_float_val_within (counts d)) as [s W];
    [exact Hn|exact S1|rewrite counts_length; lia|].
  apply (@zero_gain_right _ _ _ W).
Qed.

(** ** The builder in binary64 *)


Lemma decisionTree_float_eq (limit : nat) (node : Node) (nb : nat)
      (features : list nat) (max_depth : Z) :
  decisionTree_float limit node nb features max_depth
  = ('(gain, c1, c2, q) <- bestCut_float node nb features ;;
     g <- lift (gini_float (data node)) ;;
     if PrimFloat.eqb g PrimFloat.zero || PrimFloat.eqb gain PrimFloat.zero
        || Z.eqb (Z.of_nat (depth node)) max_depth
     then ret node
     else
       let node := partition node c1 c2 q in
       match limit with
       | O => lift (Raise RecursionError)
       | S limit' =>
           match left_son node, right_son node with
           | Some ls, Some rs =>
               ls' <- decisionTree_float limit' ls nb features (max_depth - 1) ;;
               rs' <- decisionTree_float limit' rs nb features (max_depth - 1) ;;
               ret (mkNode (data node) (question node) (Some ls') (Some rs'))
           | _, _ => lift (Raise AttributeError)
           end
       end)%rnd.
Proof. destruct limit; reflexivity. Qed.

Lemma bestCut_float_sides (node : Node) (features : list nat) (nb_cut : nat) (r : rng) :
  features <> [] ->
  NoDup (keys (data node)) ->
  (forall v, In v (concat (values (data node))) ->
             forall f, In f features -> (f < length v)%nat) ->
  (0 < lenDictValues (data node))%nat ->
  exists gain f t r',
    bestCut_float node nb_cut features r
    = Ok ((gain, side (below f t) (data node), side (at_least f t) (data node),
           (f, t)), r') /\
    In f features /\
    infoGain_float (data node) (side (below f t) (data node))
                   (side (at_least f t) (data node)) = Ok gain.
Proof.
  intros Hf Hd Hr Hn.
  destruct (@bestCut_with_closed infoGain_float node features Hf Hd Hr Hn
              (fun f t => @infoGain_float_side_ok (data node) _ _ Hn) nb_cut r)
    as (cands & r' & i & c & gain & f & _ & _ & Hall & W & Ef & Eb).
  destruct W as (Wn & _ & Wg & _).
  apply nth_error_In in Wn. rewrite Forall_forall in Hall.
  destruct (Hall c Wn) as (f' & t & Ec & Hin). subst c.
  cbn [fst snd] in *. inversion Ef; subst f'.
  exists gain, f, t, r'. repeat split; assumption.
Qed.

Lemma side_length (P : vector -> bool) (d : dict) :
  (length (side P d) <= length d)%nat.
Proof.
  induction d as [|[k l] d IH]; [simpl; lia|].
  rewrite side_cons, length_app. cbn [length].
  destruct (filter P l); simpl; lia.
Qed.

Lemma side_small (f : nat) (t : Q) (d : dict) :
  (forall v, In v (concat (values d)) -> (f < length v)%nat) ->
  small d -> small (side (below f t) d) /\ small (side (at_least f t) d).
Proof.
  intros Hr [S1 S2]. pose proof (side_sizes t d Hr) as Hs.
  pose proof (side_length (below f t) d). pose proof (side_length (at_least f t) d).
  unfold small. lia.
Qed.


(** *** The binary64 gain is a number *)

Lemma gini_float_within (d : dict) (N : Z) :
  d = [] \/ (0 < lenDictValues d)%nat ->
  (Z.of_nat (lenDictValues d) < 2 ^ 53)%Z ->
  (Z.of_nat (length d) + 2 <= N)%Z -> (N < 2 ^ 53)%Z ->
  exists g s, gini_float d = Ok g /\ within N s (Prim2SF g).
Proof.
  intros [->|Hn] S1 S2 S3.
  - exists PrimFloat.one, false. split; [reflexivity|].
    apply within_weaken with (N := 1%Z); [simpl in S2; lia|exact within_one].
  - rewrite (gini_float_counts _ Hn).
    destruct (@gini_float_val_within (counts d)) as [s W];
      [exact Hn|exact S1|rewrite counts_length; lia|].
    rewrite counts_length in W.
    eexists; exists s. split; [reflexivity|].
    apply within_weaken with (N := (Z.of_nat (length d) + 2)%Z); [lia|exact W].
Qed.

Lemma within_is_nan (N : Z) (s : bool) (g : float) :
  within N s (Prim2SF g) -> PrimFloat.is_nan g = false.
Proof.
  intros W. unfold PrimFloat.is_nan. rewrite FloatAxioms.eqb_spec. unfold SFeqb.
  rewrite (within_compare _ _ _ W). reflexivity.
Qed.

Lemma infoGain_float_finite (f : nat) (t : Q) (d : dict) :
  (0 < lenDictValues d)%nat -> small d ->
  (forall v, In v (concat (values d)) -> (f < length v)%nat) ->
  exists g,
    infoGain_float d (side (below f t) d) (side (at_least f t) d) = Ok g /\
    PrimFloat.is_nan g = false.
Proof.
  intros Hn Hsm Hr. pose proof (small_labels Hsm) as S2. destruct Hsm as [S1 S3].
  pose proof (side_sizes t d Hr) as Hs.
  pose proof (side_length (below f t) d) as L1.
  pose proof (side_length (at_least f t) d) as L2.
  set (N := (Z.of_nat (length d) + 2)%Z) in *.
  assert (HN : (0 < N)%Z) by (unfold N; lia).
  assert (Side : forall P, d = d -> side P d = [] \/ (0 < lenDictValues (side P d))%nat).
  { intros P _. destruct (side P d) eqn:E; [now left|right].
    rewrite <- E. apply no_empty_len; [apply side_no_empty|]. now rewrite E. }
  destruct (@gini_float_within d N (or_intror Hn) S1 ltac:(unfold N; lia) ltac:(lia))
    as (g & sg & Eg & Wg).
  destruct (@gini_float_within (side (below f t) d) N (Side _ eq_refl)
              ltac:(lia) ltac:(unfold N; lia) ltac:(lia)) as (g1 & s1 & Eg1 & W1).
  destruct (@gini_float_within (side (at_least f t) d) N (Side _ eq_refl)
              ltac:(lia) ltac:(unfold N; lia) ltac:(lia)) as (g2 & s2 & Eg2 & W2).
  unfold infoGain_float, py_div_float.
  destruct (Nat.eqb_spec (lenDictValues d) 0); [lia|].
  cbn [rbind]. rewrite Eg, Eg1, Eg2. cbn [rbind].
  eexists. split; [reflexivity|].
  set (p := PrimFloat.div (float_of_int (lenDictValues (side (below f t) d)))
                          (float_of_int (lenDictValues d))).
  assert (Wp : within 1 false (Prim2SF p)).
  { apply div_int_within; [lia|exact Hn|exact S1]. }
  assert (Wa : within (1 * N) (xorb false s1) (Prim2SF (PrimFloat.mul p g1))).
  { rewrite mul_spec. apply SFmul_within; [lia|lia|lia|exact Wp|exact W1]. }
  destruct (@SFsub_within 1 1 false false (Prim2SF PrimFloat.one) (Prim2SF p))
    as [sq Wq]; [lia|lia|reflexivity|exact within_one|exact Wp|].
  rewrite <- sub_spec in Wq.
  assert (Wb : within ((1 + 1) * N) (xorb sq s2)
                      (Prim2SF (PrimFloat.mul (PrimFloat.sub PrimFloat.one p) g2))).
  { rewrite mul_spec. apply SFmul_within; [lia|lia|lia|exact Wq|exact W2]. }
  destruct (@SFadd_within_any (1 * N) ((1 + 1) * N) _ _ _ _
              ltac:(lia) ltac:(lia) ltac:(lia) Wa Wb) as [sc Wc].
  rewrite <- add_spec in Wc.
  destruct (@SFsub_within N (1 * N + (1 + 1) * N) _ _ _ _
              ltac:(lia) ltac:(lia) ltac:(lia) Wg Wc) as [sr Wr].
  rewrite <- sub_spec in Wr.
  apply (within_is_nan _ _ _ Wr).
Qed.

Section BuildFloat.

Variable nb : nat.
Variable features : list nat.
Hypothesis features_nonempty : features <> [].

(** A run of the builder ends in one of two ways: with RecursionError, which
    takes a dataset of more than [limit + 1] vectors and a depth bound that
    is negative or above [limit]; or with a tree. *)
Lemma decisionTree_float_spec (limit : nat) :
  forall (d : dict) (max_depth : Z) (r : rng),
    well_formed features d -> small d ->
    match decisionTree_float limit (newNode d) nb features max_depth r with
    | Raise e =>
        e = RecursionError /\
        (S limit < lenDictValues d)%nat /\
        ~ (0 <= max_depth <= Z.of_nat limit)%Z
    | Ok (tree, _) =>
        data tree = d /\
        Forall (fun n => node_ok features n /\ small (data n)) (nodes tree) /\
        ((0 <= max_depth)%Z -> (Z.of_nat (depth tree) <= max_depth)%Z) /\
        (max_depth = 0%Z -> tree = newNode d)
    end.
Proof.
  induction limit as [|limit IH]; intros d max_depth r Hwf Hsm;
    pose proof Hwf as (Hd & Hr & Hn);
    rewrite decisionTree_float_eq;
    destruct (@bestCut_float_sides (newNode d) features nb r features_nonempty Hd Hr Hn)
      as (gain & f & t & r1 & Eb & Hin & Eg);
    cbn [data newNode] in *;
    unfold mbind at 1; rewrite Eb;
    unfold mbind at 1; unfold lift at 1; cbn [data newNode];
    rewrite (gini_float_counts _ Hn);
    change (depth (newNode d)) with 0%nat;
    destruct (PrimFloat.eqb (gini_float_val (counts d)) PrimFloat.zero
              || PrimFloat.eqb gain PrimFloat.zero
              || Z.eqb (Z.of_nat 0) max_depth) eqn:Estop.
  1, 3: unfold ret; split; [reflexivity|];
    split;
    [constructor; [|constructor]; split; [|exact Hsm];
     split; [apply shape_ok_leaf|];
     split; [exact Hwf|]; intros f' t' Hq; discriminate Hq
    |split; [intros H; simpl; exact H|reflexivity]].
  all: apply orb_false_iff in Estop; destruct Estop as [Estop Emd];
    apply orb_false_iff in Estop; destruct Estop as [_ Egain];
    apply Z.eqb_neq in Emd;
    assert (Hrf : forall v, In v (concat (values d)) -> (f < length v)%nat)
      by (intros v Hv; apply (Hr v Hv f Hin));
    assert (H1 : side (below f t) d <> [])
      by (intros E; destruct (gain_float_empty_left t Hn Hsm Hrf E) as (g & Eg' & Hz);
          rewrite Eg in Eg'; inversion Eg'; subst g; congruence);
    assert (H2 : side (at_least f t) d <> [])
      by (intros E; destruct (gain_float_empty_right t Hn Hsm Hrf E) as (g & Eg' & Hz);
          rewrite Eg in Eg'; inversion Eg'; subst g; congruence);
    pose proof (@side_well_formed features (below f t) d Hwf H1) as W1;
    pose proof (@side_well_formed features (at_least f t) d Hwf H2) as W2;
    pose proof (side_sizes t d Hrf) as Hs;
    destruct (side_small t Hrf Hsm) as [Sm1 Sm2];
    pose proof W1 as (_ & _ & N1); pose proof W2 as (_ & _ & N2).
  - cbn [lift]. split; [reflexivity|]. split; [lia|]. simpl in Emd. lia.
  - cbn [partition left_son right_son data question newNode].
    pose proof (IH (side (below f t) d) (max_depth - 1)%Z r1 W1 Sm1) as IHl.
    unfold mbind at 1.
    destruct (decisionTree_float limit (newNode (side (below f t) d)) nb features
                                 (max_depth - 1) r1) as [[lt r2]|e].
    2:{ destruct IHl as (-> & Bl & Ml). split; [reflexivity|]. split; lia. }
    destruct IHl as (Dl & Nl & Hdl & _).
    pose proof (IH (side (at_least f t) d) (max_depth - 1)%Z r2 W2 Sm2) as IHr.
    unfold mbind at 1.
    destruct (decisionTree_float limit (newNode (side (at_least f t) d)) nb features
                                 (max_depth - 1) r2) as [[rt r3]|e].
    2:{ destruct IHr as (-> & Br & Mr). split; [reflexivity|]. split; lia. }
    destruct IHr as (Dr & Nr & Hdr & _).
    unfold ret. split; [reflexivity|].
    split.
    { cbn [nodes]. constructor.
      - split; [|exact Hsm].
        split; [apply shape_ok_internal|]. split; [exact Hwf|].
        cbn [question left_son right_son data].
        intros f' t' Hq. inversion Hq; subst f' t'.
        split; [exact Hin|].
        split; eexists; (split; [reflexivity|]); split; auto;
          [rewrite Dl|rewrite Dr]; assumption.
      - apply Forall_app. split; assumption. }
    split.
    { intros Hmd. rewrite depth_two_sons.
      assert (Z.of_nat (depth lt) <= max_depth - 1)%Z by (apply Hdl; lia).
      assert (Z.of_nat (depth rt) <= max_depth - 1)%Z by (apply Hdr; lia).
      lia. }
    intros E. simpl in Emd. congruence.
Qed.

End BuildFloat.

(** C10: for a dataset that holds at least one vector (distinct keys, every
    vector long enough for the allowed features, of which there is at least
    one; fewer than [2^53] vectors and [2^50] labels, so that the counts are
    floats), the builder, with its gains and its tests in binary64, ends in
    one of two ways.  Either it runs out of nested calls and raises
    RecursionError, which takes more than [recursion_limit + 1] vectors and
    a depth bound that is negative or above the limit.  Or it returns a
    tree, in which every node holds at least one vector, hence at least one
    label, and so does each son of every node; at every node the binary64
    gain of a cut of its dataset with an empty side passes the test
    [gain == 0], which is why the builder never partitions on such a cut;
    and [classify] returns a label for every vector that has the values the
    tree asks for.  No other error is raised: no division meets a zero
    count. *)
Theorem decisionTree_float_nodes_nonempty (recursion_limit nb : nat)
        (features : list nat) (d : dict) (max_depth : Z) (r : rng) :
  features <> [] ->
  distinct (keys d) = true ->
  in_range features d = true ->
  (0 < lenDictValues d)%nat ->
  small d ->
  (decisionTree_float recursion_limit (newNode d) nb features max_depth r
   = Raise RecursionError /\
   (S recursion_limit < lenDictValues d)%nat /\
   ~ (0 <= max_depth <= Z.of_nat recursion_limit)%Z) \/
  (exists tree r',
      decisionTree_float recursion_limit (newNode d) nb features max_depth r
      = Ok (tree, r') /\
      Forall (fun n =>
                (0 < lenDictValues (data n))%nat /\ data n <> [] /\
                (forall l, left_son n = Some l -> (0 < lenDictValues (data l))%nat) /\
                (forall rs, right_son n = Some rs ->
                            (0 < lenDictValues (data rs))%nat) /\
                (forall f t,
                    In f features ->
                    side (below f t) (data n) = [] \/
                    side (at_least f t) (data n) = [] ->
                    exists g,
                      infoGain_float (data n) (side (below f t) (data n))
                                     (side (at_least f t) (data n)) = Ok g /\
                      PrimFloat.eqb g PrimFloat.zero = true))
             (nodes tree) /\
      (forall v, has_values tree v = true -> exists k, classify tree v = Ok k)).
Proof.
  intros Hf Hd Hr Hn Hsm. apply distinct_NoDup in Hd. rewrite in_range_spec in Hr.
  pose proof (@decisionTree_float_spec nb features Hf recursion_limit d max_depth r
                (conj Hd (conj Hr Hn)) Hsm) as S.
  destruct (decisionTree_float recursion_limit (newNode d) nb features max_depth r)
    as [[tree r']|e].
  2:{ left. destruct S as (-> & B & M). split; [reflexivity|]. split; assumption. }
  right. destruct S as (_ & Hall & _).
  exists tree, r'. split; [reflexivity|]. split.
  - eapply Forall_impl; [|exact Hall]. intros n [Hok Hs].
    pose proof (@node_ok_sons features n Hok) as [Sl Sr].
    destruct Hok as (_ & (Hnd & Hrange & Hpos) & _).
    split; [exact Hpos|]. split.
    { intros E0. rewrite E0 in Hpos. cbv in Hpos. lia. }
    split; [exact Sl|]. split; [exact Sr|].
    intros f t Hin [E0|E0].
    + apply gain_float_empty_left; auto.
    + apply gain_float_empty_right; auto.
  - intros v Hv.
    assert (Hshape : Forall shape_ok (nodes tree)).
    { eapply Forall_impl; [|exact Hall]. intros n [Hok _]. apply Hok. }
    destruct (@classify_walk_route v tree Hshape Hv) as (Ew & Hin & _).
    rewrite Forall_forall in Hall.
    destruct (Hall _ Hin) as ((_ & (_ & _ & Hpos) & _) & _).
    destruct (@classify_prediction tree (route tree v) v Ew) as (k & Ek & _).
    { intros E0. rewrite E0 in Hpos. cbv in Hpos. lia. }
    exists k. exact Ek.
Qed.

(** X20: under the same conditions, when the dataset has at most
    [recursion_limit + 1] vectors or the depth bound lies between 0 and
    [recursion_limit], the builder in binary64 returns a tree; it has the
    dataset at its root, its depth is at most [max_depth] when that bound is
    not negative, every node of it is a leaf (no question, no son) or has a
    question and two sons, and it is the root alone when [max_depth = 0]:
    the depth and shape of the tree do not depend on the arithmetic of the
    gains. *)
Theorem decisionTree_float_shape_depth (recursion_limit nb : nat)
        (features : list nat) (d : dict) (max_depth : Z) (r : rng) :
  features <> [] ->
  distinct (keys d) = true ->
  in_range features d = true ->
  (0 < lenDictValues d)%nat ->
  small d ->
  (lenDictValues d <= S recursion_limit)%nat \/
  (0 <= max_depth <= Z.of_nat recursion_limit)%Z ->
  exists tree r',
    decisionTree_float recursion_limit (newNode d) nb features max_depth r
    = Ok (tree, r') /\
    data tree = d /\
    Forall shape_ok (nodes tree) /\
    ((0 <= max_depth)%Z -> (Z.of_nat (depth tree) <= max_depth)%Z) /\
    (max_depth = 0%Z -> tree = newNode d).
Proof.
  intros Hf Hd Hr Hn Hsm Hfit. apply distinct_NoDup in Hd. rewrite in_range_spec in Hr.
  pose proof (@decisionTree_float_spec nb features Hf recursion_limit d max_depth r
                (conj Hd (conj Hr Hn)) Hsm) as S.
  destruct (decisionTree_float recursion_limit (newNode d) nb features max_depth r)
    as [[tree r']|e].
  2:{ destruct S as (_ & B & M). destruct Hfit; [lia|contradiction]. }
  destruct S as (Ed & Hall & Hdepth & Hzero).
  exists tree, r'. split; [reflexivity|]. split; [exact Ed|]. split.
  - eapply Forall_impl; [|exact Hall]. intros n [Hok _]. apply Hok.
  - split; assumption.
Qed.

(** X21: on such a dataset the binary64 gain of every cut on a feature that
    the vectors have is a number: [infoGain] returns, and what it returns is
    not a NaN, so it compares with every other gain. *)
Theorem infoGain_float_number (f : nat) (t : Q) (d : dict) :
  (0 < lenDictValues d)%nat ->
  small d ->
  (forall v, In v (concat (values d)) -> (f < length v)%nat) ->
  exists g,
    infoGain_float d (side (below f t) d) (side (at_least f t) d) = Ok g /\
    PrimFloat.is_nan g = false /\
    gt_float g g = false /\
    (forall g', PrimFloat.is_nan g' = false ->
                gt_float g g' = true \/ gt_float g' g = true \/
                PrimFloat.eqb g g' = true).
Proof.
  intros Hn Hsm Hr.
  destruct (@infoGain_float_finite f t d Hn Hsm Hr) as (g & Eg & Hnan).
  exists g. split; [exact Eg|]. split; [exact Hnan|].
  split; [apply gt_float_irrefl|].
  intros g' Hnan'. unfold gt_float. rewrite !ltb_spec, FloatAxioms.eqb_spec.
  apply is_nan_false in Hnan. apply is_nan_false in Hnan'.
  apply SFcompare_total; assumption.
Qed.

Lemma decisionTree_float_shape_depth_witness :
  exists tree r',
    decisionTree_float 1 (newNode noise_data) 2 [0%nat] 1 noise_draws = Ok (tree, r') /\
    data tree = noise_data /\
    Forall shape_ok (nodes tree) /\
    (Z.of_nat (depth tree) <= 1)%Z.
Proof.
  destruct (@decisionTree_float_shape_depth 1 2 [0%nat] noise_data 1 noise_draws)
    as (tree & r' & E & Ed & Hs & Hdepth & _).
  - discriminate.
  - reflexivity.
  - reflexivity.
  - vm_compute. lia.
  - split; vm_compute; reflexivity.
  - right. lia.
  - exists tree, r'. repeat (split; [assumption|]). apply Hdepth. lia.
Defined.

Lemma infoGain_float_number_witness :
  exists g,
    infoGain_float tie_data (side (below 0 5) tie_data) (side (at_least 0 5) tie_data)
    = Ok g /\
    PrimFloat.is_nan g = false /\
    gt_float g g = false /\
    (forall g', PrimFloat.is_nan g' = false ->
                gt_float g g' = true \/ gt_float g' g = true \/
                PrimFloat.eqb g g' = true).
Proof.
  apply (@infoGain_float_number 0 5 tie_data).
  - vm_compute. lia.
  - split; vm_compute; reflexivity.
  - intros v Hv. simpl in Hv.
    repeat (destruct Hv as [<-|Hv]; [simpl; lia|]). contradiction.
Defined.

(** X22: classification on a tree built in binary64.  Let [tree] be returned
    by the builder for a dataset as above and let [v] have a value at every
    feature index the tree asks for.  Then [classify tree v] returns a label
    [k]; the node reached by routing [v] is a leaf of the tree; [k] is a
    label of that leaf's dataset, the first one that holds the most vectors;
    and at every node with a question [(f, t)], classification goes on in
    the left son when [v[f] <= t] and in the right son otherwise. *)
Theorem classify_float_tree (recursion_limit nb : nat) (features : list nat)
        (d : dict) (max_depth : Z) (r r' : rng) (tree : Node) (v : vector) :
  features <> [] ->
  distinct (keys d) = true ->
  in_range features d = true ->
  (0 < lenDictValues d)%nat ->
  small d ->
  decisionTree_float recursion_limit (newNode d) nb features max_depth r
  = Ok (tree, r') ->
  has_values tree v = true ->
  (exists k,
      classify tree v = Ok k /\
      In (route tree v) (nodes tree) /\
      question (route tree v) = None /\
      left_son (route tree v) = None /\
      right_son (route tree v) = None /\
      In k (keys (data (route tree v))) /\
      majority (data (route tree v)) k) /\
  (forall n f t,
      In n (nodes tree) -> question n = Some (f, t) ->
      exists x l rs,
        nth_error v f = Some x /\
        left_son n = Some l /\ right_son n = Some rs /\
        classify n v = if Qle_bool x t then classify l v else classify rs v).
Proof.
  intros Hf Hd Hr Hn Hsm Eb Hv.
  apply distinct_NoDup in Hd. rewrite in_range_spec in Hr.
  pose proof (@decisionTree_float_spec nb features Hf recursion_limit d max_depth r
                (conj Hd (conj Hr Hn)) Hsm) as S.
  rewrite Eb in S. destruct S as (_ & Hall' & _).
  assert (Hall : Forall (node_ok features) (nodes tree)).
  { eapply Forall_impl; [|exact Hall']. intros n [Hok _]. exact Hok. }
  assert (Hshape : Forall shape_ok (nodes tree)).
  { eapply Forall_impl; [|exact Hall]. intros n Hok. apply Hok. }
  rewrite Forall_forall in Hall, Hshape.
  split.
  - destruct (@classify_walk_route v tree (proj2 (Forall_forall _ _) Hshape) Hv)
      as (Ew & Hin & Hq).
    destruct (Hall _ Hin) as ((_ & _ & Hleaf) & (_ & _ & Hpos) & _).
    destruct (@classify_prediction tree (route tree v) v Ew) as (k & Ek & Hk & Hm).
    { intros E0. rewrite E0 in Hpos. cbv in Hpos. lia. }
    destruct (Hleaf Hq) as [L1 L2].
    exists k. repeat split; assumption.
  - intros n f t Hin Hq.
    destruct (Hall _ Hin) as (_ & _ & Hsons).
    destruct (Hsons f t Hq) as (_ & (l & El & _) & (rs & Er & _)).
    assert (Hfv : (f < length v)%nat).
    { unfold has_values in Hv. rewrite forallb_forall in Hv.
      specialize (Hv n Hin). rewrite Hq in Hv. apply Nat.ltb_lt. exact Hv. }
    destruct (nth_error v f) as [x|] eqn:Ex.
    2:{ apply nth_error_None in Ex. lia. }
    destruct (son_in_nodes n) as [Sl Sr].
    pose proof (@nodes_sub tree n Hin) as Hsub.
    assert (Hl : shape_ok l) by (apply Hshape, Hsub, Sl, El).
    assert (Hrs : shape_ok rs) by (apply Hshape, Hsub, Sr, Er).
    exists x, l, rs. repeat split; try assumption.
    destruct n as [dn qn ln rn]. cbn [question left_son right_son] in *. subst.
    unfold classify.
    rewrite (proj1 (@classify_walk_step dn f t x l rs v Ex Hl Hrs)).
    destruct (Qle_bool x t); reflexivity.
Qed.

Lemma classify_float_tree_witness :
  exists tree r',
    decisionTree_float 8 (newNode noise_data) 2 [0%nat] 5 noise_draws = Ok (tree, r') /\
    classify tree [3] = Ok 1%Z /\
    data (route tree [3]) = [(0%Z, [[0]]); (1%Z, [[1]; [2]])] /\
    (exists k,
        classify tree [3] = Ok k /\
        In (route tree [3]) (nodes tree) /\
        question (route tree [3]) = None /\
        left_son (route tree [3]) = None /\
        right_son (route tree [3]) = None /\
        In k (keys (data (route tree [3]))) /\
        majority (data (route tree [3])) k).
Proof.
  destruct (decisionTree_float 8 (newNode noise_data) 2 [0%nat] 5 noise_draws)
    as [[tree r']|e] eqn:E.
  2:{ vm_compute in E. discriminate E. }
  exists tree, r'. split; [reflexivity|].
  destruct (@classify_float_tree 8 2 [0%nat] noise_data 5 noise_draws r' tree [3])
    as [H _].
  - discriminate.
  - reflexivity.
  - reflexivity.
  - vm_compute. lia.
  - split; vm_compute; reflexivity.
  - exact E.
  - vm_compute in E. inversion E; subst tree. reflexivity.
  - vm_compute in E. inversion E; subst tree.
    split; [reflexivity|]. split; [reflexivity|]. exact H.
Defined.

(** ** The gain of an exact partition is not negative *)

Lemma lcount_app (k : label) (a b : list (label * vector)) :
  lcount k (a ++ b) = (lcount k a + lcount k b)%nat.
Proof. unfold lcount. rewrite filter_app, length_app. reflexivity. Qed.

Lemma lcount_perm (k : label) (a b : list (label * vector)) :
  Permutation a b -> lcount k a = lcount k b.
Proof.
  intros P. unfold lcount. apply Permutation_length.
  induction P; simpl.
  - constructor.
  - destruct (_ =? _)%Z; [apply perm_skip|]; assumption.
  - do 2 destruct (_ =? _)%Z; try apply perm_swap; reflexivity.
  - etransitivity; eassumption.
Qed.

Lemma lcount_map_pair (k k0 : label) (v : list vector) :
  lcount k (map (pair k0) v) = if Z.eqb k0 k then length v else 0%nat.
Proof.
  unfold lcount. induction v as [|x v IH]; simpl.
  - destruct (Z.eqb k0 k); reflexivity.
  - destruct (Z.eqb k0 k); simpl; [f_equal|]; exact IH.
Qed.

Lemma lcount_absent (k : label) (d : dict) :
  ~ In k (keys d) -> lcount k (flatten d) = 0%nat.
Proof.
  induction d as [|[k0 v] d IH]; intros H; [reflexivity|].
  rewrite flatten_cons, lcount_app, lcount_map_pair. simpl in H.
  destruct (Z.eqb_spec k0 k) as [->|_]; [exfalso; apply H; now left|].
  rewrite IH; [reflexivity|]. intros Hin. apply H. now right.
Qed.

Lemma list_sum_map_add {A} (f h : A -> nat) (K : list A) :
  list_sum (map (fun k => f k + h k)%nat K)
  = (list_sum (map f K) + list_sum (map h K))%nat.
Proof. induction K as [|k K IH]; simpl; [reflexivity|]. rewrite IH. lia. Qed.

Lemma list_sum_map_ext {A} (f h : A -> nat) (K : list A) :
  (forall k, In k K -> f k = h k) -> list_sum (map f K) = list_sum (map h K).
Proof.
  induction K as [|k K IH]; intros H; simpl; [reflexivity|].
  rewrite (H k) by now left. rewrite IH; [reflexivity|].
  intros x Hx. apply H. now right.
Qed.

Lemma ksum_indicator (k0 : label) (a : nat) (K : list label) :
  NoDup K ->
  list_sum (map (fun k : label => if Z.eqb k0 k then a else 0%nat) K)
  = if existsb (Z.eqb k0) K then a else 0%nat.
Proof.
  induction K as [|k K IH]; intros H; simpl; [reflexivity|].
  inversion H as [|? ? Hn Hd]; subst. rewrite (IH Hd).
  destruct (Z.eqb_spec k0 k) as [->|Hne]; simpl; [|reflexivity].
  destruct (existsb (Z.eqb k) K) eqn:E; [|lia].
  apply existsb_exists in E. destruct E as [y [Hy Ey]].
  apply Z.eqb_eq in Ey. subst y. contradiction.
Qed.

(** A sum over the labels of a dictionary is a sum over any duplicate-free
    list of keys that contains them. *)
Lemma ksum_dict (g : nat -> nat) (K : list label) (d : dict) :
  g 0%nat = 0%nat ->
  NoDup (keys d) -> NoDup K -> incl (keys d) K ->
  list_sum (map g (counts d))
  = list_sum (map (fun k => g (lcount k (flatten d))) K).
Proof.
  intros g0 Hd HK. induction d as [|[k0 v] d IH]; intros Hincl.
  - simpl. induction K as [|k K IHK]; simpl; [reflexivity|].
    inversion HK; subst. unfold lcount at 1. simpl. rewrite g0. now apply IHK.
  - inversion Hd as [|? ? Hn Hd']; subst.
    change (list_sum (map g (counts ((k0, v) :: d))))
      with (g (length v) + list_sum (map g (counts d)))%nat.
    rewrite IH; [|exact Hd'|].
    2:{ intros x Hx. apply Hincl. now right. }
    assert (E : forall k, In k K ->
                g (lcount k (flatten ((k0, v) :: d)))
                = ((if Z.eqb k0 k then g (length v) else 0) + 
                   (if Z.eqb k0 k then 0 else g (lcount k (flatten d))))%nat).
    { intros k _. rewrite flatten_cons, lcount_app, lcount_map_pair.
      destruct (Z.eqb_spec k0 k) as [<-|Hne]; simpl.
      - rewrite (@lcount_absent k0 d Hn), !Nat.add_0_r. reflexivity.
      - reflexivity. }
    rewrite (@list_sum_map_ext _ _ _ K E), list_sum_map_add.
    rewrite (@ksum_indicator k0 (g (length v)) K HK).
    assert (Hin : existsb (Z.eqb k0) K = true).
    { apply existsb_exists. exists k0. split; [apply Hincl; now left|apply Z.eqb_refl]. }
    rewrite Hin. f_equal.
    apply list_sum_map_ext. intros k _.
    destruct (Z.eqb_spec k0 k) as [<-|Hne]; [|reflexivity].
    rewrite (@lcount_absent k0 d Hn). exact g0.
Qed.

Lemma two_ab_le_squares (a b : nat) : (2 * a * b <= a * a + b * b)%nat.
Proof.
  destruct (Nat.le_ge_cases a b) as [Hab|Hab].
  - replace b with (a + (b - a))%nat by lia. nia.
  - replace a with (b + (a - b))%nat by lia. nia.
Qed.

Lemma term_ineq (A B x y : nat) :
  (A * B * ((x + y) * (x + y)) <= (A + B) * (B * (x * x) + A * (y * y)))%nat.
Proof.
  pose proof (two_ab_le_squares (A * y) (B * x)) as H. nia.
Qed.

Lemma split_sum_ineq (A B : nat) (x y : label -> nat) (K : list label) :
  (A * B * list_sum (map (fun k => (x k + y k) * (x k + y k))%nat K)
   <= (A + B) * (B * list_sum (map (fun k => x k * x k)%nat K)
                 + A * list_sum (map (fun k => y k * y k)%nat K)))%nat.
Proof.
  induction K as [|k K IH]; simpl; [lia|].
  pose proof (term_ineq A B (x k) (y k)) as T.
  set (sc := list_sum (map (fun k => (x k + y k) * (x k + y k))%nat K)) in *.
  set (sl := list_sum (map (fun k => x k * x k)%nat K)) in *.
  set (sr := list_sum (map (fun k => y k * y k)%nat K)) in *.
  set (tc := ((x k + y k) * (x k + y k))%nat) in *.
  set (tl := (x k * x k)%nat) in *. set (tr := (y k * y k)%nat) in *.
  clearbody sc sl sr tc tl tr. nia.
Qed.

Lemma sumsq_keys (K : list label) (d : dict) :
  NoDup (keys d) -> NoDup K -> incl (keys d) K ->
  sumsq (counts d)
  = list_sum (map (fun k => lcount k (flatten d) * lcount k (flatten d))%nat K).
Proof.
  intros Hd HK Hincl. unfold sumsq.
  apply (@ksum_dict (fun c => c * c)%nat K d eq_refl Hd HK Hincl).
Qed.

Section ExactPartition.

Variables c l r : dict.
Hypothesis keys_c : NoDup (keys c).
Hypothesis keys_l : NoDup (keys l).
Hypothesis keys_r : NoDup (keys r).
Hypothesis exact : Permutation (flatten c) (flatten l ++ flatten r).

Lemma partition_sizes :
  lenDictValues c = (lenDictValues l + lenDictValues r)%nat.
Proof.
  rewrite !lenDictValues_flatten, (Permutation_length exact), length_app.
  reflexivity.
Qed.

Lemma partition_lcount (k : label) :
  lcount k (flatten c) = (lcount k (flatten l) + lcount k (flatten r))%nat.
Proof. rewrite (lcount_perm k exact), lcount_app. reflexivity. Qed.

Lemma partition_sumsq :
  exists K,
    sumsq (counts c)
    = list_sum (map (fun k => (lcount k (flatten l) + lcount k (flatten r))
                              * (lcount k (flatten l) + lcount k (flatten r)))%nat K) /\
    sumsq (counts l)
    = list_sum (map (fun k => lcount k (flatten l) * lcount k (flatten l))%nat K) /\
    sumsq (counts r)
    = list_sum (map (fun k => lcount k (flatten r) * lcount k (flatten r))%nat K).
Proof.
  set (K := nodup Z.eq_dec (keys c ++ keys l ++ keys r)).
  assert (HK : NoDup K) by apply NoDup_nodup.
  assert (Ic : incl (keys c) K).
  { intros k Hk. apply nodup_In. apply in_or_app. now left. }
  assert (Il : incl (keys l) K).
  { intros k Hk. apply nodup_In. apply in_or_app. right. apply in_or_app. now left. }
  assert (Ir : incl (keys r) K).
  { intros k Hk. apply nodup_In. apply in_or_app. right. apply in_or_app. now right. }
  exists K. split; [|split].
  - rewrite (@sumsq_keys K c keys_c HK Ic). apply list_sum_map_ext.
    intros k _. rewrite partition_lcount. reflexivity.
  - apply (@sumsq_keys K l keys_l HK Il).
  - apply (@sumsq_keys K r keys_r HK Ir).
Qed.

Lemma partition_ineq :
  (lenDictValues l * lenDictValues r * sumsq (counts c)
   <= (lenDictValues l + lenDictValues r)
      * (lenDictValues r * sumsq (counts l) + lenDictValues l * sumsq (counts r)))%nat.
Proof.
  destruct partition_sumsq as (K & -> & -> & ->). apply split_sum_ineq.
Qed.

Lemma lcount_no_vector (d : dict) (k : label) :
  lenDictValues d = 0%nat -> lcount k (flatten d) = 0%nat.
Proof.
  rewrite lenDictValues_flatten. intros H.
  destruct (flatten d); [reflexivity|discriminate H].
Qed.

Lemma partition_left_empty :
  lenDictValues l = 0%nat -> sumsq (counts r) = sumsq (counts c).
Proof.
  intros H. destruct partition_sumsq as (K & -> & _ & ->).
  apply list_sum_map_ext. intros k _. rewrite (@lcount_no_vector l k H). reflexivity.
Qed.

Lemma partition_right_empty :
  lenDictValues r = 0%nat -> sumsq (counts l) = sumsq (counts c).
Proof.
  intros H. destruct partition_sumsq as (K & -> & -> & _).
  apply list_sum_map_ext. intros k _. rewrite (@lcount_no_vector r k H).
  rewrite Nat.add_0_r. reflexivity.
Qed.

End ExactPartition.

Lemma gain_nonneg_Q (a b sc sl sr : Q) :
  0 < a -> 0 < b ->
  a * b * sc <= (a + b) * (b * sl + a * sr) ->
  0 <= (1 - sc / ((a + b) * (a + b)))
       - (a / (a + b) * (1 - sl / (a * a)) + (1 - a / (a + b)) * (1 - sr / (b * b))).
Proof.
  intros Ha Hb H.
  assert (Hab : 0 < a + b) by lra.
  assert (Na : ~ a == 0) by (intros E; rewrite E in Ha; apply (Qlt_irrefl 0 Ha)).
  assert (Nb : ~ b == 0) by (intros E; rewrite E in Hb; apply (Qlt_irrefl 0 Hb)).
  assert (Nab : ~ a + b == 0) by (intros E; rewrite E in Hab; apply (Qlt_irrefl 0 Hab)).
  assert (E : (1 - sc / ((a + b) * (a + b)))
              - (a / (a + b) * (1 - sl / (a * a)) + (1 - a / (a + b)) * (1 - sr / (b * b)))
              == ((a + b) * (b * sl + a * sr) - a * b * sc) / (a * b * ((a + b) * (a + b)))).
  { field. repeat split; assumption. }
  rewrite E. apply Qle_shift_div_l.
  - repeat apply Qmult_lt_0_compat; assumption.
  - rewrite Qmult_0_l. unfold Qminus. rewrite <- Qle_minus_iff. exact H.
Qed.

Lemma no_empty_label_gini (d : dict) :
  no_empty_label d = true -> exists g, gini d = Ok g.
Proof.
  intros H. apply gini_ok.
  destruct (Nat.eqb (length d) 0) eqn:E.
  - left. destruct d; [reflexivity|discriminate E].
  - right. apply no_empty_len; [|exact E].
    unfold no_empty_label in H. rewrite forallb_forall in H.
    apply Forall_forall. intros x Hx Hnil. specialize (H x Hx).
    rewrite Hnil in H. discriminate H.
Qed.

Lemma gini_val_same (cs cs' : list nat) :
  (0 < py_sum cs)%nat -> py_sum cs' = py_sum cs -> sumsq cs' = sumsq cs ->
  gini_val cs' == gini_val cs.
Proof.
  intros H Es Eq. rewrite !gini_val_closed by lia. rewrite Es, Eq. reflexivity.
Qed.

(** C7: with exact arithmetic, let [c] hold at least one vector and let the
    labelled vectors of [c] be exactly those of [l] together with those of
    [r] (dictionaries with distinct keys).  Then every value that
    [infoGain c l r] returns is [>= 0]; and it does return a value when no
    label of [l] or of [r] has an empty list, which holds for the parts that
    [generateCut] builds. *)
Theorem infoGain_nonneg (c l r : dict) :
  distinct (keys c) = true ->
  distinct (keys l) = true ->
  distinct (keys r) = true ->
  Permutation (flatten c) (flatten l ++ flatten r) ->
  (0 < lenDictValues c)%nat ->
  (forall g, infoGain c l r = Ok g -> 0 <= g) /\
  (no_empty_label l = true -> no_empty_label r = true ->
   exists g, infoGain c l r = Ok g).
Proof.
  intros Kc Kl Kr P Hn.
  apply distinct_NoDup in Kc. apply distinct_NoDup in Kl. apply distinct_NoDup in Kr.
  split.
  2:{ intros Hl Hr. apply infoGain_ok; [exact Hn| |]; apply no_empty_label_gini; assumption. }
  intros g H.
  pose proof (@partition_sizes c l r P) as Hsz.
  unfold infoGain, py_div in H.
  destruct (Nat.eqb_spec (lenDictValues c) 0) as [|_]; [lia|].
  cbn [rbind] in H. rewrite (gini_counts c Hn) in H. cbn [rbind] in H.
  destruct (gini l) as [g1|] eqn:E1; [|discriminate H].
  destruct (gini r) as [g2|] eqn:E2; [|discriminate H].
  cbn [rbind] in H. inversion H; subst g. clear H.
  destruct (Nat.eq_dec (lenDictValues l) 0) as [Ha|Ha].
  - (* nothing on the left *)
    assert (Hb : (0 < lenDictValues r)%nat) by lia.
    rewrite (gini_counts r Hb) in E2. inversion E2; subst g2.
    assert (Eg : gini_val (counts r) == gini_val (counts c)).
    { apply gini_val_same.
      - exact Hn.
      - change (lenDictValues r = lenDictValues c). lia.
      - apply (@partition_left_empty c l r Kc Kl Kr P Ha). }
    rewrite Ha, Qnat_zero_div, Eg. 
    match goal with |- 0 <= ?e => assert (E0 : e == 0) by ring end.
    rewrite E0. apply Qle_refl.
  - destruct (Nat.eq_dec (lenDictValues r) 0) as [Hb|Hb].
    + (* nothing on the right *)
      assert (Ha' : (0 < lenDictValues l)%nat) by lia.
      rewrite (gini_counts l Ha') in E1. inversion E1; subst g1.
      assert (Eg : gini_val (counts l) == gini_val (counts c)).
      { apply gini_val_same.
        - exact Hn.
        - change (lenDictValues l = lenDictValues c). lia.
        - apply (@partition_right_empty c l r Kc Kl Kr P Hb). }
      replace (lenDictValues l) with (lenDictValues c) by lia.
      rewrite (Qnat_div_same Hn), Eg.
      match goal with |- 0 <= ?e => assert (E0 : e == 0) by ring end.
      rewrite E0. apply Qle_refl.
    + (* vectors on both sides *)
      assert (Ha' : (0 < lenDictValues l)%nat) by lia.
      assert (Hb' : (0 < lenDictValues r)%nat) by lia.
      rewrite (gini_counts l Ha') in E1. inversion E1; subst g1.
      rewrite (gini_counts r Hb') in E2. inversion E2; subst g2.
      rewrite (@gini_val_closed (counts c)) by exact Hn.
      rewrite (@gini_val_closed (counts l)) by exact Ha'.
      rewrite (@gini_val_closed (counts r)) by exact Hb'.
      change (py_sum (counts c)) with (lenDictValues c).
      change (py_sum (counts l)) with (lenDictValues l).
      change (py_sum (counts r)) with (lenDictValues r).
      rewrite Hsz, Qnat_plus.
      apply gain_nonneg_Q.
      * apply Qnat_pos. exact Ha'.
      * apply Qnat_pos. exact Hb'.
      * pose proof (@partition_ineq c l r Kc Kl Kr P) as I.
        apply Qnat_le in I.
        rewrite !Qnat_mult, !Qnat_plus, !Qnat_mult in I. exact I.
Qed.

(** ** Worked examples *)

Lemma bestCut_selects_witness :
  (exists cands r' i g c1 c2 f t,
      draw_cuts 3 (newNode tie_data) example_features tie_draws = Ok (cands, r') /\
      length cands = 3%nat /\
      bestCut_float (newNode tie_data) 3 example_features tie_draws
      = Ok ((g, c1, c2, (f, t)), r') /\
      wins_float infoGain_float (data (newNode tie_data)) cands i (c1, c2, [f], t) g /\
      i = 2%nat /\ (f, t) = (1%nat, 9) /\
      map (gain_of_with infoGain_float tie_data) cands
      = [Ok 0x1.c71c71c71c718p-4%float; Ok 0%float; Ok 0x1.c71c71c71c71cp-4%float] /\
      map degenerate cands = [false; true; false]) /\
  (exists cands r' i g c1 c2 f t,
      draw_cuts 2 (newNode noise_data) [0%nat] noise_draws = Ok (cands, r') /\
      length cands = 2%nat /\
      bestCut_float (newNode noise_data) 2 [0%nat] noise_draws
      = Ok ((g, c1, c2, (f, t)), r') /\
      wins_float infoGain_float (data (newNode noise_data)) cands i (c1, c2, [f], t) g /\
      i = 0%nat /\ nth_error cands 0 = Some (c1, c2, [f], t) /\
      map (gain_of_with infoGain_float noise_data) cands
      = [Ok (-0x1p-54)%float; Ok 0%float] /\
      map degenerate cands = [false; true]).
Proof.
  split.
  - destruct (@bestCut_selects infoGain_float (newNode tie_data) 3 example_features
                               tie_draws)
      as (cands & r' & i & g & c1 & c2 & f & t & Ed & Hl & Eb & W & _).
    + discriminate.
    + reflexivity.
    + reflexivity.
    + vm_compute. lia.
    + lia.
    + intros f t. apply infoGain_float_side_ok. vm_compute. lia.
    + exists cands, r', i, g, c1, c2, f, t.
      split; [exact Ed|]. split; [exact Hl|]. split; [exact Eb|]. split; [exact W|].
      vm_compute in Eb. inversion Eb; subst g c1 c2 f t. clear Eb.
      vm_compute in Ed. inversion Ed; subst cands. clear Ed.
      destruct W as (Wn & _).
      split.
      { destruct i as [|[|[|i]]]; simpl in Wn;
          [inversion Wn|inversion Wn|reflexivity|destruct i; discriminate Wn]. }
      split; [reflexivity|]. split; vm_compute; reflexivity.
  - destruct (@bestCut_selects infoGain_float (newNode noise_data) 2 [0%nat]
                               noise_draws)
      as (cands & r' & i & g & c1 & c2 & f & t & Ed & Hl & Eb & W & Hfirst).
    + discriminate.
    + reflexivity.
    + reflexivity.
    + vm_compute. lia.
    + lia.
    + intros f t. apply infoGain_float_side_ok. vm_compute. lia.
    + exists cands, r', i, g, c1, c2, f, t.
      split; [exact Ed|]. split; [exact Hl|]. split; [exact Eb|]. split; [exact W|].
      vm_compute in Ed. inversion Ed; subst cands. clear Ed.
      assert (F : i = 0%nat /\
                  nth_error
                    [([(0%Z, [[0]]); (1%Z, [[1]; [2]])],
                      [(0%Z, [[3]; [4]]); (1%Z, [[5]; [6]; [7]; [8]])], [0%nat], 3);
                     ([], [(0%Z, [[0]; [3]; [4]]);
                           (1%Z, [[1]; [2]; [5]; [6]; [7]; [8]])], [0%nat], 0)] 0
                  = Some (c1, c2, [f], t)).
      { apply Hfirst. intros j cj Hj Ej.
        destruct j as [|[|j]]; simpl in Ej.
        - inversion Hj.
        - inversion Ej; subst cj. reflexivity.
        - destruct j; discriminate Ej. }
      destruct F as [F1 F2]. split; [exact F1|]. split; [exact F2|].
      split; vm_compute; reflexivity.
Defined.


Lemma generateCut_spec_witness :
  (exists f t s c1 c2 r',
      generateCut (newNode example_data) example_features (tape [0; 2]%nat)
      = Ok ((c1, c2, [f], t), r') /\
      In f example_features /\
      In s (flatten (data (newNode example_data))) /\ nth_error (snd s) f = Some t /\
      flatten c1 = filter (fun kv => below f t (snd kv))
                          (flatten (data (newNode example_data))) /\
      flatten c2 = filter (fun kv => at_least f t (snd kv))
                          (flatten (data (newNode example_data))) /\
      In s (flatten c2) /\
      (f, t) = (0%nat, 3) /\
      c1 = [(1%Z, [[1; 5]; [2; 6]]); (2%Z, [[0; 9]])] /\
      c2 = [(2%Z, [[3; 7]; [4; 8]])]) /\
  (exists f r',
      generateCut (newNode []) example_features example_draws
      = Ok (([], [], [f], 0), r') /\ In f example_features) /\
  generateCut (newNode [(3%Z, [])]) example_features example_draws
  = Raise IndexError.
Proof.
  split; [|split].
  - destruct (@generateCut_spec (newNode example_data) example_features
                                (tape [0; 2]%nat))
      as [H _]; [discriminate|].
    destruct H as (f & t & s & c1 & c2 & r' & E & H);
      [reflexivity|reflexivity|vm_compute; lia|].
    exists f, t, s, c1, c2, r'. split; [exact E|].
    vm_compute in E. inversion E; subst f t c1 c2.
    repeat (split; [apply H|]). repeat split.
  - destruct (@generateCut_spec (newNode []) example_features example_draws)
      as (_ & H & _); [discriminate|].
    apply H. reflexivity.
  - destruct (@generateCut_spec (newNode [(3%Z, [])]) example_features example_draws)
      as (_ & _ & H); [discriminate|].
    apply H; [discriminate|reflexivity].
Defined.



Lemma infoGain_nonneg_witness :
  exists g,
    infoGain [(1%Z, [[1]; [2]]); (2%Z, [[3]; [4]])]
             [(1%Z, [[1]; [2]])] [(2%Z, [[3]; [4]])] = Ok g /\
    0 <= g.
Proof.
  destruct (@infoGain_nonneg [(1%Z, [[1]; [2]]); (2%Z, [[3]; [4]])]
                             [(1%Z, [[1]; [2]])] [(2%Z, [[3]; [4]])])
    as [Hpos Hret].
  - reflexivity.
  - reflexivity.
  - reflexivity.
  - simpl. apply Permutation_refl.
  - vm_compute. lia.
  - destruct Hret as [g Eg]; [reflexivity|reflexivity|].
    exists g. split; [exact Eg|]. apply Hpos. exact Eg.
Defined.

Lemma gini_bounds_witness :
  (exists g,
      gini example_data = Ok g /\
      (1 <= labels_present example_data)%nat /\
      0 <= g /\
      g <= 1 - 1 / Qnat (labels_present example_data)) /\
  (exists g, gini [(7%Z, [[1]; [2]; [3]])] = Ok g /\ g == 0).
Proof.
  split.
  - destruct (@gini_bounds example_data) as (g & E & H1 & H2 & H3 & _);
      [vm_compute; lia|].
    exists g. repeat split; assumption.
  - destruct (@gini_bounds [(7%Z, [[1]; [2]; [3]])]) as (g & E & _ & _ & _ & H);
      [vm_compute; lia|].
    exists g. split; [exact E|]. apply H. reflexivity.
Defined.

Lemma sampleDict_spec_witness :
  (exists d r' idx picked,
      sampleDict example_data 3 (tape [4; 0; 2]%nat) = Ok (d, r') /\
      length idx = 3%nat /\
      NoDup idx /\
      Forall2 (fun i p => nth_error (flatten example_data) i = Some p) idx picked /\
      Permutation (flatten d) picked /\
      lenDictValues d = 3%nat) /\
  sampleDict example_data 6 (tape [4; 0; 2]%nat) = Raise ValueError.
Proof.
  split.
  - apply (proj1 (sampleDict_spec example_data 3 (tape [4; 0; 2]%nat))).
    vm_compute. lia.
  - apply (proj2 (sampleDict_spec example_data 6 (tape [4; 0; 2]%nat))).
    vm_compute. lia.
Defined.

Lemma decisionTree_float_nodes_nonempty_witness :
  exists tree r',
    decisionTree_float 8 (newNode noise_data) 2 [0%nat] (-1) noise_draws
    = Ok (tree, r') /\
    Forall (fun n =>
              (0 < lenDictValues (data n))%nat /\ data n <> [] /\
              (forall l, left_son n = Some l -> (0 < lenDictValues (data l))%nat) /\
              (forall rs, right_son n = Some rs -> (0 < lenDictValues (data rs))%nat) /\
              (forall f t,
                  In f [0%nat] ->
                  side (below f t) (data n) = [] \/ side (at_least f t) (data n) = [] ->
                  exists g,
                    infoGain_float (data n) (side (below f t) (data n))
                                   (side (at_least f t) (data n)) = Ok g /\
                    PrimFloat.eqb g PrimFloat.zero = true))
           (nodes tree) /\
    (forall v, has_values tree v = true -> exists k, classify tree v = Ok k) /\
    question tree = Some (0%nat, 3) /\
    map data (nodes tree)
    = [noise_data;
       [(0%Z, [[0]]); (1%Z, [[1]; [2]])];
       [(0%Z, [[3]; [4]]); (1%Z, [[5]; [6]; [7]; [8]])]].
Proof.
  destruct (@decisionTree_float_nodes_nonempty 8 2 [0%nat] noise_data (-1) noise_draws)
    as [(_ & B & _)|(tree & r' & E & Hall & Hc)].
  - discriminate.
  - reflexivity.
  - reflexivity.
  - vm_compute. lia.
  - split; vm_compute; reflexivity.
  - vm_compute in B. lia.
  - exists tree, r'. split; [exact E|]. split; [exact Hall|]. split; [exact Hc|].
    vm_compute in E. inversion E; subst tree. split; reflexivity.
Defined.

Lemma decisionTree_nodes_nonempty_witness :
  exists tree r',
    decisionTree (newNode example_data) 3 example_features 5 example_draws
    = Ok (tree, r') /\
    Forall (fun n =>
              (0 < lenDictValues (data n))%nat /\ data n <> [] /\
              (forall l, left_son n = Some l -> (0 < lenDictValues (data l))%nat) /\
              (forall rs, right_son n = Some rs -> (0 < lenDictValues (data rs))%nat) /\
              (forall f t,
                  In f example_features ->
                  side (below f t) (data n) = [] \/ side (at_least f t) (data n) = [] ->
                  exists g,
                    infoGain (data n) (side (below f t) (data n))
                             (side (at_least f t) (data n)) = Ok g /\ g == 0))
           (nodes tree) /\
    (forall v, has_values tree v = true -> exists k, classify tree v = Ok k).
Proof.
  apply decisionTree_nodes_nonempty.
  - discriminate.
  - reflexivity.
  - reflexivity.
  - vm_compute. lia.
Defined.

(** * Further properties of the module *)

(** ** Node.depth *)

Lemma depth_sons (d : dict) (q : option (nat * Q)) (l r : option Node) :
  depth (mkNode d q l r)
  = if is_None l && is_None r then 0%nat
    else (Nat.max (son_depth l) (son_depth r) + 1)%nat.
Proof.
  destruct l as [ls|]; destruct r as [rs|]; cbn [depth is_None andb son_depth];
    try reflexivity;
    repeat match goal with
           | |- context [Nat.ltb ?a ?b] => destruct (Nat.ltb_spec a b)
           | |- context [Nat.leb ?a ?b] => destruct (Nat.leb_spec a b)
           end; lia.
Qed.

(** X1: [depth] is the height of the tree (0 for a node without sons,
    otherwise one more than the deeper son, also when one son is missing),
    so a tree of depth [h] has at most [2^(h+1) - 1] nodes. *)
Theorem nodes_depth_bound (n : Node) :
  (forall d q l r,
      depth (mkNode d q l r)
      = if is_None l && is_None r then 0%nat
        else (Nat.max (son_depth l) (son_depth r) + 1)%nat) /\
  (length (nodes n) + 1 <= 2 ^ (depth n + 1))%nat.
Proof.
  split; [apply depth_sons|].
  induction n as [d q l r IHl IHr] using Node_induction.
  rewrite depth_sons. cbn [nodes length]. rewrite length_app.
  destruct l as [ls|]; destruct r as [rs|]; cbn [is_None andb son_depth length].
  - assert (Hl : (2 ^ (depth ls + 1) <= 2 ^ (Nat.max (depth ls) (depth rs) + 1))%nat)
      by (apply Nat.pow_le_mono_r; lia).
    assert (Hr : (2 ^ (depth rs + 1) <= 2 ^ (Nat.max (depth ls) (depth rs) + 1))%nat)
      by (apply Nat.pow_le_mono_r; lia).
    replace (Nat.max (depth ls) (depth rs) + 1 + 1)%nat
      with (S (Nat.max (depth ls) (depth rs) + 1)) by lia.
    rewrite Nat.pow_succ_r'. lia.
  - replace (Nat.max (depth ls) 0 + 1 + 1)%nat with (S (depth ls + 1)) by lia.
    rewrite Nat.pow_succ_r'. simpl. lia.
  - replace (Nat.max 0 (depth rs) + 1 + 1)%nat with (S (depth rs + 1)) by lia.
    rewrite Nat.pow_succ_r'. simpl. lia.
  - simpl. lia.
Qed.

(** ** More on generateCut *)

Lemma filter_partition_perm {A} (P P' : A -> bool) (l : list A) :
  (forall x, In x l -> P' x = negb (P x)) ->
  Permutation l (filter P l ++ filter P' l).
Proof.
  induction l as [|x l IH]; intros H; [constructor|]. simpl.
  rewrite (H x) by now left.
  assert (IH' := IH (fun y Hy => H y (or_intror Hy))).
  destruct (P x); simpl.
  - constructor. exact IH'.
  - apply Permutation_cons_app. exact IH'.
Qed.

Lemma side_partition_perm (f : nat) (t : Q) (d : dict) :
  (forall v, In v (concat (values d)) -> (f < length v)%nat) ->
  Permutation (flatten d)
              (flatten (side (below f t) d) ++ flatten (side (at_least f t) d)).
Proof.
  intros Hr. rewrite !flatten_side. apply filter_partition_perm.
  intros [k v] Hin. simpl. symmetry. apply below_at_least. apply Hr.
  clear - Hin. induction d as [|[k' l] d IH]; [contradiction|].
  rewrite flatten_cons in Hin. simpl. apply in_or_app.
  apply in_app_or in Hin. destruct Hin as [H|H].
  - left. apply in_map_iff in H. destruct H as [w [E Hw]]. now inversion E; subst.
  - right. apply IH. exact H.
Qed.

Lemma side_no_empty_label (P : vector -> bool) (d : dict) :
  no_empty_label (side P d) = true.
Proof.
  unfold no_empty_label. apply forallb_forall. intros kl Hin.
  pose proof (side_no_empty P d) as F. rewrite Forall_forall in F.
  specialize (F kl Hin). destruct (snd kl); [congruence|reflexivity].
Qed.

Lemma side_at_least_nonempty (f : nat) (t : Q) (d : dict) (v : vector) :
  In v (concat (values d)) -> nth_error v f = Some t ->
  side (at_least f t) d <> [].
Proof.
  intros Hv Et E.
  pose proof (side_empty_false _ _ E v Hv) as F.
  unfold at_least in F. rewrite Et in F.
  assert (Qle_bool t t = true) by (apply Qle_bool_iff, Qle_refl). congruence.
Qed.

(** X2: on a dataset that holds at least one vector, the two parts that
    [generateCut] returns are dictionaries with distinct keys, all taken
    from the dataset, in which no label has an empty list; together they
    hold as many vectors as the dataset; and the right part is never empty
    (it holds the vector that gave the threshold), so only the left part of
    a cut can be empty. *)
Theorem generateCut_parts (node : Node) (features : list nat) (r : rng) :
  features <> [] ->
  distinct (keys (data node)) = true ->
  in_range features (data node) = true ->
  (0 < lenDictValues (data node))%nat ->
  exists c1 c2 rf t r',
    generateCut node features r = Ok ((c1, c2, rf, t), r') /\
    distinct (keys c1) = true /\ distinct (keys c2) = true /\
    incl (keys c1) (keys (data node)) /\ incl (keys c2) (keys (data node)) /\
    no_empty_label c1 = true /\ no_empty_label c2 = true /\
    (lenDictValues c1 + lenDictValues c2 = lenDictValues (data node))%nat /\
    c2 <> [] /\ (0 < lenDictValues c2)%nat.
Proof.
  intros Hf Hd Hr Hn. apply distinct_NoDup in Hd. rewrite in_range_spec in Hr.
  destruct (generateCut_closed node r Hf Hd Hr Hn) as (f & t & v & E & Hin & Hv & Et).
  assert (Hrf : forall w, In w (concat (values (data node))) -> (f < length w)%nat).
  { intros w Hw. apply (Hr w Hw f Hin). }
  pose proof (@side_at_least_nonempty f t (data node) v Hv Et) as Hne.
  exists (side (below f t) (data node)), (side (at_least f t) (data node)), [f], t,
    (fun i => r (S (S i))).
  split; [exact E|].
  split; [apply distinct_NoDup, side_NoDup, Hd|].
  split; [apply distinct_NoDup, side_NoDup, Hd|].
  split; [intros k Hk; eapply keys_side_in; exact Hk|].
  split; [intros k Hk; eapply keys_side_in; exact Hk|].
  split; [apply side_no_empty_label|]. split; [apply side_no_empty_label|].
  split; [apply side_sizes; exact Hrf|]. split; [exact Hne|].
  apply no_empty_len; [apply side_no_empty|].
  destruct (side (at_least f t) (data node)); [congruence|reflexivity].
Qed.

Lemma generateCut_parts_witness :
  exists c1 c2 rf t r',
    generateCut (newNode example_data) example_features example_draws
    = Ok ((c1, c2, rf, t), r') /\
    distinct (keys c1) = true /\ distinct (keys c2) = true /\
    incl (keys c1) (keys (data (newNode example_data))) /\
    incl (keys c2) (keys (data (newNode example_data))) /\
    no_empty_label c1 = true /\ no_empty_label c2 = true /\
    (lenDictValues c1 + lenDictValues c2
     = lenDictValues (data (newNode example_data)))%nat /\
    c2 <> [] /\ (0 < lenDictValues c2)%nat.
Proof.
  apply generateCut_parts.
  - discriminate.
  - reflexivity.
  - reflexivity.
  - vm_compute. lia.
Defined.

(** ** Datasets without vectors, and empty feature lists *)

(** X3: the Gini impurity of the dictionary without labels is 1, while a
    dictionary that has labels but no vector makes [gini] divide by zero;
    [infoGain] divides by zero whenever the parent dataset has no vector,
    whatever the two parts are. *)
Theorem impurity_without_vectors (d c1 c2 : dict) :
  lenDictValues d = 0%nat ->
  gini d = match d with [] => Ok 1 | _ :: _ => Raise ZeroDivisionError end /\
  infoGain d c1 c2 = Raise ZeroDivisionError.
Proof.
  intros Hn. split.
  - destruct d as [|kl d]; [reflexivity|]. apply gini_no_vector; [discriminate|exact Hn].
  - unfold infoGain, py_div. rewrite Hn. reflexivity.
Qed.

Lemma impurity_without_vectors_witness :
  gini [(3%Z, [])] = Raise ZeroDivisionError /\
  infoGain [(3%Z, [])] [] [] = Raise ZeroDivisionError.
Proof.
  apply (@impurity_without_vectors [(3%Z, [])] [] []). reflexivity.
Defined.

Lemma bestCut_raise (node : Node) (nb_cut : nat) (features : list nat) (r : rng) (e : exn) :
  generateCut node features r = Raise e ->
  bestCut node nb_cut features r = Raise e.
Proof. intros H. unfold bestCut, mbind. rewrite H. reflexivity. Qed.

Lemma decisionTree_raise (fuel : nat) (node : Node) (nb : nat) (features : list nat)
      (max_depth : Z) (r : rng) (e : exn) :
  bestCut node nb features r = Raise e ->
  decisionTree_rec fuel node nb features max_depth r = Raise e.
Proof. intros H. rewrite decisionTree_rec_eq. unfold mbind. rewrite H. reflexivity. Qed.

(** X4: with a non-empty feature list, a node whose dataset holds no vector
    cannot be split or built on: on the dictionary without labels [bestCut]
    and [decisionTree] raise ZeroDivisionError (the first gain is computed
    before any test), and on a dictionary with labels but no vector
    [generateCut], [bestCut] and [decisionTree] raise IndexError. *)
Theorem build_without_vectors (node : Node) (nb : nat) (features : list nat)
        (max_depth : Z) (r : rng) :
  features <> [] ->
  lenDictValues (data node) = 0%nat ->
  (data node = [] ->
   bestCut node nb features r = Raise ZeroDivisionError /\
   decisionTree node nb features max_depth r = Raise ZeroDivisionError) /\
  (data node <> [] ->
   generateCut node features r = Raise IndexError /\
   bestCut node nb features r = Raise IndexError /\
   decisionTree node nb features max_depth r = Raise IndexError).
Proof.
  intros Hf Hn. split.
  - intros Hd.
    assert (Hb : bestCut node nb features r = Raise ZeroDivisionError).
    { destruct (generateCut_empty node r Hf Hd) as [f [E _]].
      unfold bestCut, mbind. rewrite E. rewrite Hd. reflexivity. }
    split; [exact Hb|]. unfold decisionTree. apply decisionTree_raise. exact Hb.
  - intros Hd.
    pose proof (generateCut_no_vector node r Hf Hd Hn) as Hg.
    pose proof (bestCut_raise node nb features r Hg) as Hb.
    split; [exact Hg|]. split; [exact Hb|].
    unfold decisionTree. apply decisionTree_raise. exact Hb.
Qed.

Lemma build_without_vectors_witness :
  (bestCut (newNode []) 3 example_features example_draws = Raise ZeroDivisionError /\
   decisionTree (newNode []) 3 example_features 5 example_draws
   = Raise ZeroDivisionError) /\
  (generateCut (newNode [(3%Z, [])]) example_features example_draws = Raise IndexError /\
   bestCut (newNode [(3%Z, [])]) 3 example_features example_draws = Raise IndexError /\
   decisionTree (newNode [(3%Z, [])]) 3 example_features 5 example_draws
   = Raise IndexError).
Proof.
  split.
  - apply (@build_without_vectors (newNode []) 3 example_features 5 example_draws);
      [discriminate|reflexivity|reflexivity].
  - apply (@build_without_vectors (newNode [(3%Z, [])]) 3 example_features 5
                                  example_draws);
      [discriminate|reflexivity|discriminate].
Defined.

(** X5: with an empty list of features, [generateCut], [bestCut] and
    [decisionTree] raise ValueError on every dataset: the feature is sampled
    before the dataset is looked at. *)
Theorem no_feature_raises (node : Node) (nb : nat) (max_depth : Z) (r : rng) :
  generateCut node [] r = Raise ValueError /\
  bestCut node nb [] r = Raise ValueError /\
  decisionTree node nb [] max_depth r = Raise ValueError.
Proof.
  assert (Hg : generateCut node [] r = Raise ValueError) by reflexivity.
  pose proof (bestCut_raise node nb [] r Hg) as Hb.
  split; [exact Hg|]. split; [exact Hb|].
  unfold decisionTree. apply decisionTree_raise. exact Hb.
Qed.

(** ** More on the tree that decisionTree builds *)

Lemma node_ok_internal (features : list nat) (d : dict) (q : option (nat * Q))
      (l r : option Node) :
  node_ok features (mkNode d q l r) ->
  (q = None /\ l = None /\ r = None) \/
  (exists f t ls rs,
      q = Some (f, t) /\ l = Some ls /\ r = Some rs /\ In f features /\
      data ls = side (below f t) d /\ data rs = side (at_least f t) d /\
      (0 < lenDictValues (data ls))%nat /\ (0 < lenDictValues (data rs))%nat).
Proof.
  intros (Hs & _ & Hq). cbn [question left_son right_son data] in *.
  destruct q as [[f t]|].
  - right. destruct (Hq f t eq_refl) as (Hin & (ls & El & Dl & Nl) & (rs & Er & Dr & Nr)).
    exists f, t, ls, rs. repeat split; assumption.
  - left. destruct Hs as (_ & _ & Hleaf). cbn [question left_son right_son] in Hleaf.
    destruct (Hleaf eq_refl). repeat split; assumption.
Qed.

Lemma leaves_partition (features : list nat) (tree : Node) :
  Forall (node_ok features) (nodes tree) ->
  Permutation (flatten (data tree))
              (flat_map (fun n => flatten (data n)) (leaves tree)).
Proof.
  induction tree as [d q l r IHl IHr] using Node_induction.
  intros Hall. cbn [nodes] in Hall. inversion Hall as [|? ? Hroot Hrest]; subst.
  apply Forall_app in Hrest. destruct Hrest as [Fl Fr].
  pose proof Hroot as (_ & (_ & Hrange & _) & _). cbn [data] in Hrange.
  destruct (node_ok_internal Hroot)
    as [(-> & -> & ->)|(f & t & ls & rs & -> & -> & -> & Hin & Dl & Dr & _)].
  - cbn [leaves flat_map data]. rewrite app_nil_r. reflexivity.
  - cbn [leaves data]. rewrite flat_map_app.
    rewrite <- (IHl Fl), <- (IHr Fr), Dl, Dr.
    apply side_partition_perm. intros v Hv. apply (Hrange v Hv f Hin).
Qed.

Lemma leaves_are_leaves (features : list nat) (tree : Node) :
  Forall (node_ok features) (nodes tree) ->
  Forall (fun n => question n = None /\ left_son n = None /\ right_son n = None /\
                   (0 < lenDictValues (data n))%nat /\
                   incl (keys (data n)) (keys (data tree)))
         (leaves tree).
Proof.
  induction tree as [d q l r IHl IHr] using Node_induction.
  intros Hall. cbn [nodes] in Hall. inversion Hall as [|? ? Hroot Hrest]; subst.
  apply Forall_app in Hrest. destruct Hrest as [Fl Fr].
  pose proof Hroot as (_ & (_ & _ & Hpos) & _). cbn [data] in Hpos.
  destruct (node_ok_internal Hroot)
    as [(-> & -> & ->)|(f & t & ls & rs & -> & -> & -> & Hin & Dl & Dr & _)].
  - cbn [leaves]. constructor; [|constructor].
    cbn [question left_son right_son data]. repeat split; try assumption.
    apply incl_refl.
  - cbn [leaves data]. apply Forall_app. split.
    + eapply Forall_impl; [|exact (IHl Fl)]. cbn beta.
      intros n (H1 & H2 & H3 & H4 & H5). repeat split; try assumption.
      intros k Hk. apply H5 in Hk. rewrite Dl in Hk. eapply keys_side_in. exact Hk.
    + eapply Forall_impl; [|exact (IHr Fr)]. cbn beta.
      intros n (H1 & H2 & H3 & H4 & H5). repeat split; try assumption.
      intros k Hk. apply H5 in Hk. rewrite Dr in Hk. eapply keys_side_in. exact Hk.
Qed.

Lemma leaves_count (features : list nat) (tree : Node) :
  Forall (node_ok features) (nodes tree) ->
  (depth tree + 1 <= length (leaves tree))%nat /\
  (length (nodes tree) + 1 = 2 * length (leaves tree))%nat.
Proof.
  induction tree as [d q l r IHl IHr] using Node_induction.
  intros Hall. cbn [nodes] in Hall. inversion Hall as [|? ? Hroot Hrest]; subst.
  apply Forall_app in Hrest. destruct Hrest as [Fl Fr].
  destruct (node_ok_internal Hroot)
    as [(-> & -> & ->)|(f & t & ls & rs & -> & -> & -> & _)].
  - cbn. lia.
  - destruct (IHl Fl) as [L1 L2]. destruct (IHr Fr) as [R1 R2].
    rewrite depth_sons. cbn [is_None andb son_depth leaves nodes length].
    rewrite !length_app. lia.
Qed.

Lemma nonempty_parts_count (ls : list Node) :
  Forall (fun n => (0 < lenDictValues (data n))%nat) ls ->
  (length ls <= length (flat_map (fun n => flatten (data n)) ls))%nat.
Proof.
  induction ls as [|n ls IH]; intros H; [simpl; lia|].
  inversion H as [|? ? Hn Hrest]; subst. cbn [flat_map length].
  rewrite length_app, <- lenDictValues_flatten. specialize (IH Hrest). lia.
Qed.



(** X7: whatever the depth bound, also a negative one that the depth test
    never meets, the builder (in binary64, with the interpreter's bound on
    nested calls) ends: with RecursionError, which takes more than
    [recursion_limit + 1] vectors and a depth bound that is negative or
    above the limit, or with a tree that has at most as many leaves as the
    dataset has vectors, a depth below that number, and one node less than
    twice its number of leaves. *)
Theorem decisionTree_size (recursion_limit nb : nat) (features : list nat) (d : dict)
        (max_depth : Z) (r : rng) :
  features <> [] ->
  distinct (keys d) = true ->
  in_range features d = true ->
  (0 < lenDictValues d)%nat ->
  small d ->
  (decisionTree_float recursion_limit (newNode d) nb features max_depth r
   = Raise RecursionError /\
   (S recursion_limit < lenDictValues d)%nat /\
   ~ (0 <= max_depth <= Z.of_nat recursion_limit)%Z) \/
  (exists tree r',
      decisionTree_float recursion_limit (newNode d) nb features max_depth r
      = Ok (tree, r') /\
      (length (leaves tree) <= lenDictValues d)%nat /\
      (depth tree < lenDictValues d)%nat /\
      (length (nodes tree) + 1 = 2 * length (leaves tree))%nat).
Proof.
  intros Hf Hd Hr Hn Hsm. apply distinct_NoDup in Hd. rewrite in_range_spec in Hr.
  pose proof (@decisionTree_float_spec nb features Hf recursion_limit d max_depth r
                (conj Hd (conj Hr Hn)) Hsm) as S.
  destruct (decisionTree_float recursion_limit (newNode d) nb features max_depth r)
    as [[tree r']|e].
  2:{ left. destruct S as (-> & B & M). split; [reflexivity|]. split; assumption. }
  right. destruct S as (Ed & Hall' & _).
  assert (Hall : Forall (node_ok features) (nodes tree)).
  { eapply Forall_impl; [|exact Hall']. intros n [Hok _]. exact Hok. }
  exists tree, r'. split; [reflexivity|].
  destruct (@leaves_count features tree Hall) as [C1 C2].
  assert (L : (length (leaves tree) <= lenDictValues d)%nat).
  { rewrite lenDictValues_flatten, <- Ed.
    rewrite (Permutation_length (@leaves_partition features tree Hall)).
    apply nonempty_parts_count.
    eapply Forall_impl; [|exact (@leaves_are_leaves features tree Hall)]. cbn beta. tauto. }
  split; [exact L|]. split; [lia|exact C2].
Qed.

Lemma decisionTree_size_witness :
  (exists tree r',
      decisionTree_float 8 (newNode noise_data) 2 [0%nat] (-1) noise_draws
      = Ok (tree, r') /\
      (length (leaves tree) <= lenDictValues noise_data)%nat /\
      (depth tree < lenDictValues noise_data)%nat /\
      (length (nodes tree) + 1 = 2 * length (leaves tree))%nat) /\
  decisionTree_float 0 (newNode noise_data) 2 [0%nat] (-1) noise_draws
  = Raise RecursionError.
Proof.
  split.
  - destruct (@decisionTree_size 8 2 [0%nat] noise_data (-1) noise_draws)
      as [(_ & B & _)|H].
    + discriminate.
    + reflexivity.
    + reflexivity.
    + vm_compute. lia.
    + split; vm_compute; reflexivity.
    + vm_compute in B. lia.
    + exact H.
  - destruct (@decisionTree_size 0 2 [0%nat] noise_data (-1) noise_draws)
      as [(E & _)|(tree & r' & E & _)].
    + discriminate.
    + reflexivity.
    + reflexivity.
    + vm_compute. lia.
    + split; vm_compute; reflexivity.
    + exact E.
    + vm_compute in E. discriminate E.
Defined.

Lemma gini_val_pure (cs : list nat) :
  (0 < py_sum cs)%nat -> positives cs = 1%nat -> gini_val cs == 0.
Proof.
  intros Hn Hp. rewrite gini_val_closed by exact Hn.
  pose proof (sumsq_le_square cs) as H1.
  pose proof (square_le_positives_sumsq cs) as H2.
  rewrite Hp in H2. rewrite <- py_sum_list_sum in H1, H2.
  assert (E : sumsq cs = (py_sum cs * py_sum cs)%nat) by lia.
  rewrite E, Qnat_mult. field.
  intros Z0. pose proof (Qnat_pos Hn) as P. rewrite Z0 in P. apply (Qlt_irrefl 0 P).
Qed.

(** X8: a dataset in which one label holds all the vectors is never split,
    whatever the depth bound and the number of cuts tried: [decisionTree]
    returns the root unchanged, as a leaf. *)
Theorem decisionTree_pure (nb : nat) (features : list nat) (d : dict)
        (max_depth : Z) (r : rng) :
  features <> [] ->
  distinct (keys d) = true ->
  in_range features d = true ->
  (0 < lenDictValues d)%nat ->
  labels_present d = 1%nat ->
  exists r', decisionTree (newNode d) nb features max_depth r = Ok (newNode d, r').
Proof.
  intros Hf Hd Hr Hn Hp. apply distinct_NoDup in Hd. rewrite in_range_spec in Hr.
  unfold decisionTree. rewrite decisionTree_rec_eq.
  destruct (@bestCut_sides (newNode d) features Hf Hd Hr Hn nb r)
    as (gain & f & t & r1 & Eb & _ & _).
  unfold mbind at 1. rewrite Eb.
  unfold mbind at 1. unfold lift at 1. cbn [data newNode].
  rewrite (gini_counts _ Hn).
  assert (Ez : Qeq_bool (gini_val (counts d)) 0 = true).
  { apply Qeq_bool_iff. apply gini_val_pure; assumption. }
  rewrite Ez. cbn [orb]. exists r1. reflexivity.
Qed.

Lemma decisionTree_pure_witness :
  exists r',
    decisionTree (newNode [(7%Z, [[1; 5]; [2; 6]; [3; 7]])]) 3 example_features 5
                 example_draws
    = Ok (newNode [(7%Z, [[1; 5]; [2; 6]; [3; 7]])], r').
Proof.
  apply decisionTree_pure.
  - discriminate.
  - reflexivity.
  - reflexivity.
  - vm_compute. lia.
  - reflexivity.
Defined.




(** ** Thresholds: where training stores a vector and where classify sends it *)

Section Thresholds.

Variable node : Node.
Variable features : list nat.

Hypothesis features_nonempty : features <> [].
Hypothesis keys_distinct : NoDup (keys (data node)).
Hypothesis features_valid :
  forall v, In v (concat (values (data node))) ->
            forall f, In f features -> (f < length v)%nat.
Hypothesis data_nonempty : (0 < lenDictValues (data node))%nat.



End Thresholds.







(** ** forestClassify *)

Lemma mapM_cons_inv {A B} (f : A -> result B) (a : A) (l : list A) (bs : list B) :
  mapM f (a :: l) = Ok bs ->
  exists b bs', f a = Ok b /\ mapM f l = Ok bs' /\ bs = b :: bs'.
Proof.
  cbn [mapM]. destruct (f a) as [b|e]; [|discriminate].
  destruct (mapM f l) as [bs'|e]; [|discriminate].
  intros H. inversion H. exists b, bs'. repeat split.
Qed.

Lemma incr_at_length (i : nat) (occ : list nat) :
  length (incr_at i occ) = length occ.
Proof.
  revert i; induction occ as [|x occ IH]; intros i; [reflexivity|].
  destruct i; simpl; [reflexivity|]. now rewrite IH.
Qed.

Lemma incr_at_nth (i j : nat) (occ : list nat) :
  (i < length occ)%nat ->
  nth j (incr_at i occ) 0%nat
  = (nth j occ 0 + if Nat.eqb i j then 1 else 0)%nat.
Proof.
  revert i j; induction occ as [|x occ IH]; intros i j Hi; [simpl in Hi; lia|].
  destruct i as [|i]; destruct j as [|j]; simpl; try lia.
  apply IH. simpl in Hi. lia.
Qed.

Lemma list_index_in_range (len : nat) (key : Z) :
  (- Z.of_nat len <= key < Z.of_nat len)%Z ->
  list_index len key = Ok (Z.to_nat (key mod Z.of_nat len)) /\
  (Z.to_nat (key mod Z.of_nat len) < len)%nat.
Proof.
  intros H. unfold list_index.
  assert (Hm : (0 <= key mod Z.of_nat len < Z.of_nat len)%Z)
    by (apply Z.mod_pos_bound; lia).
  split; [|lia].
  destruct (Z.leb_spec 0 key).
  - destruct (Z.ltb_spec key (Z.of_nat len)); [|lia].
    cbn [andb]. rewrite Z.mod_small by lia. reflexivity.
  - cbn [andb].
    destruct (Z.leb_spec (- Z.of_nat len) key); [|lia].
    destruct (Z.ltb_spec key 0); [|lia]. cbn [andb].
    replace (key mod Z.of_nat len)%Z with ((key + 1 * Z.of_nat len) mod Z.of_nat len)%Z
      by (apply Z_mod_plus_full).
    rewrite Z.mod_small by lia. f_equal. f_equal. lia.
Qed.

Lemma list_index_out_of_range (len : nat) (key : Z) :
  (key < - Z.of_nat len \/ Z.of_nat len <= key)%Z ->
  list_index len key = Raise IndexError.
Proof.
  intros H. unfold list_index.
  destruct (Z.leb_spec 0 key); destruct (Z.ltb_spec key (Z.of_nat len));
    destruct (Z.leb_spec (- Z.of_nat len) key); destruct (Z.ltb_spec key 0);
    cbn [andb]; try reflexivity; lia.
Qed.

Lemma votes_cons (m : Z) (k : Z) (ks : list Z) (j : nat) :
  votes m (k :: ks) j
  = ((if Z.eqb (k mod m) (Z.of_nat j) then 1 else 0) + votes m ks j)%nat.
Proof. unfold votes. simpl. destruct (Z.eqb (k mod m) (Z.of_nat j)); reflexivity. Qed.

Lemma forestClassify_loop_tally (element : vector) (list_trees : list Node) :
  forall (ks : list Z) (occ : list nat),
    mapM (fun tree => classify tree element) list_trees = Ok ks ->
    Forall (fun k => (- Z.of_nat (length occ) <= k < Z.of_nat (length occ))%Z) ks ->
    exists occ',
      forestClassify_loop list_trees element occ = Ok occ' /\
      length occ' = length occ /\
      forall j, (j < length occ)%nat ->
                nth j occ' 0%nat
                = (nth j occ 0 + votes (Z.of_nat (length occ)) ks j)%nat.
Proof.
  induction list_trees as [|tree rest IH]; intros ks occ Hm Hr.
  - inversion Hm; subst. exists occ. repeat split. intros j _. unfold votes. simpl. lia.
  - apply mapM_cons_inv in Hm. destruct Hm as (k & ks' & Ec & Em & ->).
    inversion Hr as [|? ? Hk Hrest]; subst.
    destruct (@list_index_in_range (length occ) k Hk) as [Ei Hi].
    cbn [forestClassify_loop]. rewrite Ec. cbn [rbind]. rewrite Ei. cbn [rbind].
    destruct (IH ks' (incr_at (Z.to_nat (k mod Z.of_nat (length occ))) occ) Em)
      as (occ' & E' & L' & N').
    { rewrite incr_at_length. exact Hrest. }
    rewrite incr_at_length in L', N'.
    exists occ'. split; [exact E'|]. split; [exact L'|].
    intros j Hj. rewrite (N' j Hj), (@incr_at_nth _ j occ Hi), votes_cons.
    assert (Hmod : (0 <= k mod Z.of_nat (length occ))%Z)
      by (apply Z.mod_pos_bound; lia).
    destruct (Nat.eqb_spec (Z.to_nat (k mod Z.of_nat (length occ))) j);
      destruct (Z.eqb_spec (k mod Z.of_nat (length occ)) (Z.of_nat j)); lia.
Qed.

Lemma forestClassify_loop_bad_label (element : vector) (list_trees : list Node) :
  forall (ks : list Z) (occ : list nat),
    mapM (fun tree => classify tree element) list_trees = Ok ks ->
    Exists (fun k => (k < - Z.of_nat (length occ) \/ Z.of_nat (length occ) <= k)%Z) ks ->
    forestClassify_loop list_trees element occ = Raise IndexError.
Proof.
  induction list_trees as [|tree rest IH]; intros ks occ Hm Hx.
  - inversion Hm; subst. inversion Hx.
  - apply mapM_cons_inv in Hm. destruct Hm as (k & ks' & Ec & Em & ->).
    cbn [forestClassify_loop]. rewrite Ec. cbn [rbind].
    destruct (Z_lt_le_dec k (- Z.of_nat (length occ))) as [Hlo|Hlo].
    { rewrite list_index_out_of_range by lia. reflexivity. }
    destruct (Z_lt_le_dec k (Z.of_nat (length occ))) as [Hhi|Hhi].
    2:{ rewrite list_index_out_of_range by lia. reflexivity. }
    destruct (@list_index_in_range (length occ) k) as [Ei _]; [lia|].
    rewrite Ei. cbn [rbind]. apply (IH ks'); [exact Em|].
    rewrite incr_at_length. inversion Hx as [? ? Hbad|? ? Htail]; subst; [lia|exact Htail].
Qed.

(** X11: let the trees predict the labels [ks] for a vector, all between
    [-(nb_labels+1)] and [nb_labels], with [nb_labels >= 0].  Then
    [forestClassify] returns a position [p <= nb_labels] with the most votes,
    the lowest such position on a tie; a label [k >= 0] votes for position
    [k] and a negative label for position [k + nb_labels + 1] (Python's
    negative index).  So a position with strictly more votes than every
    other one is returned, and a forest without trees gives 0. *)
Theorem forestClassify_votes (list_trees : list Node) (element : vector)
        (nb_labels : Z) (ks : list Z) :
  (0 <= nb_labels)%Z ->
  mapM (fun tree => classify tree element) list_trees = Ok ks ->
  Forall (fun k => (- (nb_labels + 1) <= k <= nb_labels)%Z) ks ->
  exists p,
    forestClassify list_trees element nb_labels = Ok p /\
    (Z.of_nat p <= nb_labels)%Z /\
    (forall j, (Z.of_nat j <= nb_labels)%Z ->
               (votes (nb_labels + 1) ks j <= votes (nb_labels + 1) ks p)%nat /\
               ((j < p)%nat ->
                (votes (nb_labels + 1) ks j < votes (nb_labels + 1) ks p)%nat)) /\
    (forall j, (Z.of_nat j <= nb_labels)%Z ->
               (forall j', (Z.of_nat j' <= nb_labels)%Z -> j' <> j ->
                           (votes (nb_labels + 1) ks j' < votes (nb_labels + 1) ks j)%nat) ->
               p = j) /\
    (list_trees = [] -> p = 0%nat).
Proof.
  intros HL Hm Hr. unfold forestClassify.
  set (occ := repeat 0%nat (Z.to_nat (nb_labels + 1))).
  assert (Hlen : length occ = Z.to_nat (nb_labels + 1)) by apply repeat_length.
  assert (HM : Z.of_nat (length occ) = (nb_labels + 1)%Z) by lia.
  destruct (@forestClassify_loop_tally element list_trees ks occ Hm)
    as (occ' & E & L & N).
  { eapply Forall_impl; [|exact Hr]. cbn beta. intros k Hk. lia. }
  rewrite E. cbn [rbind].
  destruct (@np_argmax_spec occ') as (p & x & Ea & Hp & Hall).
  { intros E0. rewrite E0 in L. simpl in L. lia. }
  assert (Hocc : forall j, (j < length occ)%nat ->
                           nth_error occ' j = Some (votes (nb_labels + 1) ks j)).
  { intros j Hj. rewrite (nth_error_nth' occ' 0%nat) by lia.
    rewrite (N j Hj), HM. f_equal.
    unfold occ. rewrite nth_repeat. reflexivity. }
  assert (Hpl : (p < length occ)%nat).
  { rewrite <- L. apply nth_error_Some. congruence. }
  rewrite (Hocc p Hpl) in Hp. inversion Hp; subst x.
  assert (Hmax : forall j, (Z.of_nat j <= nb_labels)%Z ->
                 (votes (nb_labels + 1) ks j <= votes (nb_labels + 1) ks p)%nat /\
                 ((j < p)%nat ->
                  (votes (nb_labels + 1) ks j < votes (nb_labels + 1) ks p)%nat)).
  { intros j Hj. apply (Hall j). apply Hocc. lia. }
  exists p. split; [exact Ea|]. split; [lia|]. split; [exact Hmax|]. split.
  - intros j Hj Hstrict.
    destruct (Nat.eq_dec p j) as [|Hne]; [assumption|].
    assert (Hpj : (Z.of_nat p <= nb_labels)%Z) by lia.
    pose proof (Hstrict p Hpj Hne). destruct (Hmax j Hj). lia.
  - intros ->. inversion Hm; subst ks.
    destruct p as [|p]; [reflexivity|].
    assert (H0 : (Z.of_nat 0 <= nb_labels)%Z) by lia.
    destruct (Hmax 0%nat H0) as [_ Hlt]. unfold votes in Hlt. simpl in Hlt. lia.
Qed.

Lemma forestClassify_votes_witness :
  forestClassify [newNode [(2%Z, [[1]])]; newNode [((-1)%Z, [[1]])];
                  newNode [((-1)%Z, [[1]])]] [0] 3 = Ok 3%nat /\
  forestClassify [] [0] 3 = Ok 0%nat.
Proof.
  split.
  - destruct (@forestClassify_votes
                [newNode [(2%Z, [[1]])]; newNode [((-1)%Z, [[1]])];
                 newNode [((-1)%Z, [[1]])]] [0] 3 [2; -1; -1]%Z)
      as (p & E & _ & _ & Hplur & _).
    + lia.
    + reflexivity.
    + repeat constructor; lia.
    + rewrite E. f_equal. apply Hplur; [lia|].
      intros j' Hj' Hne.
      destruct j' as [|[|[|[|j']]]]; try (vm_compute; lia); try lia; congruence.
  - destruct (@forestClassify_votes [] [0] 3 []) as (p & E & _ & _ & _ & H0).
    + lia.
    + reflexivity.
    + constructor.
    + rewrite E. f_equal. apply H0. reflexivity.
Defined.

(** X12: a predicted label above [nb_labels], or below [-(nb_labels+1)],
    falls outside the tally and [forestClassify] raises IndexError; with
    [nb_labels < 0] the tally is empty, so a forest without trees makes
    [np.argmax] raise ValueError. *)
Theorem forestClassify_errors (list_trees : list Node) (element : vector)
        (nb_labels : Z) (ks : list Z) :
  mapM (fun tree => classify tree element) list_trees = Ok ks ->
  (Exists (fun k => (k < - Z.of_nat (Z.to_nat (nb_labels + 1))
                     \/ Z.of_nat (Z.to_nat (nb_labels + 1)) <= k)%Z) ks ->
   forestClassify list_trees element nb_labels = Raise IndexError) /\
  (list_trees = [] -> (nb_labels < 0)%Z ->
   forestClassify list_trees element nb_labels = Raise ValueError).
Proof.
  intros Hm. split.
  - intros Hx. unfold forestClassify.
    rewrite (@forestClassify_loop_bad_label element list_trees ks _ Hm);
      [reflexivity|].
    rewrite repeat_length. exact Hx.
  - intros -> HL. unfold forestClassify.
    replace (Z.to_nat (nb_labels + 1)) with 0%nat by lia. reflexivity.
Qed.

Lemma forestClassify_errors_witness :
  forestClassify [newNode [(2%Z, [[1]])]; newNode [(4%Z, [[1]])]] [0] 3
  = Raise IndexError /\
  forestClassify [] [0] (-1) = Raise ValueError.
Proof.
  split.
  - apply (proj1 (@forestClassify_errors
                    [newNode [(2%Z, [[1]])]; newNode [(4%Z, [[1]])]] [0] 3 [2; 4]%Z
                    eq_refl)).
    apply Exists_cons_tl. apply Exists_cons_hd. simpl. lia.
  - apply (proj2 (@forestClassify_errors [] [0] (-1) [] eq_refl)); [reflexivity|lia].
Defined.

(** ** More on sampleDict *)

Lemma dd_append_keys_in (key : label) (x : vector) (d : dict) (k : label) :
  In k (keys (dd_append key x d)) <-> k = key \/ In k (keys d).
Proof.
  induction d as [|[k' l] d IH]; simpl.
  - intuition.
  - destruct (Z.eqb_spec key k') as [->|Hne]; simpl.
    + intuition.
    + rewrite IH. intuition.
Qed.

Lemma dd_append_NoDup (key : label) (x : vector) (d : dict) :
  NoDup (keys d) -> NoDup (keys (dd_append key x d)).
Proof.
  induction d as [|[k' l] d IH]; intros H; simpl.
  - constructor; [intros []|constructor].
  - inversion H as [|? ? Hn Hd]; subst.
    destruct (Z.eqb_spec key k') as [->|Hne]; simpl.
    + constructor; assumption.
    + constructor; [|apply IH; exact Hd].
      intros Hin. apply dd_append_keys_in in Hin. destruct Hin; [congruence|contradiction].
Qed.

Lemma dd_append_no_empty (key : label) (x : vector) (d : dict) :
  no_empty_label d = true -> no_empty_label (dd_append key x d) = true.
Proof.
  unfold no_empty_label. induction d as [|[k' l] d IH]; intros H; simpl.
  - reflexivity.
  - simpl in H. apply andb_true_iff in H. destruct H as [H1 H2].
    destruct (Z.eqb_spec key k'); simpl.
    + rewrite H2, length_app. simpl.
      replace (length l + 1)%nat with (S (length l)) by lia. reflexivity.
    + rewrite H1. simpl. apply IH. exact H2.
Qed.

Lemma sampleDict_find_cases (i : nat) (items d d' : dict) :
  sampleDict_find i items d = Ok d' ->
  d' = d \/ exists k x, d' = dd_append k x d.
Proof.
  revert i; induction items as [|[k v] items IH]; intros i H; simpl in H.
  - inversion H. now left.
  - destruct (Nat.ltb i (length v)).
    + unfold getitem in H. destruct (nth_error v i) as [x|]; [|discriminate H].
      simpl in H. inversion H. right. exists k, x. reflexivity.
    + apply (IH _ H).
Qed.

Lemma sampleDict_loop_shape (idx : list nat) (dic : dict) :
  forall d d',
    sampleDict_loop idx dic d = Ok d' ->
    NoDup (keys d) -> no_empty_label d = true ->
    NoDup (keys d') /\ no_empty_label d' = true.
Proof.
  induction idx as [|i idx IH]; intros d d' H Hd He; simpl in H.
  - inversion H; subst. split; assumption.
  - destruct (sampleDict_find i dic d) as [d1|e] eqn:E; [|discriminate H].
    simpl in H. destruct (sampleDict_find_cases _ _ _ E) as [->|(k & x & ->)].
    + apply (IH _ _ H Hd He).
    + apply (IH _ _ H); [apply dd_append_NoDup; exact Hd|apply dd_append_no_empty; exact He].
Qed.

Lemma map_nth_seq {A} (dflt : A) (L pre : list A) :
  map (fun i => nth i (pre ++ L) dflt) (seq (length pre) (length L)) = L.
Proof.
  revert pre; induction L as [|a L IH]; intros pre; [reflexivity|].
  cbn [length seq map]. f_equal.
  - rewrite app_nth2, Nat.sub_diag by lia. reflexivity.
  - specialize (IH (pre ++ [a])). rewrite <- app_assoc, length_app in IH.
    simpl in IH. replace (length pre + 1)%nat with (S (length pre)) in IH by lia.
    exact IH.
Qed.

Lemma picked_map {A} (dflt : A) (L : list A) (idx : list nat) (picked : list A) :
  Forall2 (fun i p => nth_error L i = Some p) idx picked ->
  picked = map (fun i => nth i L dflt) idx.
Proof.
  induction 1 as [|i p idx picked Hi _ IH]; [reflexivity|].
  simpl. rewrite <- IH. f_equal. symmetry. apply nth_error_nth. exact Hi.
Qed.

Lemma sampleDict_closed (dic : dict) (sample_size : nat) (r : rng) :
  (sample_size <= lenDictValues dic)%nat ->
  exists d r',
    sampleDict dic sample_size r = Ok (d, r') /\
    NoDup (keys d) /\ no_empty_label d = true /\
    incl (flatten d) (flatten dic) /\
    lenDictValues d = sample_size /\
    (sample_size = lenDictValues dic -> Permutation (flatten d) (flatten dic)).
Proof.
  intros Hk. unfold sampleDict, mbind.
  destruct (@rd_sample_spec _ (seq 0 (lenDictValues dic)) sample_size r)
    as (idx & rest & r' & E & L & P); [rewrite length_seq; exact Hk|].
  rewrite E.
  assert (Hin : Forall (fun i => (i < lenDictValues dic)%nat) idx).
  { apply Forall_forall. intros i Hi.
    assert (In i (seq 0 (lenDictValues dic))).
    { eapply Permutation_in; [symmetry; exact P|]. apply in_or_app. now left. }
    apply in_seq in H. lia. }
  destruct (sampleDict_loop_spec dic [] Hin) as (d & picked & E' & F & P').
  unfold lift. rewrite E'. simpl in P'.
  destruct (@sampleDict_loop_shape idx dic [] d E') as [Hnd Hne];
    [constructor|reflexivity|].
  exists d, r'. split; [reflexivity|]. split; [exact Hnd|]. split; [exact Hne|].
  split; [|split].
  - intros p Hp. apply (Permutation_in _ P') in Hp.
    clear - F Hp. induction F as [|i q idx picked Hi _ IH]; [contradiction|].
    destruct Hp as [<-|Hp]; [eapply nth_error_In; exact Hi|apply IH; exact Hp].
  - rewrite lenDictValues_flatten, (Permutation_length P').
    rewrite <- (Forall2_length F). exact L.
  - intros Hall.
    assert (Hrest : rest = []).
    { apply Permutation_length in P. rewrite length_seq, length_app in P.
      destruct rest; [reflexivity|simpl in P; lia]. }
    subst rest. rewrite app_nil_r in P.
    rewrite P'. rewrite (@picked_map _ (0%Z, []) (flatten dic) idx picked F).
    rewrite <- (Permutation_map _ P).
    rewrite lenDictValues_flatten.
    pose proof (@map_nth_seq _ (0%Z, []) (flatten dic) []) as Em.
    cbn [app length] in Em.
    exact (eq_ind _ (fun l => Permutation l (flatten dic)) (Permutation_refl _) _
                  (eq_sym Em)).
Qed.

(** X13: when [sample_size] is at most the number of vectors, the dictionary
    [sampleDict] returns has distinct labels, none with an empty list, and
    every labelled vector in it is a labelled vector of the dataset; when
    [sample_size] is the number of vectors it holds the whole dataset, each
    vector once, possibly grouped in another order. *)
Theorem sampleDict_partition (dic : dict) (sample_size : nat) (r : rng) :
  (sample_size <= lenDictValues dic)%nat ->
  exists d r',
    sampleDict dic sample_size r = Ok (d, r') /\
    distinct (keys d) = true /\ no_empty_label d = true /\
    incl (flatten d) (flatten dic) /\
    (sample_size = lenDictValues dic -> Permutation (flatten d) (flatten dic)).
Proof.
  intros Hk.
  destruct (sampleDict_closed dic r Hk) as (d & r' & E & Hnd & Hne & Hin & _ & Hall).
  exists d, r'. split; [exact E|]. split; [apply distinct_NoDup; exact Hnd|].
  repeat split; assumption.
Qed.

Lemma sampleDict_partition_witness :
  exists d r',
    sampleDict example_data 5 (tape [4; 0; 2; 1; 0]%nat) = Ok (d, r') /\
    distinct (keys d) = true /\ no_empty_label d = true /\
    incl (flatten d) (flatten example_data) /\
    Permutation (flatten d) (flatten example_data).
Proof.
  destruct (@sampleDict_partition example_data 5 (tape [4; 0; 2; 1; 0]%nat))
    as (d & r' & E & H1 & H2 & H3 & H4).
  - vm_compute. lia.
  - exists d, r'. repeat split; try assumption. apply H4. reflexivity.
Defined.

(** ** randomForest *)





Lemma decisionTree_empty (node : Node) (nb : nat) (features : list nat)
      (max_depth : Z) (r : rng) :
  features <> [] -> data node = [] ->
  decisionTree node nb features max_depth r = Raise ZeroDivisionError.
Proof.
  intros Hf Hd. unfold decisionTree. apply decisionTree_raise.
  destruct (generateCut_empty node r Hf Hd) as [f [E _]].
  unfold bestCut, mbind. rewrite E, Hd. reflexivity.
Qed.

Lemma sample_features (m : nat) (r : rng) :
  (2 <= m)%nat ->
  exists tFeatures r',
    rd_sample (seq 0 m) (int_sqrt m + 1) r = Ok (tFeatures, r') /\
    tFeatures <> [] /\ forall f, In f tFeatures -> (f < m)%nat.
Proof.
  intros Hm.
  assert (Hs : (int_sqrt m + 1 <= m)%nat).
  { unfold int_sqrt. pose proof (Nat.sqrt_lt_lin m). lia. }
  destruct (@rd_sample_spec _ (seq 0 m) (int_sqrt m + 1) r)
    as (tF & rest & r' & E & L & P); [rewrite length_seq; exact Hs|].
  exists tF, r'. split; [exact E|]. split.
  - intros E0. rewrite E0 in L. simpl in L. lia.
  - intros f Hf. assert (In f (seq 0 m)).
    { eapply Permutation_in; [symmetry; exact P|]. apply in_or_app. now left. }
    apply in_seq in H. lia.
Qed.

Section Training.

Variable dataset : dict.
Variables sample_size nb_cut m : nat.
Variable max_depth : Z.
Variable v0 : vector.

Hypothesis first_ok : first_vector dataset = Ok v0.
Hypothesis data_uniform : forall v, In v (concat (values dataset)) -> length v = m.
Hypothesis two_features : (2 <= m)%nat.
Hypothesis sample_pos : (1 <= sample_size)%nat.
Hypothesis sample_fits : (sample_size <= lenDictValues dataset)%nat.


End Training.








Lemma no_vector_no_label (d : dict) :
  no_empty_label d = true -> lenDictValues d = 0%nat -> d = [].
Proof.
  intros He Hn. destruct d as [|[k l] d]; [reflexivity|].
  unfold no_empty_label in He. simpl in He. apply andb_true_iff in He.
  destruct He as [He _]. rewrite lenDictValues_cons in Hn.
  destruct l; [discriminate He|simpl in Hn; lia].
Qed.

(** X16: how training fails, for at least one tree.  [randomForest] raises
    ValueError when [sample_size] exceeds the number of vectors, and also
    when the vectors have fewer than two values (it asks for
    [int(sqrt(n)) + 1] of [n] features); it raises IndexError when the
    dataset has no label or its first label has no vector; and with
    [sample_size = 0] every tree would be built on an empty sample, which
    raises ZeroDivisionError. *)
Theorem randomForest_errors (dataset : dict) (nb_trees sample_size nb_cut : nat)
        (max_depth : Z) (r : rng) :
  (1 <= nb_trees)%nat ->
  ((lenDictValues dataset < sample_size)%nat ->
   randomForest dataset nb_trees sample_size nb_cut max_depth r = Raise ValueError) /\
  ((sample_size <= lenDictValues dataset)%nat ->
   (dataset = [] \/ exists k rest, dataset = (k, []) :: rest) ->
   randomForest dataset nb_trees sample_size nb_cut max_depth r = Raise IndexError) /\
  ((sample_size <= lenDictValues dataset)%nat ->
   forall v0, first_vector dataset = Ok v0 -> (length v0 <= 1)%nat ->
   randomForest dataset nb_trees sample_size nb_cut max_depth r = Raise ValueError) /\
  (sample_size = 0%nat ->
   forall v0, first_vector dataset = Ok v0 -> (2 <= length v0)%nat ->
   randomForest dataset nb_trees sample_size nb_cut max_depth r
   = Raise ZeroDivisionError).
Proof.
  intros Hnt. destruct nb_trees as [|n]; [lia|].
  unfold randomForest. cbn [randomForest_loop].
  split; [|split; [|split]].
  - intros Hbig. unfold mbind at 1. unfold sampleDict, mbind.
    rewrite rd_sample_too_many; [reflexivity|]. rewrite length_seq. exact Hbig.
  - intros Hfit Hshape. unfold mbind at 1.
    destruct (sampleDict_closed dataset r Hfit) as (d & r1 & Es & _).
    rewrite Es. unfold mbind at 1. unfold lift.
    destruct Hshape as [->|(k & rest & ->)]; reflexivity.
  - intros Hfit v0 Hfirst Hlen. unfold mbind at 1.
    destruct (sampleDict_closed dataset r Hfit) as (d & r1 & Es & _).
    rewrite Es. unfold mbind at 1. unfold lift at 1. rewrite Hfirst.
    unfold mbind at 1. rewrite rd_sample_too_many; [reflexivity|].
    rewrite length_seq. unfold int_sqrt.
    destruct (length v0) as [|[|m]]; [simpl; lia|simpl; lia|lia].
  - intros -> v0 Hfirst Hlen. unfold mbind at 1.
    destruct (@sampleDict_closed dataset 0 r) as (d & r1 & Es & _ & Hne & _ & Hz & _);
      [lia|].
    rewrite Es. unfold mbind at 1. unfold lift at 1. rewrite Hfirst.
    unfold mbind at 1.
    destruct (@sample_features (length v0) r1 Hlen) as (tF & r2 & Ef & Hfne & _).
    rewrite Ef. unfold mbind at 1.
    rewrite (@decisionTree_empty (newNode d) nb_cut tF max_depth r2 Hfne);
      [reflexivity|].
    cbn [data newNode]. apply no_vector_no_label; assumption.
Qed.

Lemma randomForest_errors_witness :
  randomForest example_data 2 6 3 5 example_draws = Raise ValueError /\
  randomForest [(1%Z, []); (2%Z, [[3; 7]])] 2 1 3 5 example_draws = Raise IndexError /\
  randomForest [(1%Z, [[1]; [2]]); (2%Z, [[3]])] 2 2 3 5 example_draws
  = Raise ValueError /\
  randomForest example_data 2 0 3 5 example_draws = Raise ZeroDivisionError.
Proof.
  split; [|split; [|split]].
  - apply (@randomForest_errors example_data 2 6 3 5 example_draws); [lia|].
    vm_compute. lia.
  - apply (@randomForest_errors [(1%Z, []); (2%Z, [[3; 7]])] 2 1 3 5 example_draws);
      [lia|vm_compute; lia|].
    right. exists 1%Z, [(2%Z, [[3; 7]])]. reflexivity.
  - apply (proj1 (proj2 (proj2 (@randomForest_errors
             [(1%Z, [[1]; [2]]); (2%Z, [[3]])] 2 2 3 5 example_draws
             ltac:(lia)))) ltac:(vm_compute; lia) [1]); [reflexivity|simpl; lia].
  - apply (proj2 (proj2 (proj2 (@randomForest_errors example_data 2 0 3 5 example_draws
             ltac:(lia)))) eq_refl [1; 5]); [reflexivity|simpl; lia].
Defined.

(** ** More on score *)

Lemma agreements_le (p t : list Z) : (agreements p t <= length p)%nat.
Proof.
  revert t; induction p as [|a p IH]; intros [|b t]; simpl; try lia.
  specialize (IH t). destruct (Z.eqb a b); lia.
Qed.

Lemma agreements_all (p t : list Z) :
  length p = length t ->
  (agreements p t = length p <-> p = t).
Proof.
  revert t; induction p as [|a p IH]; intros [|b t] Hlen; simpl in *; try lia.
  - tauto.
  - pose proof (agreements_le p t) as Hle.
    specialize (IH t ltac:(lia)).
    destruct (Z.eqb_spec a b) as [->|Hne].
    + split.
      * intros H. f_equal. apply IH. lia.
      * intros H. inversion H; subst. assert (agreements t t = length t) by (apply IH; reflexivity).
        lia.
    + split; [intros H; lia|intros H; inversion H; contradiction].
Qed.

Lemma score_loop_ext (range : list nat) (g t t' : list Z) (acc : nat) :
  (forall i, In i range -> nth_error t i = nth_error t' i) ->
  score_loop range g t acc = score_loop range g t' acc.
Proof.
  revert acc; induction range as [|i range IH]; intros acc H; [reflexivity|].
  cbn [score_loop]. unfold getitem. rewrite <- (H i) by now left.
  destruct (nth_error g i); [|reflexivity]. cbn [rbind].
  destruct (nth_error t i); [|reflexivity]. cbn [rbind].
  apply IH. intros j Hj. apply H. now right.
Qed.

Lemma score_loop_short (g t : list Z) (k s acc : nat) :
  (s <= length t)%nat -> (length t < s + k)%nat -> (s + k <= length g)%nat ->
  score_loop (seq s k) g t acc = Raise IndexError.
Proof.
  revert s acc; induction k as [|k IH]; intros s acc H1 H2 H3; [lia|].
  cbn [seq score_loop]. unfold getitem.
  destruct (nth_error g s) as [a|] eqn:Eg.
  2:{ apply nth_error_None in Eg. lia. }
  cbn [rbind].
  destruct (nth_error t s) as [b|] eqn:Et; [|reflexivity].
  cbn [rbind].
  assert (s < length t)%nat by (apply nth_error_Some; congruence).
  apply IH; lia.
Qed.

(** X17: for non-empty sequences of equal length the accuracy [score]
    returns lies between 0 and 1, and it is 1 exactly when the two sequences
    are equal. *)
Theorem score_range (predicted trueLabels : list Z) :
  predicted <> [] ->
  length predicted = length trueLabels ->
  exists q,
    score predicted trueLabels = Ok q /\
    0 <= q /\ q <= 1 /\
    (q == 1 <-> predicted = trueLabels).
Proof.
  intros Hne Hlen. unfold score.
  rewrite (@score_loop_seq predicted trueLabels (length predicted) 0 0)
    by (simpl; lia).
  cbn [rbind skipn Nat.add]. unfold py_div.
  assert (Hpos : (0 < length predicted)%nat) by (destruct predicted; [congruence|simpl; lia]).
  destruct (Nat.eqb_spec (length predicted) 0); [lia|].
  eexists. split; [reflexivity|].
  pose proof (Qnat_pos Hpos) as HP.
  pose proof (agreements_le predicted trueLabels) as Hle.
  split; [|split].
  - apply Qle_shift_div_l; [exact HP|]. rewrite Qmult_0_l.
    unfold Qnat. change 0 with (inject_Z 0). rewrite <- Zle_Qle. lia.
  - apply Qle_shift_div_r; [exact HP|]. rewrite Qmult_1_l. apply Qnat_le. exact Hle.
  - rewrite <- (agreements_all _ _ Hlen). split.
    + intros E.
      assert (E' : Qnat (agreements predicted trueLabels) == Qnat (length predicted)).
      { rewrite <- (Qmult_1_l (Qnat (length predicted))), <- E. field.
        intros Z0. rewrite Z0 in HP. apply (Qlt_irrefl 0 HP). }
      unfold Qnat, Qeq in E'. simpl in E'. lia.
    + intros E. rewrite E. apply Qnat_div_same. exact Hpos.
Qed.

Lemma score_range_witness :
  exists q,
    score [1; 0; 1; 1]%Z [1; 1; 1; 0]%Z = Ok q /\
    0 <= q /\ q <= 1 /\
    (q == 1 <-> [1; 0; 1; 1]%Z = [1; 1; 1; 0]%Z).
Proof.
  apply score_range.
  - discriminate.
  - reflexivity.
Defined.

(** X18: [score] reads the true labels only at the positions of the
    predicted ones: with fewer true labels than predictions it raises
    IndexError, and true labels beyond the length of the predictions are
    ignored. *)
Theorem score_length_mismatch (predicted trueLabels : list Z) :
  ((length trueLabels < length predicted)%nat ->
   score predicted trueLabels = Raise IndexError) /\
  ((length predicted <= length trueLabels)%nat ->
   score predicted trueLabels
   = score predicted (firstn (length predicted) trueLabels)).
Proof.
  split.
  - intros H. unfold score.
    rewrite (@score_loop_short predicted trueLabels (length predicted) 0 0) by lia.
    reflexivity.
  - intros H. unfold score.
    rewrite (@score_loop_ext (seq 0 (length predicted)) predicted trueLabels
                             (firstn (length predicted) trueLabels) 0); [reflexivity|].
    intros i Hi. apply in_seq in Hi. rewrite nth_error_firstn.
    destruct (Nat.ltb_spec i (length predicted)); [reflexivity|lia].
Qed.

Lemma score_length_mismatch_witness :
  score [1; 0; 1]%Z [1; 0]%Z = Raise IndexError /\
  score [1; 0]%Z [1; 1; 5; 7]%Z = score [1; 0]%Z (firstn 2 [1; 1; 5; 7]%Z).
Proof.
  split.
  - apply (proj1 (score_length_mismatch [1; 0; 1]%Z [1; 0]%Z)). simpl. lia.
  - apply (proj2 (score_length_mismatch [1; 0]%Z [1; 1; 5; 7]%Z)). simpl. lia.
Defined.

(** ** An upper bound on the gain *)

Lemma sumsq_pos (cs : list nat) : (0 < list_sum cs)%nat -> (0 < sumsq cs)%nat.
Proof.
  intros H. pose proof (square_le_positives_sumsq cs) as H2.
  destruct (sumsq cs); [|lia]. nia.
Qed.

Lemma gini_val_range (cs : list nat) :
  (0 < py_sum cs)%nat -> 0 <= gini_val cs /\ gini_val cs < 1.
Proof.
  intros Hn. rewrite gini_val_closed by exact Hn.
  assert (HN : 0 < Qnat (py_sum cs) * Qnat (py_sum cs)).
  { apply Qmult_lt_0_compat; apply Qnat_pos; exact Hn. }
  assert (Hup : Qnat (sumsq cs) / (Qnat (py_sum cs) * Qnat (py_sum cs)) <= 1).
  { apply Qle_shift_div_r; [exact HN|]. rewrite Qmult_1_l, <- Qnat_mult.
    apply Qnat_le. rewrite py_sum_list_sum. apply sumsq_le_square. }
  assert (Hlo : 0 < Qnat (sumsq cs) / (Qnat (py_sum cs) * Qnat (py_sum cs))).
  { apply Qlt_shift_div_l; [exact HN|]. rewrite Qmult_0_l. apply Qnat_pos.
    apply sumsq_pos. rewrite <- py_sum_list_sum. exact Hn. }
  generalize dependent (Qnat (sumsq cs) / (Qnat (py_sum cs) * Qnat (py_sum cs))).
  intros x Hup Hlo. split; lra.
Qed.

Lemma gini_returned_range (d : dict) (g : Q) :
  gini d = Ok g -> 0 <= g /\ g <= 1.
Proof.
  intros H. destruct d as [|kl d'] eqn:E.
  - rewrite gini_empty in H. inversion H. split; lra.
  - rewrite <- E in *. destruct (Nat.eq_dec (lenDictValues d) 0) as [Hz|Hz].
    + rewrite gini_no_vector in H; [discriminate H|subst d; discriminate|exact Hz].
    + assert (Hn : (0 < lenDictValues d)%nat) by lia.
      rewrite (gini_counts d Hn) in H. inversion H.
      destruct (@gini_val_range (counts d) Hn). split; lra.
Qed.

(** X19: with exact arithmetic, when the left part holds no more vectors
    than the parent, every gain [infoGain] returns is at most the impurity of
    the parent, which is below 1. *)
Theorem infoGain_upper (c c1 c2 : dict) (g : Q) :
  (lenDictValues c1 <= lenDictValues c)%nat ->
  infoGain c c1 c2 = Ok g ->
  exists gc, gini c = Ok gc /\ g <= gc /\ gc < 1.
Proof.
  intros Hle H. unfold infoGain, py_div in H.
  destruct (Nat.eqb_spec (lenDictValues c) 0) as [|Hnz]; [discriminate H|].
  assert (Hn : (0 < lenDictValues c)%nat) by lia.
  cbn [rbind] in H. rewrite (gini_counts c Hn) in H. cbn [rbind] in H.
  destruct (gini c1) as [g1|] eqn:E1; [|discriminate H].
  destruct (gini c2) as [g2|] eqn:E2; [|discriminate H].
  cbn [rbind] in H. inversion H; subst g. clear H.
  exists (gini_val (counts c)). split; [apply gini_counts; exact Hn|].
  destruct (@gini_val_range (counts c) Hn) as [_ Hlt1]. split; [|exact Hlt1].
  destruct (gini_returned_range _ E1) as [G1 _].
  destruct (gini_returned_range _ E2) as [G2 _].
  pose proof (Qnat_pos Hn) as HN.
  assert (P0 : 0 <= Qnat (lenDictValues c1) / Qnat (lenDictValues c)).
  { apply Qle_shift_div_l; [exact HN|]. rewrite Qmult_0_l.
    unfold Qnat. change 0 with (inject_Z 0). rewrite <- Zle_Qle. lia. }
  assert (P1 : Qnat (lenDictValues c1) / Qnat (lenDictValues c) <= 1).
  { apply Qle_shift_div_r; [exact HN|]. rewrite Qmult_1_l. apply Qnat_le. exact Hle. }
  generalize dependent (Qnat (lenDictValues c1) / Qnat (lenDictValues c)).
  intros p P0 P1.
  assert (A : 0 <= p * g1) by (apply Qmult_le_0_compat; assumption).
  assert (B : 0 <= (1 - p) * g2) by (apply Qmult_le_0_compat; [lra|assumption]).
  generalize dependent (p * g1). generalize dependent ((1 - p) * g2).
  intros y B x A. lra.
Qed.

Lemma infoGain_upper_witness :
  exists g gc,
    infoGain [(1%Z, [[1]; [2]]); (2%Z, [[3]; [4]])]
             [(1%Z, [[1]; [2]])] [(2%Z, [[3]; [4]])] = Ok g /\
    gini [(1%Z, [[1]; [2]]); (2%Z, [[3]; [4]])] = Ok gc /\
    g <= gc /\ gc < 1.
Proof.
  assert (E : exists g,
             infoGain [(1%Z, [[1]; [2]]); (2%Z, [[3]; [4]])]
                      [(1%Z, [[1]; [2]])] [(2%Z, [[3]; [4]])] = Ok g)
    by (eexists; vm_compute; reflexivity).
  destruct E as [g E].
  destruct (@infoGain_upper [(1%Z, [[1]; [2]]); (2%Z, [[3]; [4]])]
                            [(1%Z, [[1]; [2]])] [(2%Z, [[3]; [4]])] g)
    as (gc & Eg & H1 & H2).
  - vm_compute. lia.
  - exact E.
  - exists g, gc. repeat split; assumption.
Defined.
